(** * Alpha profiles for a disk simulation: bumps, gaps and dead zones

    A shallow embedding of [functions_alphaProfiles.py] and
    [setup_alphaProfiles.py].

    Numbers are modelled as exact reals: every [float64] operation of the
    source is read as the real operation it rounds.  Statements proved here
    are therefore statements about the exact-arithmetic reading of the
    code; rounding, overflow to [inf] and [nan] are outside the model.
    Division by zero does not raise in numpy (it yields [inf] or [nan] with
    a warning), so it is not an error of the model either; no theorem below
    relies on the value of a quotient whose divisor is zero. *)

From Stdlib Require Import String ZArith Bool PeanoNat Reals Lra Lia List.
Import ListNotations.
Open Scope R_scope.

(* ------------------------------------------------------------------ *)
(** * numpy arrays *)
(* ------------------------------------------------------------------ *)

Module Np.

(** A one-dimensional array of floats. *)
Definition ndarray := list R.

(** A value that is either a plain Python number ([int] or [float]) or a
    one-dimensional sequence of numbers. *)
Inductive PyNum :=
| Scalar (v : R)
| Array (a : ndarray).

Fixpoint map2 (f : R -> R -> R) (a b : ndarray) : ndarray :=
  match a, b with
  | x :: a', y :: b' => f x y :: map2 f a' b'
  | _, _ => []
  end.

(** Element-wise operation on two arrays under the broadcasting rule for one
    dimension: equal lengths, or one side of length one. *)
Definition broadcast2 (f : R -> R -> R) (a b : ndarray) : option ndarray :=
  if Nat.eqb (length a) (length b) then Some (map2 f a b)
  else match a, b with
       | [x], _ => Some (map (f x) b)
       | _, [y] => Some (map (fun x => f x y) a)
       | _, _ => None
       end.

(** [a op b] for numbers and arrays. *)
Definition binop (f : R -> R -> R) (a b : PyNum) : option PyNum :=
  match a, b with
  | Scalar x, Scalar y => Some (Scalar (f x y))
  | Scalar x, Array b' => Some (Array (map (f x) b'))
  | Array a', Scalar y => Some (Array (map (fun x => f x y) a'))
  | Array a', Array b' => option_map Array (broadcast2 f a' b')
  end.

(** A function applied element-wise ([np.exp], [** 2], ...). *)
Definition ufunc (f : R -> R) (a : PyNum) : PyNum :=
  match a with
  | Scalar x => Scalar (f x)
  | Array a' => Array (map f a')
  end.

(** [a op= b] on an array [a]: the result keeps the shape of [a], so [b] must
    have the length of [a] or length one, or be a number. *)
Definition inplace (f : R -> R -> R) (a : ndarray) (b : PyNum) : option ndarray :=
  match b with
  | Scalar y => Some (map (fun x => f x y) a)
  | Array b' =>
      if Nat.eqb (length b') (length a) then Some (map2 f a b')
      else match b' with
           | [y] => Some (map (fun x => f x y) a)
           | _ => None
           end
  end.

(** [a[...] = b]: assignment into an existing array of fixed shape. *)
Definition assign (a b : ndarray) : option ndarray :=
  inplace (fun _ y => y) a (Array b).

Definition ones_like (a : ndarray) : ndarray := map (fun _ => 1) a.

Definition sum (a : ndarray) : R := fold_right Rplus 0 a.

Definition Rltb (x y : R) : bool := if Rlt_dec x y then true else false.
Definition Rgeb (x y : R) : bool := if Rge_dec x y then true else false.

(** [x[m]] for a boolean mask [m]. *)
Fixpoint select (m : list bool) (x : ndarray) : ndarray :=
  match m, x with
  | true :: m', v :: x' => v :: select m' x'
  | false :: m', _ :: x' => select m' x'
  | _, _ => []
  end.

(** [a[m] = v] for a boolean mask [m]: the entries of [v] go, in order, to
    the positions where the mask holds. *)
Fixpoint put_mask (a : ndarray) (m : list bool) (v : ndarray) : ndarray :=
  match a, m with
  | x :: a', true :: m' =>
      match v with
      | y :: v' => y :: put_mask a' m' v'
      | [] => x :: put_mask a' m' []
      end
  | x :: a', false :: m' => x :: put_mask a' m' v
  | _, _ => a
  end.

(** [np.searchsorted(x, v)] on an increasing [x]: the number of leading
    entries strictly below [v]. *)
Fixpoint searchsorted (x : ndarray) (v : R) : nat :=
  match x with
  | [] => 0
  | a :: t => if Rlt_dec a v then S (searchsorted t v) else 0
  end.

End Np.

Import Np.

(* ------------------------------------------------------------------ *)
(** * Outcomes of Python code and the simulation object *)
(* ------------------------------------------------------------------ *)

Inductive PyExn :=
| ValueError
| IndexError
| TypeError
| NameError
| AttributeError.

(** What a call ends in: a value, an exception, or [exit(code)], which ends
    the interpreter with that status. *)
Inductive Outcome (A : Type) :=
| Ok (a : A)
| Raise (e : PyExn)
| SysExit (code : Z).
Arguments Ok {A} a.
Arguments Raise {A} e.
Arguments SysExit {A} code.

(** Lines written by [print]; numbers are kept as numbers, their formatting
    is not modelled. *)
Inductive Message :=
| MsgProfileTypeNotDefined
| MsgAlphaApplied
| MsgMassCorrected (factor : R)
| MsgMassModified (ratio : R).

Inductive AlphaUpdater :=
| UpdEngine        (* whatever the engine installed *)
| UpdAlphaBump
| UpdAlphaDeadZone.

Inductive DeltaUpdater :=
| DeltaEngine
| DeltaGetAlpha.

Record GaussianBumps := mkGaussianBumps {
  Location : PyNum;
  Amplitude : PyNum;
  Width : PyNum;
  Type_ : string;
  bumps_updater : list string
}.

Record DeadZone := mkDeadZone {
  alpha_active : R;
  alpha_dead : R;
  outer_radii : R;
  transition_width : R;
  deadzone_updater : list string
}.

(** The part of the simulation object the two modules read and write.
    [updates_requested] counts the calls of [sim.update()], the engine's own
    full update, whose effect on the fields is outside this development. *)
Record Sim := mkSim {
  grid_r : ndarray;
  grid_A : ndarray;
  ini_gas_alpha : R;
  gas_Hp : ndarray;
  gas_alpha : ndarray;
  gas_alpha_updater : AlphaUpdater;
  gas_Sigma : ndarray;
  gas_updater : list string;
  gas_GaussianBumps : option GaussianBumps;
  gas_DeadZone : option DeadZone;
  dust_Sigma : list ndarray;
  dust_delta_rad_updater : DeltaUpdater;
  dust_delta_turb_updater : DeltaUpdater;
  dust_delta_vert_updater : DeltaUpdater;
  stdout : list Message;
  updates_requested : nat
}.

Definition set_gas_alpha (v : ndarray) (s : Sim) : Sim :=
  mkSim (grid_r s) (grid_A s) (ini_gas_alpha s) (gas_Hp s) v
        (gas_alpha_updater s) (gas_Sigma s) (gas_updater s)
        (gas_GaussianBumps s) (gas_DeadZone s) (dust_Sigma s)
        (dust_delta_rad_updater s) (dust_delta_turb_updater s)
        (dust_delta_vert_updater s) (stdout s) (updates_requested s).

Definition set_gas_alpha_updater (u : AlphaUpdater) (s : Sim) : Sim :=
  mkSim (grid_r s) (grid_A s) (ini_gas_alpha s) (gas_Hp s) (gas_alpha s)
        u (gas_Sigma s) (gas_updater s)
        (gas_GaussianBumps s) (gas_DeadZone s) (dust_Sigma s)
        (dust_delta_rad_updater s) (dust_delta_turb_updater s)
        (dust_delta_vert_updater s) (stdout s) (updates_requested s).

Definition set_gas_Sigma (v : ndarray) (s : Sim) : Sim :=
  mkSim (grid_r s) (grid_A s) (ini_gas_alpha s) (gas_Hp s) (gas_alpha s)
        (gas_alpha_updater s) v (gas_updater s)
        (gas_GaussianBumps s) (gas_DeadZone s) (dust_Sigma s)
        (dust_delta_rad_updater s) (dust_delta_turb_updater s)
        (dust_delta_vert_updater s) (stdout s) (updates_requested s).

Definition set_gas_updater (u : list string) (s : Sim) : Sim :=
  mkSim (grid_r s) (grid_A s) (ini_gas_alpha s) (gas_Hp s) (gas_alpha s)
        (gas_alpha_updater s) (gas_Sigma s) u
        (gas_GaussianBumps s) (gas_DeadZone s) (dust_Sigma s)
        (dust_delta_rad_updater s) (dust_delta_turb_updater s)
        (dust_delta_vert_updater s) (stdout s) (updates_requested s).

Definition set_gas_GaussianBumps (g : option GaussianBumps) (s : Sim) : Sim :=
  mkSim (grid_r s) (grid_A s) (ini_gas_alpha s) (gas_Hp s) (gas_alpha s)
        (gas_alpha_updater s) (gas_Sigma s) (gas_updater s)
        g (gas_DeadZone s) (dust_Sigma s)
        (dust_delta_rad_updater s) (dust_delta_turb_updater s)
        (dust_delta_vert_updater s) (stdout s) (updates_requested s).

Definition set_gas_DeadZone (g : option DeadZone) (s : Sim) : Sim :=
  mkSim (grid_r s) (grid_A s) (ini_gas_alpha s) (gas_Hp s) (gas_alpha s)
        (gas_alpha_updater s) (gas_Sigma s) (gas_updater s)
        (gas_GaussianBumps s) g (dust_Sigma s)
        (dust_delta_rad_updater s) (dust_delta_turb_updater s)
        (dust_delta_vert_updater s) (stdout s) (updates_requested s).

Definition set_dust_Sigma (v : list ndarray) (s : Sim) : Sim :=
  mkSim (grid_r s) (grid_A s) (ini_gas_alpha s) (gas_Hp s) (gas_alpha s)
        (gas_alpha_updater s) (gas_Sigma s) (gas_updater s)
        (gas_GaussianBumps s) (gas_DeadZone s) v
        (dust_delta_rad_updater s) (dust_delta_turb_updater s)
        (dust_delta_vert_updater s) (stdout s) (updates_requested s).

Definition set_delta_updaters (u : DeltaUpdater) (s : Sim) : Sim :=
  mkSim (grid_r s) (grid_A s) (ini_gas_alpha s) (gas_Hp s) (gas_alpha s)
        (gas_alpha_updater s) (gas_Sigma s) (gas_updater s)
        (gas_GaussianBumps s) (gas_DeadZone s) (dust_Sigma s)
        u u u (stdout s) (updates_requested s).

Definition add_stdout (m : Message) (s : Sim) : Sim :=
  mkSim (grid_r s) (grid_A s) (ini_gas_alpha s) (gas_Hp s) (gas_alpha s)
        (gas_alpha_updater s) (gas_Sigma s) (gas_updater s)
        (gas_GaussianBumps s) (gas_DeadZone s) (dust_Sigma s)
        (dust_delta_rad_updater s) (dust_delta_turb_updater s)
        (dust_delta_vert_updater s) (stdout s ++ [m]) (updates_requested s).

Definition request_update (s : Sim) : Sim :=
  mkSim (grid_r s) (grid_A s) (ini_gas_alpha s) (gas_Hp s) (gas_alpha s)
        (gas_alpha_updater s) (gas_Sigma s) (gas_updater s)
        (gas_GaussianBumps s) (gas_DeadZone s) (dust_Sigma s)
        (dust_delta_rad_updater s) (dust_delta_turb_updater s)
        (dust_delta_vert_updater s) (stdout s) (S (updates_requested s)).

(** ** A state monad with the three outcomes

    The state survives a failure: what Python mutated before an exception
    stays mutated. *)

Definition M (A : Type) : Type := Sim -> Outcome A * Sim.

Definition ret {A} (a : A) : M A := fun s => (Ok a, s).

Definition bind {A B} (m : M A) (k : A -> M B) : M B :=
  fun s =>
    match m s with
    | (Ok a, s') => k a s'
    | (Raise e, s') => (Raise e, s')
    | (SysExit c, s') => (SysExit c, s')
    end.

Definition raise {A} (e : PyExn) : M A := fun s => (Raise e, s).
Definition exit {A} (code : Z) : M A := fun s => (SysExit code, s).
Definition read {A} (f : Sim -> A) : M A := fun s => (Ok (f s), s).
Definition modify (f : Sim -> Sim) : M unit := fun s => (Ok tt, f s).
Definition print (m : Message) : M unit := modify (add_stdout m).

(** A numpy operation that fails does so with [ValueError]. *)
Definition np {A} (o : option A) : M A :=
  match o with
  | Some a => ret a
  | None => raise ValueError
  end.

(** An attribute that was never added. *)
Definition attr {A} (o : option A) : M A :=
  match o with
  | Some a => ret a
  | None => raise AttributeError
  end.

Declare Scope py_scope.
Delimit Scope py_scope with py.
Notation "x <- m ;; k" := (bind m (fun x => k))
  (at level 61, m at next level, right associativity) : py_scope.
Notation "m ;;; k" := (bind m (fun _ => k))
  (at level 61, right associativity) : py_scope.
Open Scope py_scope.

(* ------------------------------------------------------------------ *)
(** * scipy's linear interpolator *)
(* ------------------------------------------------------------------ *)

(** [scipy.interpolate.interp1d(x, y)] with its defaults: linear, and an
    error for a point outside the samples.  The library is not part of the
    repository; this is its documented behaviour on an increasing [x]
    (the library sorts [x] first, which is the identity there). *)
Module Interp.

Record Interpolator := mkInterpolator {
  xs : ndarray;
  ys : ndarray
}.

Definition interp1d (x y : ndarray) : option Interpolator :=
  if negb (Nat.eqb (length x) (length y)) then None
  else if Nat.eqb (length x) 0 then None
  else Some (mkInterpolator x y).

(** The value at one point: the segment is found with [searchsorted], the
    index clipped to [1 .. len-1]. *)
Definition linear (ip : Interpolator) (v : R) : R :=
  let hi := Nat.min (Nat.max (searchsorted (xs ip) v) 1) (length (xs ip) - 1) in
  let lo := (hi - 1)%nat in
  let x_lo := nth lo (xs ip) 0 in
  let x_hi := nth hi (xs ip) 0 in
  let y_lo := nth lo (ys ip) 0 in
  let y_hi := nth hi (ys ip) 0 in
  let slope := (y_hi - y_lo) / (x_hi - x_lo) in
  slope * (v - x_lo) + y_lo.

Definition in_bounds (ip : Interpolator) (v : R) : bool :=
  negb (Rltb v (hd 0 (xs ip))) && negb (Rltb (last (xs ip) 0) v).

(** Calling the interpolator on a number or on an array of points. *)
Definition call (ip : Interpolator) (v : PyNum) : option PyNum :=
  match v with
  | Scalar t =>
      if in_bounds ip t then Some (Scalar (linear ip t)) else None
  | Array a =>
      if forallb (in_bounds ip) a then Some (Array (map (linear ip) a))
      else None
  end.

End Interp.

(* ------------------------------------------------------------------ *)
(** * functions_alphaProfiles.py *)
(* ------------------------------------------------------------------ *)

(** [A * np.exp(-0.5 * ((r - r0)/sigma)**2)] *)
Definition Gaussian (r r0 A sigma : PyNum) : option PyNum :=
  match binop Rminus r r0 with
  | None => None
  | Some d =>
      match binop Rdiv d sigma with
      | None => None
      | Some q =>
          binop Rmult A
            (ufunc exp (ufunc (fun t => -0.5 * t) (ufunc (fun t => t ^ 2) q)))
      end
  end.

(** [a[i]] for [i] taken from [range(len(...))]. *)
Definition getitem (a : PyNum) (i : nat) : M R :=
  match a with
  | Scalar _ => raise TypeError
  | Array l =>
      match nth_error l i with
      | Some v => ret v
      | None => raise IndexError
      end
  end.

(** The body of [for i in range(len(r_bumps))], over the indices that are
    left. *)
Fixpoint bumps_loop (r : ndarray) (r_bumps : ndarray) (A_bumps sigma_bumps : PyNum)
    (range : list nat) (bump_profile : ndarray) : M ndarray :=
  match range with
  | [] => ret bump_profile
  | i :: rest =>
      r0 <- getitem (Array r_bumps) i ;;
      A <- getitem A_bumps i ;;
      sigma <- getitem sigma_bumps i ;;
      g <- np (Gaussian (Array r) (Scalar r0) (Scalar A) (Scalar sigma)) ;;
      bump_profile' <- np (inplace Rplus bump_profile g) ;;
      bumps_loop r r_bumps A_bumps sigma_bumps rest bump_profile'
  end.

Definition get_BumpProfile : M ndarray :=
  bumps <- bind (read gas_GaussianBumps) attr ;;
  let r_bumps := Location bumps in
  let A_bumps := Amplitude bumps in
  r <- read grid_r ;;
  Hp <- read gas_Hp ;;
  Hp_interpolator <- np (Interp.interp1d r Hp) ;;
  Hp_at <- np (Interp.call Hp_interpolator r_bumps) ;;
  wH <- np (binop Rmult (Width bumps) Hp_at) ;;
  let sigma_bumps := ufunc (fun t => t / (2 * sqrt (2 * ln 2))) wH in
  let bump_profile := ones_like r in
  bump_profile <-
    match r_bumps with
    | Scalar _ =>
        g <- np (Gaussian (Array r) r_bumps A_bumps sigma_bumps) ;;
        np (inplace Rplus bump_profile g)
    | Array l =>
        bumps_loop r l A_bumps sigma_bumps (seq 0 (length l)) bump_profile
    end ;;
  if String.eqb (Type_ bumps) "GAP" then ret bump_profile
  else if String.eqb (Type_ bumps) "BUMP" then
    ret (map (fun t => 1 / t) bump_profile)
  else
    print MsgProfileTypeNotDefined ;;;
    exit 0%Z.

Definition Alpha_Bump : M ndarray :=
  alpha_0 <- read ini_gas_alpha ;;
  bump_profile <- get_BumpProfile ;;
  let alpha := map (fun t => alpha_0 * t) bump_profile in
  ret alpha.

Definition Alpha_DeadZone : M ndarray :=
  dz <- bind (read gas_DeadZone) attr ;;
  let r_out := outer_radii dz in
  let w_out := transition_width dz in
  r <- read grid_r ;;
  let alpha_shape := ones_like r in
  let x := map (fun ri => ri - r_out) r in
  let neg := map (fun t => Rltb t 0) x in
  let alpha_shape :=
    put_mask alpha_shape neg
      (map (fun t => 0.5 * exp (t / w_out)) (select neg x)) in
  let pos := map (fun t => Rgeb t 0) x in
  let alpha_shape :=
    put_mask alpha_shape pos
      (map (fun t => 1.0 - 0.5 * exp ((- t) / w_out)) (select pos x)) in
  let alpha :=
    map (fun s => alpha_dead dz + (alpha_active dz - alpha_dead dz) * s)
        alpha_shape in
  ret alpha.

(* ------------------------------------------------------------------ *)
(** * setup_alphaProfiles.py *)
(* ------------------------------------------------------------------ *)

(** [field.update()] of the alpha field: the updater is called on the
    simulation and its result assigned into the field, whose shape is fixed.
    The engine's own updater is not part of the repository and is left out
    (the setup functions replace it before they call [update]). *)
Definition gas_alpha_update : M unit :=
  u <- read gas_alpha_updater ;;
  match u with
  | UpdEngine => ret tt
  | UpdAlphaBump =>
      v <- Alpha_Bump ;;
      old <- read gas_alpha ;;
      new <- np (assign old v) ;;
      modify (set_gas_alpha new)
  | UpdAlphaDeadZone =>
      v <- Alpha_DeadZone ;;
      old <- read gas_alpha ;;
      new <- np (assign old v) ;;
      modify (set_gas_alpha new)
  end.

(** [group.update()] of a parameter group whose updater is a list of field
    names: each field is updated in turn; the fields added by the setup
    functions carry no updater of their own, so nothing changes. *)
Definition group_update : M unit := ret tt.

Definition get_DiskMass : M R :=
  A <- read grid_A ;;
  Sigma <- read gas_Sigma ;;
  prod <- np (broadcast2 Rmult A Sigma) ;;
  ret (Np.sum prod).

(** [d *= b[:, None]] and [d /= b[:, None]] on a two-dimensional [d]: row [i]
    is combined with [b[i]]. *)
Definition inplace_rows (f : R -> R -> R) (d : list ndarray) (b : ndarray)
  : option (list ndarray) :=
  if Nat.eqb (length b) (length d) then
    Some (map (fun p => map (fun x => f x (snd p)) (fst p)) (combine d b))
  else match b with
       | [y] => Some (map (map (fun x => f x y)) d)
       | _ => None
       end.

Definition get_Alpha : M ndarray := read gas_alpha.

Definition assign_Delta_updaters : M unit :=
  modify (set_delta_updaters DeltaGetAlpha).

Definition rescale_Sigma_with_Alpha (alpha_0 : R) (correct_mass : bool) : M unit :=
  original_disk_mass <- get_DiskMass ;;
  alpha <- read gas_alpha ;;
  Sigma <- read gas_Sigma ;;
  Sigma' <- np (inplace Rmult Sigma (Array (map (fun a => alpha_0 / a) alpha))) ;;
  modify (set_gas_Sigma Sigma') ;;;
  alpha <- read gas_alpha ;;
  dSigma <- read dust_Sigma ;;
  dSigma' <- np (inplace_rows Rmult dSigma (map (fun a => alpha_0 / a) alpha)) ;;
  modify (set_dust_Sigma dSigma') ;;;
  scaled_disk_mass <- get_DiskMass ;;
  let mass_ratio := scaled_disk_mass / original_disk_mass in
  print MsgAlphaApplied ;;;
  if correct_mass then
    Sigma <- read gas_Sigma ;;
    modify (set_gas_Sigma (map (fun x => x / mass_ratio) Sigma)) ;;;
    dSigma <- read dust_Sigma ;;
    modify (set_dust_Sigma (map (map (fun x => x / mass_ratio)) dSigma)) ;;;
    print (MsgMassCorrected (1 / mass_ratio))
  else
    print (MsgMassModified mass_ratio).

Definition bumps_gas_updater : list string :=
  ["gamma"; "mu"; "T"; "cs"; "Hp"; "GaussianBumps"; "alpha"; "nu"; "rho";
   "n"; "mfp"; "P"; "eta"; "S"]%string.

Definition deadzone_gas_updater : list string :=
  ["gamma"; "mu"; "T"; "cs"; "Hp"; "DeadZone"; "alpha"; "nu"; "rho";
   "n"; "mfp"; "P"; "eta"; "S"]%string.

Definition setup_profile_bumps (Location Amplitude Width : PyNum)
    (GasBumpType : string)
    (apply_to_sigma correct_mass copy_alpha_to_delta : bool) : M unit :=
  modify (set_gas_GaussianBumps
            (Some (mkGaussianBumps Location Amplitude Width GasBumpType []))) ;;;
  modify (set_gas_GaussianBumps
            (Some (mkGaussianBumps Location Amplitude Width GasBumpType
                     ["Location"; "Amplitude"; "Width"]%string))) ;;;
  modify (set_gas_updater bumps_gas_updater) ;;;
  modify (set_gas_alpha_updater UpdAlphaBump) ;;;
  group_update ;;;
  gas_alpha_update ;;;
  (if apply_to_sigma then
     alpha_0 <- read ini_gas_alpha ;;
     rescale_Sigma_with_Alpha alpha_0 correct_mass
   else ret tt) ;;;
  (* [assign_delta_updaters] is not a name the module defines *)
  (if copy_alpha_to_delta then raise NameError else ret tt) ;;;
  modify request_update.

Definition setup_profile_deadzone (alpha_active alpha_dead r_dz_outer width_dz_outer : R)
    (apply_to_sigma correct_mass copy_alpha_to_delta : bool) : M unit :=
  modify (set_gas_DeadZone
            (Some (mkDeadZone alpha_active alpha_dead r_dz_outer width_dz_outer []))) ;;;
  modify (set_gas_DeadZone
            (Some (mkDeadZone alpha_active alpha_dead r_dz_outer width_dz_outer
                     ["alpha_active"; "alpha_dead"; "outer_radii";
                      "transition_width"]%string))) ;;;
  modify (set_gas_updater deadzone_gas_updater) ;;;
  modify (set_gas_alpha_updater UpdAlphaDeadZone) ;;;
  group_update ;;;
  gas_alpha_update ;;;
  (if apply_to_sigma then rescale_Sigma_with_Alpha alpha_active correct_mass
   else ret tt) ;;;
  (if copy_alpha_to_delta then assign_Delta_updaters else ret tt) ;;;
  modify request_update.

(** The position of a step in the update list. *)
Fixpoint index_of (name : string) (l : list string) : option nat :=
  match l with
  | [] => None
  | x :: t =>
      if String.eqb x name then Some 0%nat
      else option_map S (index_of name t)
  end.

(* ------------------------------------------------------------------ *)
(** * Definitions used by the statements *)
(* ------------------------------------------------------------------ *)

(** The transition shape in the words of the specification: for x < 0 it is
    0.5 * exp(x / w), for x >= 0 it is 1.0 - 0.5 * exp(-x / w). *)
Definition shape_spec (w x : R) : R :=
  if Rlt_dec x 0 then 0.5 * exp (x / w) else 1.0 - 0.5 * exp ((- x) / w).

(** A strictly increasing array, as the radial grid is. *)
Fixpoint increasing (x : ndarray) : Prop :=
  match x with
  | a :: t =>
      match t with
      | b :: _ => a < b /\ increasing t
      | [] => True
      end
  | [] => True
  end.

(** The deviation of a bump from its width in scale heights: the width is
    the full width at half maximum, in units of the interpolated scale
    height at the centre. *)
Definition fwhm_sigma (Hp_interp : R -> R) (width r0 : R) : R :=
  width * Hp_interp r0 / (2 * sqrt (2 * ln 2)).

(** Sum of the kernels at one radius, given the deviations. *)
Fixpoint gauss_sum (x : R) (locs amps sigmas : list R) : R :=
  match locs, amps, sigmas with
  | r0 :: locs', A :: amps', s :: sigmas' =>
      A * exp (-0.5 * ((x - r0) / s) ^ 2) + gauss_sum x locs' amps' sigmas'
  | _, _, _ => 0
  end.

(** Sum_i A_i * exp(-0.5*((x - r0_i)/sigma_i)^2) with sigma_i taken from the
    width of bump i, in the words of the specification. *)
Fixpoint bump_sum (Hp_interp : R -> R) (x : R) (locs amps widths : list R) : R :=
  match locs, amps, widths with
  | r0 :: locs', A :: amps', w :: widths' =>
      A * exp (-0.5 * ((x - r0) / fwhm_sigma Hp_interp w r0) ^ 2)
      + bump_sum Hp_interp x locs' amps' widths'
  | _, _, _ => 0
  end.

(** The scale height interpolated over the grid of a simulation. *)
Definition Hp_interp (sim : Sim) : R -> R :=
  Interp.linear (Interp.mkInterpolator (grid_r sim) (gas_Hp sim)).

(** The factor array of the specification: F[j] = 1 + Sum_i (bump i at r[j]). *)
Definition factor_spec (sim : Sim) (locs amps widths : list R) : ndarray :=
  map (fun rj => 1 + bump_sum (Hp_interp sim) rj locs amps widths) (grid_r sim).

(** The bumps of a well-formed parameter group: three plain numbers stand
    for one bump, three arrays of one length for as many bumps. *)
Definition bump_lists (b : GaussianBumps) : option (list R * list R * list R) :=
  match Location b, Amplitude b, Width b with
  | Scalar l, Scalar a, Scalar w => Some ([l], [a], [w])
  | Array l, Array a, Array w =>
      if Nat.eqb (length a) (length l) && Nat.eqb (length w) (length l)
      then Some (l, a, w) else None
  | _, _, _ => None
  end.

(** A point inside the range of the grid. *)
Definition in_range (x : ndarray) (v : R) : Prop := hd 0 x <= v <= last x 0.

(** The last step of the bump builder, on the factor array. *)
Definition bump_result (ty : string) (F : ndarray) : M ndarray :=
  if String.eqb ty "GAP" then ret F
  else if String.eqb ty "BUMP" then ret (map (fun t => 1 / t) F)
  else print MsgProfileTypeNotDefined ;;; exit 0%Z.

(** An outcome that is an exception the caller can handle. *)
Definition raises_exception {A} (o : Outcome A) : bool :=
  match o with
  | Raise _ => true
  | _ => false
  end.

(** The sum of the negative parts of the amplitudes. *)
Fixpoint neg_part_sum (amps : list R) : R :=
  match amps with
  | [] => 0
  | A :: amps' => Rmin A 0 + neg_part_sum amps'
  end.

(** A five-cell disk used to instantiate the statements. *)
Definition example_sim : Sim :=
  mkSim [1; 2; 3; 4; 5] [1; 1; 1; 1; 1] 1e-3
        [0.1; 0.1; 0.1; 0.1; 0.1]
        [1e-3; 1e-3; 1e-3; 1e-3; 1e-3] UpdEngine
        [10; 10; 10; 10; 10] [] None None
        [[1; 2]; [1; 2]; [1; 2]; [1; 2]; [1; 2]]
        DeltaEngine DeltaEngine DeltaEngine [] 0.

Definition example_deadzone : DeadZone :=
  mkDeadZone 1e-3 1e-4 3 1 [].

(** A computation that leaves the list of update steps as it found it,
    whatever its outcome. *)
Definition keeps_updater {A} (m : M A) : Prop :=
  forall s, gas_updater (snd (m s)) = gas_updater s.

(** The example disk with a bump group of an unknown kind. *)
Definition unknown_kind_sim : Sim :=
  set_gas_GaussianBumps
    (Some (mkGaussianBumps (Scalar 3) (Scalar 4) (Scalar 1) "RING" []))
    example_sim.

(** The example disk with two gaps of amplitude -1 at one location. *)
Definition double_gap_sim : Sim :=
  set_gas_GaussianBumps
    (Some (mkGaussianBumps (Array [2; 2]) (Array [-1; -1]) (Array [1; 1])
             "GAP" []))
    example_sim.

(** The example disk with the gap of the run script, scaled to the grid. *)
Definition single_gap_sim : Sim :=
  set_gas_GaussianBumps
    (Some (mkGaussianBumps (Scalar 3) (Scalar 4) (Scalar 1) "GAP" []))
    example_sim.

(* ------------------------------------------------------------------ *)
(** * Definitions used by the further properties *)
(* ------------------------------------------------------------------ *)

(** A computation that only reads the simulation. *)
Definition reads_only {A} (m : M A) : Prop :=
  forall s, snd (m s) = s.

(** A computation that only reads the simulation, or ends the process with
    [exit(0)] after one line of output. *)
Definition reads_or_exits {A} (m : M A) : Prop :=
  forall s,
    snd (m s) = s
    \/ (fst (m s) = SysExit 0
        /\ snd (m s) = add_stdout MsgProfileTypeNotDefined s).

(** A computation whose array, when it returns one, has [n] entries. *)
Definition returns_length (n : nat) (m : M ndarray) : Prop :=
  forall s F, fst (m s) = Ok F -> length F = n.

(** A computation that leaves a part of the simulation as it found it,
    whatever its outcome. *)
Definition keeps {A X} (part : Sim -> X) (m : M A) : Prop :=
  forall s, part (snd (m s)) = part s.

(** A computation that never ends normally. *)
Definition never_ok {A} (m : M A) : Prop :=
  forall s a, fst (m s) <> Ok a.

(** The bumps a location field stands for. *)
Definition location_list (v : PyNum) : list R :=
  match v with
  | Scalar x => [x]
  | Array a => a
  end.

(** The sum of the positive parts of the amplitudes. *)
Fixpoint pos_part_sum (amps : list R) : R :=
  match amps with
  | [] => 0
  | A :: amps' => Rmax A 0 + pos_part_sum amps'
  end.

(** sum(area * Sigma) *)
Definition mass (A Sigma : ndarray) : R := Np.sum (map2 Rmult A Sigma).

(** The densities after the inverse-alpha scaling, before any correction of
    the mass. *)
Definition scaled_Sigma (alpha_0 : R) (sim : Sim) : ndarray :=
  map2 Rmult (gas_Sigma sim) (map (fun a => alpha_0 / a) (gas_alpha sim)).

Definition scaled_dust (alpha_0 : R) (sim : Sim) : list ndarray :=
  map (fun p => map (fun x => x * snd p) (fst p))
    (combine (dust_Sigma sim) (map (fun a => alpha_0 / a) (gas_alpha sim))).

(** scaled_disk_mass / original_disk_mass *)
Definition mass_ratio (alpha_0 : R) (sim : Sim) : R :=
  mass (grid_A sim) (scaled_Sigma alpha_0 sim)
  / mass (grid_A sim) (gas_Sigma sim).

(** Two simulations that differ at most in the densities and the output. *)
Definition same_but_Sigma (s s' : Sim) : Prop :=
  grid_r s' = grid_r s /\ grid_A s' = grid_A s
  /\ ini_gas_alpha s' = ini_gas_alpha s /\ gas_Hp s' = gas_Hp s
  /\ gas_alpha s' = gas_alpha s
  /\ gas_alpha_updater s' = gas_alpha_updater s
  /\ gas_updater s' = gas_updater s
  /\ gas_GaussianBumps s' = gas_GaussianBumps s
  /\ gas_DeadZone s' = gas_DeadZone s
  /\ dust_delta_rad_updater s' = dust_delta_rad_updater s
  /\ dust_delta_turb_updater s' = dust_delta_turb_updater s
  /\ dust_delta_vert_updater s' = dust_delta_vert_updater s
  /\ updates_requested s' = updates_requested s.

(** What a setup function does after it has put the new profile into alpha:
    the optional rescale, the optional copy to the dust, the engine's
    update. *)
Definition setup_tail (rescale copy : M unit)
    (apply_to_sigma copy_alpha_to_delta : bool) : M unit :=
  (if apply_to_sigma then rescale else ret tt) ;;;
  (if copy_alpha_to_delta then copy else ret tt) ;;;
  modify request_update.

(** The simulation once a setup function has registered its group and its
    updaters and has put the profile into alpha. *)
Definition registered_bumps (Location Amplitude Width : PyNum) (ty : string)
    (alpha : ndarray) (sim : Sim) : Sim :=
  set_gas_alpha alpha
    (set_gas_alpha_updater UpdAlphaBump
       (set_gas_updater bumps_gas_updater
          (set_gas_GaussianBumps
             (Some (mkGaussianBumps Location Amplitude Width ty
                      ["Location"; "Amplitude"; "Width"]%string))
             sim))).

Definition registered_deadzone (aa ad ro w : R) (alpha : ndarray) (sim : Sim)
  : Sim :=
  set_gas_alpha alpha
    (set_gas_alpha_updater UpdAlphaDeadZone
       (set_gas_updater deadzone_gas_updater
          (set_gas_DeadZone
             (Some (mkDeadZone aa ad ro w
                      ["alpha_active"; "alpha_dead"; "outer_radii";
                       "transition_width"]%string))
             sim))).

(** The dead-zone profile over a grid, entry by entry. *)
Definition deadzone_profile (aa ad ro w : R) (r : ndarray) : ndarray :=
  map (fun s => ad + (aa - ad) * s) (map (fun ri => shape_spec w (ri - ro)) r).

(** Reduces the projections and setters of the simulation record. *)
Ltac sim_fields :=
  cbn [grid_r grid_A ini_gas_alpha gas_Hp gas_alpha gas_alpha_updater
       gas_Sigma gas_updater gas_GaussianBumps gas_DeadZone dust_Sigma
       dust_delta_rad_updater dust_delta_turb_updater dust_delta_vert_updater
       stdout updates_requested
       set_gas_alpha set_gas_alpha_updater set_gas_Sigma set_gas_updater
       set_gas_GaussianBumps set_gas_DeadZone set_dust_Sigma
       set_delta_updaters add_stdout request_update].

(* ------------------------------------------------------------------ *)
(** * Facts about lists and arrays *)
(* ------------------------------------------------------------------ *)

Section Arrays.

Lemma nth_map_lt {A B} (f : A -> B) (l : list A) (i : nat) (d : B) (d' : A) :
  (i < length l)%nat -> nth i (map f l) d = f (nth i l d').
Proof.
  revert i. induction l as [|a l IH]; intros [|i] H; simpl in *; try lia.
  - reflexivity.
  - apply IH. lia.
Qed.

End Arrays.

(* ------------------------------------------------------------------ *)
(** * Facts about the exponential kernel *)
(* ------------------------------------------------------------------ *)

Section Kernel.

Lemma exp_le_1 (x : R) : x <= 0 -> exp x <= 1.
Proof.
  intros [Hlt | Heq].
  - left. rewrite <- exp_0. now apply exp_increasing.
  - subst. rewrite exp_0. lra.
Qed.

Lemma exp_lt_1 (x : R) : x < 0 -> exp x < 1.
Proof. intros H. rewrite <- exp_0. now apply exp_increasing. Qed.

Lemma exp_eq_1 (x : R) : exp x = 1 -> x = 0.
Proof. intros H. apply exp_inv. now rewrite exp_0. Qed.

Lemma half_square_nonpos (q : R) : -0.5 * q ^ 2 <= 0.
Proof. assert (0 <= q ^ 2) by (simpl; nra). lra. Qed.

Lemma half_square_neg (q : R) : q <> 0 -> -0.5 * q ^ 2 < 0.
Proof. intros H. assert (0 < q ^ 2) by (simpl; nra). lra. Qed.

Lemma quotient_zero (d sigma : R) : sigma <> 0 -> d / sigma = 0 -> d = 0.
Proof.
  intros Hs H. unfold Rdiv in H.
  apply Rmult_integral in H. destruct H as [H | H]; [exact H|].
  exfalso. now apply (Rinv_neq_0_compat sigma).
Qed.

(** The bell [exp(-q²/2)] lies in (0, 1]. *)
Lemma bell_range (q : R) : 0 < exp (-0.5 * q ^ 2) <= 1.
Proof. split; [apply exp_pos | apply exp_le_1, half_square_nonpos]. Qed.

(** It is 1 only at the centre. *)
Lemma bell_one_centre (d sigma : R) :
  sigma <> 0 -> exp (-0.5 * (d / sigma) ^ 2) = 1 -> d = 0.
Proof.
  intros Hs H. apply exp_eq_1 in H.
  apply (quotient_zero d sigma Hs).
  destruct (Req_dec (d / sigma) 0) as [E | N]; [exact E|].
  pose proof (half_square_neg _ N). lra.
Qed.

Lemma bell_centre (sigma : R) : exp (-0.5 * (0 / sigma) ^ 2) = 1.
Proof.
  replace (-0.5 * (0 / sigma) ^ 2) with 0; [apply exp_0|].
  unfold Rdiv. simpl. ring.
Qed.

End Kernel.

(** The kernel on an array with plain numbers for centre, amplitude and
    deviation is the closed form, entry by entry. *)
Lemma Gaussian_array (r : ndarray) (r0 A sigma : R) :
  Gaussian (Array r) (Scalar r0) (Scalar A) (Scalar sigma)
  = Some (Array (map (fun ri => A * exp (-0.5 * ((ri - r0) / sigma) ^ 2)) r)).
Proof.
  unfold Gaussian. cbn [binop ufunc]. rewrite !map_map. reflexivity.
Qed.

Lemma Gaussian_scalar (r r0 A sigma : R) :
  Gaussian (Scalar r) (Scalar r0) (Scalar A) (Scalar sigma)
  = Some (Scalar (A * exp (-0.5 * ((r - r0) / sigma) ^ 2))).
Proof. reflexivity. Qed.

(* ------------------------------------------------------------------ *)
(** * The Gaussian kernel *)
(* ------------------------------------------------------------------ *)

(** C8, as stated, fails for a negative amplitude: with centre 0, amplitude
    -1 and deviation 1 the kernel at radius 1 is above the amplitude, so the
    amplitude is not the maximum. *)
Lemma Gaussian_max_counterexample :
  Gaussian (Array [0; 1]) (Scalar 0) (Scalar (-1)) (Scalar 1)
  = Some (Array [-1 * exp (-0.5 * ((0 - 0) / 1) ^ 2);
                 -1 * exp (-0.5 * ((1 - 0) / 1) ^ 2)])
  /\ -1 < -1 * exp (-0.5 * ((1 - 0) / 1) ^ 2).
Proof.
  split; [apply Gaussian_array|].
  assert (H : exp (-0.5 * ((1 - 0) / 1) ^ 2) < 1).
  { apply exp_lt_1. apply half_square_neg. unfold Rdiv. rewrite Rinv_1. lra. }
  lra.
Qed.

(** C8 (amended): for every deviation sigma > 0, amplitude A, centre r0 and
    radius array r, the kernel returns the array of
    A * exp(-0.5*((r[i]-r0)/sigma)^2); every entry lies between 0 and A
    (in absolute value at most |A|); for A > 0 the value A is the maximum
    and is attained exactly at r[i] = r0, for A < 0 it is the minimum,
    attained exactly there; and the kernel is symmetric about r0. *)
Theorem Gaussian_kernel_properties (sigma A r0 : R) (r : ndarray) :
  0 < sigma ->
  exists g,
    Gaussian (Array r) (Scalar r0) (Scalar A) (Scalar sigma) = Some (Array g)
    /\ length g = length r
    /\ (forall i, (i < length r)%nat ->
          nth i g 0 = A * exp (-0.5 * ((nth i r 0 - r0) / sigma) ^ 2))
    /\ (forall i, (i < length r)%nat -> Rabs (nth i g 0) <= Rabs A)
    /\ (0 < A -> forall i, (i < length r)%nat ->
          nth i g 0 <= A /\ (nth i g 0 = A <-> nth i r 0 = r0))
    /\ (A < 0 -> forall i, (i < length r)%nat ->
          A <= nth i g 0 /\ (nth i g 0 = A <-> nth i r 0 = r0))
    /\ (forall d,
          Gaussian (Scalar (r0 + d)) (Scalar r0) (Scalar A) (Scalar sigma)
          = Gaussian (Scalar (r0 - d)) (Scalar r0) (Scalar A) (Scalar sigma))
    /\ (forall ds,
          Gaussian (Array (map (fun d => r0 + d) ds)) (Scalar r0) (Scalar A) (Scalar sigma)
          = Gaussian (Array (map (fun d => r0 - d) ds)) (Scalar r0) (Scalar A) (Scalar sigma)).
Proof.
  intros Hs.
  assert (Hs0 : sigma <> 0) by lra.
  assert (Hnth : forall i, (i < length r)%nat ->
     nth i (map (fun ri => A * exp (-0.5 * ((ri - r0) / sigma) ^ 2)) r) 0
     = A * exp (-0.5 * ((nth i r 0 - r0) / sigma) ^ 2)).
  { intros i Hi.
    exact (nth_map_lt (fun ri => A * exp (-0.5 * ((ri - r0) / sigma) ^ 2))
             r i 0 0 Hi). }
  assert (Hsym : forall d,
     A * exp (-0.5 * ((r0 + d - r0) / sigma) ^ 2)
     = A * exp (-0.5 * ((r0 - d - r0) / sigma) ^ 2)).
  { intros d. f_equal. f_equal. unfold Rdiv. simpl. ring. }
  eexists. split; [apply Gaussian_array|].
  split; [apply length_map|].
  split; [exact Hnth|].
  split; [|split; [|split; [|split]]].
  - intros i Hi. rewrite (Hnth i Hi).
    destruct (bell_range ((nth i r 0 - r0) / sigma)) as [Hp H1].
    rewrite Rabs_mult, (Rabs_pos_eq (exp _)) by lra.
    pose proof (Rabs_pos A). nra.
  - intros HA i Hi. rewrite (Hnth i Hi).
    destruct (bell_range ((nth i r 0 - r0) / sigma)) as [Hp H1].
    split; [nra|]. split.
    + intros E.
      assert (E1 : exp (-0.5 * ((nth i r 0 - r0) / sigma) ^ 2) = 1) by nra.
      apply (bell_one_centre _ _ Hs0) in E1. lra.
    + intros E. rewrite E. replace (r0 - r0) with 0 by ring.
      rewrite bell_centre. ring.
  - intros HA i Hi. rewrite (Hnth i Hi).
    destruct (bell_range ((nth i r 0 - r0) / sigma)) as [Hp H1].
    split; [nra|]. split.
    + intros E.
      assert (E1 : exp (-0.5 * ((nth i r 0 - r0) / sigma) ^ 2) = 1) by nra.
      apply (bell_one_centre _ _ Hs0) in E1. lra.
    + intros E. rewrite E. replace (r0 - r0) with 0 by ring.
      rewrite bell_centre. ring.
  - intros d. rewrite !Gaussian_scalar. now rewrite Hsym.
  - intros ds. rewrite !Gaussian_array. rewrite !map_map.
    do 2 f_equal. apply map_ext. intros d. apply Hsym.
Qed.

Lemma Gaussian_kernel_properties_witness :
  0 < 2 /\
  exists g,
    Gaussian (Array [1; 3; 5]) (Scalar 3) (Scalar 4) (Scalar 2) = Some (Array g)
    /\ length g = 3%nat.
Proof.
  split; [lra|].
  destruct (Gaussian_kernel_properties 2 4 3 [1; 3; 5]) as [g [Hg [Hl _]]];
    [lra|].
  exists g. split; [exact Hg | exact Hl].
Defined.

(* ------------------------------------------------------------------ *)
(** * The dead-zone profile *)
(* ------------------------------------------------------------------ *)

Section DeadZoneShape.

(** The two masked assignments of the builder, one for [x < 0] and one for
    [x >= 0], fill every cell of the array, each from its own branch. *)
Lemma masked_branches (f g : R -> R) (x a : ndarray) :
  length a = length x ->
  put_mask
    (put_mask a (map (fun t => Rltb t 0) x)
       (map f (select (map (fun t => Rltb t 0) x) x)))
    (map (fun t => Rgeb t 0) x)
    (map g (select (map (fun t => Rgeb t 0) x) x))
  = map (fun t => if Rlt_dec t 0 then f t else g t) x.
Proof.
  revert a. induction x as [|t x IH]; intros [|a0 a] Hlen;
    simpl in Hlen; try discriminate; [reflexivity|].
  injection Hlen as Hlen.
  cbn [map select]. unfold Rltb at 1 3, Rgeb at 1 3.
  destruct (Rlt_dec t 0) as [Hn | Hn]; destruct (Rge_dec t 0) as [Hp | Hp];
    try lra; cbn [map select put_mask]; f_equal; apply IH; exact Hlen.
Qed.

Lemma shape_spec_neg (w x : R) : x < 0 -> shape_spec w x = 0.5 * exp (x / w).
Proof. intros H. unfold shape_spec. destruct (Rlt_dec x 0); [reflexivity | lra]. Qed.

Lemma shape_spec_pos (w x : R) :
  x >= 0 -> shape_spec w x = 1.0 - 0.5 * exp ((- x) / w).
Proof. intros H. unfold shape_spec. destruct (Rlt_dec x 0); [lra | reflexivity]. Qed.

Lemma shape_spec_0 (w : R) : shape_spec w 0 = 0.5.
Proof.
  rewrite shape_spec_pos by lra.
  replace (- 0 / w) with 0 by (unfold Rdiv; ring). rewrite exp_0. lra.
Qed.

Lemma branch_neg_at_0 (w : R) : 0.5 * exp (0 / w) = 0.5.
Proof. replace (0 / w) with 0 by (unfold Rdiv; ring). rewrite exp_0. lra. Qed.

Lemma continuity_pt_piecewise (g h : R -> R) :
  continuity_pt g 0 -> continuity_pt h 0 -> g 0 = h 0 ->
  continuity_pt (fun x => if Rlt_dec x 0 then g x else h x) 0.
Proof.
  intros Hg Hh E eps He.
  destruct (Hg eps He) as [a1 [Ha1 H1]].
  destruct (Hh eps He) as [a2 [Ha2 H2]].
  exists (Rmin a1 a2). split; [apply Rmin_case; assumption|].
  intros x [Hd Hx].
  destruct (Rlt_dec 0 0) as [F|_]; [lra|].
  destruct (Rlt_dec x 0) as [Hn|Hn].
  - rewrite <- E. apply H1. split; [exact Hd|].
    eapply Rlt_le_trans; [exact Hx | apply Rmin_l].
  - apply H2. split; [exact Hd|].
    eapply Rlt_le_trans; [exact Hx | apply Rmin_r].
Qed.

Lemma shape_spec_continuous_0 (w : R) : continuity_pt (shape_spec w) 0.
Proof.
  unfold shape_spec.
  apply (continuity_pt_piecewise (fun x => 0.5 * exp (x / w))
           (fun x => 1.0 - 0.5 * exp ((- x) / w))).
  - reg.
  - reg.
  - rewrite branch_neg_at_0.
    replace (- 0 / w) with 0 by (unfold Rdiv; ring). rewrite exp_0. lra.
Qed.

(** For a positive width the shape stays strictly inside (0, 1). *)
Lemma shape_spec_range (w x : R) : 0 < w -> 0 < shape_spec w x < 1.
Proof.
  intros Hw. unfold shape_spec.
  destruct (Rlt_dec x 0) as [Hn | Hn].
  - assert (Hq : x / w < 0).
    { unfold Rdiv. pose proof (Rinv_0_lt_compat w Hw). nra. }
    pose proof (exp_pos (x / w)). pose proof (exp_lt_1 _ Hq). lra.
  - assert (Hq : - x / w <= 0).
    { unfold Rdiv. pose proof (Rinv_0_lt_compat w Hw). nra. }
    pose proof (exp_pos (- x / w)). pose proof (exp_le_1 _ Hq). lra.
Qed.

End DeadZoneShape.

(** The builder computes, cell by cell, the plateau mix of the shape. *)
Lemma Alpha_DeadZone_eq (sim : Sim) (dz : DeadZone) :
  gas_DeadZone sim = Some dz ->
  Alpha_DeadZone sim
  = (Ok (map (fun s => alpha_dead dz + (alpha_active dz - alpha_dead dz) * s)
           (map (fun ri => shape_spec (transition_width dz) (ri - outer_radii dz))
              (grid_r sim))),
     sim).
Proof.
  intros H. unfold Alpha_DeadZone, bind, read, attr. rewrite H.
  unfold ret. do 3 f_equal.
  rewrite masked_branches.
  - rewrite map_map. reflexivity.
  - unfold ones_like. now rewrite !length_map.
Qed.

(** C2: for every radial grid and dead-zone parameters with a positive
    transition width, the dead-zone builder returns
    alpha[i] = alpha_dead + (alpha_active - alpha_dead) * shape[i] with
    shape[i] = 0.5 * exp(x/w) where x = r[i] - outer_radius < 0 and
    shape[i] = 1.0 - 0.5 * exp(-x/w) where x >= 0; both branches give
    exactly 0.5 at x = 0 and the shape is continuous there. *)
Theorem Alpha_DeadZone_formula (sim : Sim) (dz : DeadZone) :
  gas_DeadZone sim = Some dz ->
  0 < transition_width dz ->
  exists alpha shape,
    Alpha_DeadZone sim = (Ok alpha, sim)
    /\ length alpha = length (grid_r sim)
    /\ length shape = length (grid_r sim)
    /\ (forall i, (i < length (grid_r sim))%nat ->
          let x := nth i (grid_r sim) 0 - outer_radii dz in
          nth i alpha 0
          = alpha_dead dz + (alpha_active dz - alpha_dead dz) * nth i shape 0
          /\ (x < 0 -> nth i shape 0 = 0.5 * exp (x / transition_width dz))
          /\ (x >= 0 ->
              nth i shape 0 = 1.0 - 0.5 * exp ((- x) / transition_width dz))
          /\ (x = 0 -> nth i shape 0 = 0.5))
    /\ 0.5 * exp (0 / transition_width dz) = 0.5
    /\ 1.0 - 0.5 * exp ((- 0) / transition_width dz) = 0.5
    /\ continuity_pt (shape_spec (transition_width dz)) 0.
Proof.
  intros Hdz Hw.
  set (w := transition_width dz). set (r_out := outer_radii dz).
  exists (map (fun s => alpha_dead dz + (alpha_active dz - alpha_dead dz) * s)
            (map (fun ri => shape_spec w (ri - r_out)) (grid_r sim))).
  exists (map (fun ri => shape_spec w (ri - r_out)) (grid_r sim)).
  split; [now apply Alpha_DeadZone_eq|].
  split; [now rewrite !length_map|].
  split; [now rewrite length_map|].
  split; [|split; [apply branch_neg_at_0|split]].
  - intros i Hi x.
    assert (Hs : nth i (map (fun ri => shape_spec w (ri - r_out)) (grid_r sim)) 0
                 = shape_spec w x).
    { exact (nth_map_lt (fun ri => shape_spec w (ri - r_out)) (grid_r sim) i 0 0 Hi). }
    split.
    + apply (nth_map_lt
               (fun s => alpha_dead dz + (alpha_active dz - alpha_dead dz) * s)).
      now rewrite length_map.
    + rewrite Hs. split; [apply shape_spec_neg|split; [apply shape_spec_pos|]].
      intros E. rewrite E. apply shape_spec_0.
  - pose proof (shape_spec_0 w) as H0. rewrite shape_spec_pos in H0 by lra.
    exact H0.
  - apply shape_spec_continuous_0.
Qed.

Lemma Alpha_DeadZone_formula_witness :
  exists alpha,
    Alpha_DeadZone (set_gas_DeadZone (Some example_deadzone) example_sim)
    = (Ok alpha, set_gas_DeadZone (Some example_deadzone) example_sim)
    /\ length alpha = 5%nat.
Proof.
  destruct (Alpha_DeadZone_formula
              (set_gas_DeadZone (Some example_deadzone) example_sim)
              example_deadzone) as [alpha [shape [H [Hl _]]]].
  - reflexivity.
  - simpl. lra.
  - exists alpha. split; [exact H | exact Hl].
Defined.

(** C10: for every radial grid and dead-zone parameters with a positive
    transition width and two different plateau values, the shape is strictly
    inside (0, 1) in every cell and every entry of the profile lies strictly
    between alpha_dead and alpha_active; with both plateaus positive the
    profile is positive everywhere. *)
Theorem Alpha_DeadZone_strictly_between (sim : Sim) (dz : DeadZone) :
  gas_DeadZone sim = Some dz ->
  0 < transition_width dz ->
  alpha_active dz <> alpha_dead dz ->
  exists alpha shape,
    Alpha_DeadZone sim = (Ok alpha, sim)
    /\ length alpha = length (grid_r sim)
    /\ length shape = length (grid_r sim)
    /\ (forall i, (i < length (grid_r sim))%nat ->
          nth i alpha 0
          = alpha_dead dz + (alpha_active dz - alpha_dead dz) * nth i shape 0
          /\ 0 < nth i shape 0 < 1
          /\ Rmin (alpha_dead dz) (alpha_active dz) < nth i alpha 0
             < Rmax (alpha_dead dz) (alpha_active dz)
          /\ (0 < alpha_dead dz -> 0 < alpha_active dz -> 0 < nth i alpha 0)).
Proof.
  intros Hdz Hw Hne.
  set (w := transition_width dz) in *. set (r_out := outer_radii dz).
  exists (map (fun s => alpha_dead dz + (alpha_active dz - alpha_dead dz) * s)
            (map (fun ri => shape_spec w (ri - r_out)) (grid_r sim))).
  exists (map (fun ri => shape_spec w (ri - r_out)) (grid_r sim)).
  split; [now apply Alpha_DeadZone_eq|].
  split; [now rewrite !length_map|].
  split; [now rewrite length_map|].
  intros i Hi.
  assert (Hs : nth i (map (fun ri => shape_spec w (ri - r_out)) (grid_r sim)) 0
               = shape_spec w (nth i (grid_r sim) 0 - r_out)).
  { exact (nth_map_lt (fun ri => shape_spec w (ri - r_out)) (grid_r sim) i 0 0 Hi). }
  assert (Ha : nth i (map (fun s => alpha_dead dz + (alpha_active dz - alpha_dead dz) * s)
                        (map (fun ri => shape_spec w (ri - r_out)) (grid_r sim))) 0
               = alpha_dead dz + (alpha_active dz - alpha_dead dz)
                   * shape_spec w (nth i (grid_r sim) 0 - r_out)).
  { rewrite <- Hs.
    apply (nth_map_lt
             (fun s => alpha_dead dz + (alpha_active dz - alpha_dead dz) * s)).
    now rewrite length_map. }
  rewrite Ha, Hs.
  pose proof (shape_spec_range w (nth i (grid_r sim) 0 - r_out) Hw) as [H0 H1].
  split; [reflexivity|]. split; [split; assumption|].
  split.
  - unfold Rmin, Rmax.
    destruct (Rle_dec (alpha_dead dz) (alpha_active dz)); split; nra.
  - intros Hd Ha'. nra.
Qed.

Lemma Alpha_DeadZone_strictly_between_witness :
  exists alpha,
    Alpha_DeadZone (set_gas_DeadZone (Some example_deadzone) example_sim)
    = (Ok alpha, set_gas_DeadZone (Some example_deadzone) example_sim)
    /\ 1e-4 < nth 0 alpha 0 < 1e-3.
Proof.
  destruct (Alpha_DeadZone_strictly_between
              (set_gas_DeadZone (Some example_deadzone) example_sim)
              example_deadzone) as [alpha [shape [H [Hl [Hs Hall]]]]].
  - reflexivity.
  - simpl. lra.
  - simpl. lra.
  - exists alpha. split; [exact H|].
    destruct (Hall 0%nat) as [_ [_ [Hb _]]]; [simpl; lia|].
    simpl in Hb. unfold Rmin, Rmax in Hb.
    destruct (Rle_dec 1e-4 1e-3); lra.
Defined.

(* ------------------------------------------------------------------ *)
(** * The mass-conserving rescale *)
(* ------------------------------------------------------------------ *)

Section Broadcast.

Lemma broadcast2_aligned (f : R -> R -> R) (a b : ndarray) :
  length a = length b -> broadcast2 f a b = Some (map2 f a b).
Proof. intros H. unfold broadcast2. now rewrite H, Nat.eqb_refl. Qed.

Lemma inplace_aligned (f : R -> R -> R) (a b : ndarray) :
  length b = length a -> inplace f a (Array b) = Some (map2 f a b).
Proof. intros H. unfold inplace. now rewrite H, Nat.eqb_refl. Qed.

Lemma inplace_rows_aligned (f : R -> R -> R) (d : list ndarray) (b : ndarray) :
  length b = length d ->
  inplace_rows f d b
  = Some (map (fun p => map (fun x => f x (snd p)) (fst p)) (combine d b)).
Proof. intros H. unfold inplace_rows. now rewrite H, Nat.eqb_refl. Qed.

Lemma length_map2 (f : R -> R -> R) (a b : ndarray) :
  length a = length b -> length (map2 f a b) = length a.
Proof.
  revert b. induction a as [|x a IH]; intros [|y b] H; simpl in *;
    try discriminate; [reflexivity|]. f_equal. apply IH. lia.
Qed.

Lemma nth_map2 (f : R -> R -> R) (a b : ndarray) (i : nat) :
  length a = length b -> (i < length a)%nat ->
  nth i (map2 f a b) 0 = f (nth i a 0) (nth i b 0).
Proof.
  revert b i. induction a as [|x a IH]; intros [|y b] [|i] H Hi; simpl in *;
    try discriminate; try lia; [reflexivity|]. apply IH; lia.
Qed.

End Broadcast.

Section Mass.

(** Dividing the densities by a constant divides the mass by it. *)
Lemma sum_scaled (c : R) (A S : ndarray) :
  Np.sum (map2 Rmult A (map (fun x => x / c) S))
  = Np.sum (map2 Rmult A S) / c.
Proof.
  revert S. induction A as [|a A IH]; intros [|s S]; simpl;
    try (unfold Rdiv; ring).
  rewrite IH. unfold Rdiv. ring.
Qed.

(** Positive areas and positive densities on at least one cell weigh a
    positive mass. *)
Lemma sum_positive (A S : ndarray) :
  length A = length S -> A <> [] ->
  Forall (fun x => 0 < x) A -> Forall (fun x => 0 < x) S ->
  0 < Np.sum (map2 Rmult A S).
Proof.
  revert S. induction A as [|a A IH]; intros [|s S] Hlen Hne HA HS;
    simpl in *; try discriminate; try congruence.
  inversion HA as [|? ? Ha HA']; inversion HS as [|? ? Hs HS']; subst.
  assert (0 < a * s) by nra.
  destruct A as [|a' A].
  - destruct S; simpl in *; [lra | discriminate].
  - assert (0 < Np.sum (map2 Rmult (a' :: A) S)).
    { apply IH; [lia | discriminate | assumption | assumption]. }
    lra.
Qed.

(** The densities stay positive under the inverse-alpha scaling. *)
Lemma scaled_positive (alpha_0 : R) (S a : ndarray) :
  0 < alpha_0 ->
  Forall (fun x => 0 < x) S -> Forall (fun x => 0 < x) a ->
  Forall (fun x => 0 < x) (map2 Rmult S (map (fun t => alpha_0 / t) a)).
Proof.
  intros H0 HS. revert a. induction HS as [|s S Hs HS IH]; intros a Ha.
  - constructor.
  - destruct a as [|t a]; [constructor|].
    inversion Ha as [|? ? Ht Ha']; subst. simpl. constructor.
    + apply Rmult_lt_0_compat; [exact Hs|].
      now apply Rdiv_lt_0_compat.
    + now apply IH.
Qed.

End Mass.

(** C3: for positive densities, positive alpha, positive cell areas and a
    positive base alpha, all aligned on the grid, the rescale with
    correct_mass = true ends normally and leaves the integrated gas mass
    sum(area * Sigma) equal to the mass before the call. *)
Theorem rescale_conserves_mass (sim : Sim) (alpha_0 : R) :
  length (grid_A sim) = length (gas_Sigma sim) ->
  length (gas_alpha sim) = length (gas_Sigma sim) ->
  length (dust_Sigma sim) = length (gas_Sigma sim) ->
  Forall (fun x => 0 < x) (gas_Sigma sim) ->
  Forall (fun x => 0 < x) (gas_alpha sim) ->
  Forall (fun x => 0 < x) (grid_A sim) ->
  0 < alpha_0 ->
  exists sim',
    rescale_Sigma_with_Alpha alpha_0 true sim = (Ok tt, sim')
    /\ grid_A sim' = grid_A sim
    /\ length (gas_Sigma sim') = length (gas_Sigma sim)
    /\ get_DiskMass sim
       = (Ok (Np.sum (map2 Rmult (grid_A sim) (gas_Sigma sim))), sim)
    /\ get_DiskMass sim'
       = (Ok (Np.sum (map2 Rmult (grid_A sim') (gas_Sigma sim'))), sim')
    /\ Np.sum (map2 Rmult (grid_A sim') (gas_Sigma sim'))
       = Np.sum (map2 Rmult (grid_A sim) (gas_Sigma sim)).
Proof.
  intros HlA Hla Hld HS Ha HA H0.
  destruct sim as [r A ini Hp a upd S gu gb dz dS u1 u2 u3 out n].
  cbn [grid_A gas_Sigma gas_alpha dust_Sigma] in *.
  set (S1 := map2 Rmult S (map (fun t => alpha_0 / t) a)).
  assert (HlS1 : length S1 = length S).
  { unfold S1. apply length_map2. now rewrite length_map. }
  set (M0 := Np.sum (map2 Rmult A S)).
  set (M1 := Np.sum (map2 Rmult A S1)).
  eexists.
  split.
  { unfold rescale_Sigma_with_Alpha, get_DiskMass, bind, read, modify, print, modify, np, ret.
    sim_fields.
    rewrite (broadcast2_aligned Rmult A S HlA).
    sim_fields.
    rewrite (inplace_aligned Rmult S (map (fun t => alpha_0 / t) a))
      by (now rewrite length_map).
    sim_fields.
    rewrite (inplace_rows_aligned Rmult dS (map (fun t => alpha_0 / t) a))
      by (rewrite length_map; congruence).
    sim_fields.
    rewrite (broadcast2_aligned Rmult A (map2 Rmult S (map (fun t => alpha_0 / t) a)))
      by (fold S1; congruence).
    sim_fields.
    reflexivity. }
  sim_fields.
  fold S1. fold M0. fold M1.
  split; [reflexivity|].
  split; [now rewrite length_map|].
  split.
  { unfold get_DiskMass, bind, read, np, ret. sim_fields.
    now rewrite (broadcast2_aligned Rmult A S HlA). }
  split.
  { unfold get_DiskMass, bind, read, np, ret. sim_fields.
    rewrite broadcast2_aligned; [reflexivity|].
    rewrite length_map. congruence. }
  rewrite sum_scaled. fold M1.
  destruct A as [|a0 A'].
  - unfold M1, M0. simpl. unfold Rdiv. ring.
  - assert (HM0 : 0 < M0).
    { apply sum_positive; [exact HlA | discriminate | exact HA | exact HS]. }
    assert (HM1 : 0 < M1).
    { apply sum_positive; [congruence | discriminate | exact HA|].
      now apply scaled_positive. }
    field. split; lra.
Qed.

Lemma rescale_conserves_mass_witness :
  exists sim',
    rescale_Sigma_with_Alpha 1e-3 true example_sim = (Ok tt, sim')
    /\ Np.sum (map2 Rmult (grid_A sim') (gas_Sigma sim'))
       = Np.sum (map2 Rmult (grid_A example_sim) (gas_Sigma example_sim)).
Proof.
  destruct (rescale_conserves_mass example_sim 1e-3)
    as [sim' [H [_ [_ [_ [_ Hm]]]]]];
    try reflexivity;
    try (simpl; repeat constructor; lra);
    try lra.
  exists sim'. split; [exact H | exact Hm].
Defined.

(* ------------------------------------------------------------------ *)
(** * The interpolator is piecewise linear *)
(* ------------------------------------------------------------------ *)

Section Interpolation.

Lemma increasing_tail (a : R) (t : ndarray) : increasing (a :: t) -> increasing t.
Proof. destruct t as [|b t]; simpl; [trivial | tauto]. Qed.

Lemma increasing_head_lt (t : ndarray) :
  forall a j, increasing (a :: t) -> (j < length t)%nat -> a < nth j t 0.
Proof.
  induction t as [|b t IH]; intros a j Hinc Hj; simpl in Hj; [lia|].
  destruct Hinc as [Hab Hinc].
  destruct j as [|j]; simpl; [exact Hab|].
  apply Rlt_trans with b; [exact Hab|].
  apply IH; [exact Hinc | lia].
Qed.

Lemma increasing_nth (x : ndarray) :
  increasing x ->
  forall i j, (i < j)%nat -> (j < length x)%nat -> nth i x 0 < nth j x 0.
Proof.
  induction x as [|a t IH]; intros Hinc i j Hij Hj; simpl in Hj; [lia|].
  destruct j as [|j]; [lia|].
  destruct i as [|i]; simpl.
  - apply increasing_head_lt; [exact Hinc | lia].
  - apply IH; [now apply increasing_tail in Hinc | lia | lia].
Qed.

(** [searchsorted] stops at the first sample that is not below the point. *)
Lemma searchsorted_count (v : R) :
  forall m x, (m <= length x)%nat ->
    (forall i, (i < m)%nat -> nth i x 0 < v) ->
    ((m < length x)%nat -> v <= nth m x 0) ->
    searchsorted x v = m.
Proof.
  induction m as [|m IH]; intros [|a t] Hm Hlt Hge; simpl in *.
  - reflexivity.
  - destruct (Rlt_dec a v) as [H | H]; [|reflexivity].
    assert (v <= a) by (apply Hge; lia). lra.
  - lia.
  - destruct (Rlt_dec a v) as [H | H].
    + f_equal. apply IH; [lia | | ].
      * intros i Hi. apply (Hlt (S i)). lia.
      * intros Hm'. apply Hge. lia.
    + exfalso. apply H. apply (Hlt 0%nat). lia.
Qed.

(** Between two consecutive samples the interpolator is the chord. *)
Lemma linear_on_segment (x y : ndarray) (k : nat) (v : R) :
  increasing x -> (S k < length x)%nat ->
  nth k x 0 <= v <= nth (S k) x 0 ->
  Interp.linear (Interp.mkInterpolator x y) v
  = nth k y 0
    + (nth (S k) y 0 - nth k y 0) / (nth (S k) x 0 - nth k x 0)
      * (v - nth k x 0).
Proof.
  intros Hinc Hk [Hlo Hhi]. unfold Interp.linear. cbn [Interp.xs Interp.ys].
  destruct (Req_dec v (nth k x 0)) as [E | N].
  - assert (Hs : searchsorted x v = k).
    { apply searchsorted_count; [lia | | intros _; lra].
      intros i Hi. rewrite E. apply increasing_nth; [exact Hinc | lia | lia]. }
    rewrite Hs. destruct k as [|k'].
    + replace (Nat.min (Nat.max 0 1) (length x - 1)) with 1%nat by lia.
      replace (1 - 1)%nat with 0%nat by lia.
      rewrite E. unfold Rdiv. ring.
    + replace (Nat.min (Nat.max (S k') 1) (length x - 1)) with (S k') by lia.
      replace (S k' - 1)%nat with k' by lia.
      assert (nth k' x 0 < nth (S k') x 0)
        by (apply increasing_nth; [exact Hinc | lia | lia]).
      assert (nth (S k') x 0 < nth (S (S k')) x 0)
        by (apply increasing_nth; [exact Hinc | lia | lia]).
      rewrite E. field. split; lra.
  - assert (Hs : searchsorted x v = S k).
    { apply searchsorted_count; [lia | | intros _; exact Hhi].
      intros i Hi.
      destruct (Nat.eq_dec i k) as [-> | Hne]; [lra|].
      apply Rlt_le_trans with (nth k x 0); [|exact Hlo].
      apply increasing_nth; [exact Hinc | lia | lia]. }
    rewrite Hs.
    replace (Nat.min (Nat.max (S k) 1) (length x - 1)) with (S k) by lia.
    replace (S k - 1)%nat with k by lia.
    unfold Rdiv. ring.
Qed.

(** A point inside the range of the samples lies on some segment. *)
Lemma segment_exists (x : ndarray) (v : R) :
  (2 <= length x)%nat -> hd 0 x <= v <= last x 0 ->
  exists k, (S k < length x)%nat /\ nth k x 0 <= v <= nth (S k) x 0.
Proof.
  induction x as [|a t IH]; intros Hlen Hv; simpl in Hlen; [lia|].
  destruct t as [|b t]; simpl in Hlen; [lia|].
  destruct (Rle_dec v b) as [Hb | Hb].
  - exists 0%nat. simpl in *. split; [lia | lra].
  - destruct t as [|c t].
    + simpl in Hv. lra.
    + destruct IH as [k [Hk Hseg]].
      * simpl. lia.
      * change (last (a :: b :: c :: t) 0) with (last (b :: c :: t) 0) in Hv.
        simpl hd. simpl hd in Hv. lra.
      * exists (S k). split; [simpl in *; lia | exact Hseg].
Qed.

Lemma Forall_nth_pos (y : ndarray) (i : nat) :
  Forall (fun h => 0 < h) y -> (i < length y)%nat -> 0 < nth i y 0.
Proof.
  intros H Hi. rewrite Forall_forall in H. apply H. now apply nth_In.
Qed.

(** Interpolating positive samples gives a positive value. *)
Lemma linear_positive (x y : ndarray) (v : R) :
  increasing x -> (2 <= length x)%nat -> length y = length x ->
  Forall (fun h => 0 < h) y -> hd 0 x <= v <= last x 0 ->
  0 < Interp.linear (Interp.mkInterpolator x y) v.
Proof.
  intros Hinc Hlen Hy Hpos Hv.
  destruct (segment_exists x v Hlen Hv) as [k [Hk [Hlo Hhi]]].
  rewrite (linear_on_segment x y k v Hinc Hk (conj Hlo Hhi)).
  assert (Hd : nth k x 0 < nth (S k) x 0)
    by (apply increasing_nth; [exact Hinc | lia | lia]).
  assert (H0 : 0 < nth k y 0) by (apply Forall_nth_pos; [exact Hpos | lia]).
  assert (H1 : 0 < nth (S k) y 0) by (apply Forall_nth_pos; [exact Hpos | lia]).
  set (d := nth (S k) x 0 - nth k x 0) in *.
  set (t := (v - nth k x 0) / d).
  assert (Ht : 0 <= t <= 1).
  { unfold t. split.
    - apply Rmult_le_pos; [lra|]. left. apply Rinv_0_lt_compat. unfold d. lra.
    - apply Rmult_le_reg_r with d; [unfold d; lra|].
      unfold Rdiv. rewrite Rmult_assoc, Rinv_l by (unfold d; lra).
      unfold d. lra. }
  replace (nth k y 0 + (nth (S k) y 0 - nth k y 0) / d * (v - nth k x 0))
    with (nth k y 0 * (1 - t) + nth (S k) y 0 * t)
    by (unfold t, Rdiv; ring).
  nra.
Qed.

End Interpolation.

(* ------------------------------------------------------------------ *)
(** * The bump builder *)
(* ------------------------------------------------------------------ *)

Section Monad.

Lemma bind_ok {A B} (m : M A) (k : A -> M B) (s s' : Sim) (a : A) :
  m s = (Ok a, s') -> bind m k s = k a s'.
Proof. intros H. unfold bind. now rewrite H. Qed.

End Monad.

Section BumpLoop.

Lemma map2_plus_zero (acc r : ndarray) :
  length acc = length r -> map2 Rplus acc (map (fun _ => 0) r) = acc.
Proof.
  revert r. induction acc as [|a acc IH]; intros [|x r] H; simpl in *;
    try discriminate; [reflexivity|].
  rewrite Rplus_0_r. f_equal. apply IH. lia.
Qed.

Lemma map2_plus_maps (f g : R -> R) (r acc : ndarray) :
  map2 Rplus (map2 Rplus acc (map f r)) (map g r)
  = map2 Rplus acc (map (fun x => f x + g x) r).
Proof.
  revert acc. induction r as [|x r IH]; intros [|a acc]; simpl;
    try reflexivity.
  rewrite Rplus_assoc. f_equal. apply IH.
Qed.

Lemma map2_ones (h : R -> R) (r : ndarray) :
  map2 Rplus (ones_like r) (map h r) = map (fun x => 1 + h x) r.
Proof. induction r as [|x r IH]; simpl; [reflexivity | now rewrite IH]. Qed.

Lemma getitem_app (pre suf : ndarray) (v : R) (sim : Sim) :
  getitem (Array (pre ++ v :: suf)) (length pre) sim = (Ok v, sim).
Proof.
  unfold getitem. rewrite nth_error_app2 by lia.
  now rewrite Nat.sub_diag.
Qed.

(** The loop over the bumps that are left adds their kernels to the
    accumulated profile. *)
Lemma bumps_loop_app (r : ndarray) (sim : Sim) :
  forall suf sufA sufS pre preA preS acc,
    length preA = length pre -> length preS = length pre ->
    length sufA = length suf -> length sufS = length suf ->
    length acc = length r ->
    bumps_loop r (pre ++ suf) (Array (preA ++ sufA)) (Array (preS ++ sufS))
      (seq (length pre) (length suf)) acc sim
    = (Ok (map2 Rplus acc (map (fun x => gauss_sum x suf sufA sufS) r)), sim).
Proof.
  induction suf as [|r0 suf IH];
    intros [|A sufA] [|s sufS] pre preA preS acc HA HS HsA HsS Hacc;
    simpl in HsA, HsS; try discriminate.
  - simpl. unfold ret. now rewrite map2_plus_zero.
  - cbn [length seq bumps_loop].
    rewrite (bind_ok _ _ _ _ _ (getitem_app pre suf r0 sim)).
    rewrite <- HA at 1.
    rewrite (bind_ok _ _ _ _ _ (getitem_app preA sufA A sim)).
    rewrite <- HS at 1.
    rewrite (bind_ok _ _ _ _ _ (getitem_app preS sufS s sim)).
    rewrite Gaussian_array. cbn [np]. unfold ret at 1. unfold bind at 1.
    rewrite inplace_aligned by (rewrite length_map; lia).
    cbn [np]. unfold ret at 1. unfold bind at 1.
    replace (pre ++ r0 :: suf) with ((pre ++ [r0]) ++ suf)
      by (now rewrite <- app_assoc).
    replace (preA ++ A :: sufA) with ((preA ++ [A]) ++ sufA)
      by (now rewrite <- app_assoc).
    replace (preS ++ s :: sufS) with ((preS ++ [s]) ++ sufS)
      by (now rewrite <- app_assoc).
    replace (S (length pre)) with (length (pre ++ [r0]))
      by (rewrite length_app; simpl; lia).
    rewrite IH.
    + rewrite map2_plus_maps. reflexivity.
    + rewrite !length_app. simpl. lia.
    + rewrite !length_app. simpl. lia.
    + lia.
    + lia.
    + rewrite length_map2; [exact Hacc|]. rewrite length_map. exact Hacc.
Qed.

(** The deviations the builder computes are those of the specification. *)
Lemma gauss_sum_sigma (H : R -> R) (x : R) :
  forall locs amps widths,
    gauss_sum x locs amps
      (map (fun t => t / (2 * sqrt (2 * ln 2)))
         (map2 Rmult widths (map H locs)))
    = bump_sum H x locs amps widths.
Proof.
  induction locs as [|r0 locs IH]; intros [|A amps] [|w widths]; simpl;
    try reflexivity.
  rewrite IH. reflexivity.
Qed.

End BumpLoop.

Section Bounds.

Lemma in_bounds_true (ip : Interp.Interpolator) (v : R) :
  in_range (Interp.xs ip) v -> Interp.in_bounds ip v = true.
Proof.
  intros [Hlo Hhi]. unfold Interp.in_bounds, Rltb.
  destruct (Rlt_dec v (hd 0 (Interp.xs ip))); [lra|].
  destruct (Rlt_dec (last (Interp.xs ip) 0) v); [lra|]. reflexivity.
Qed.

Lemma in_bounds_all (ip : Interp.Interpolator) (l : ndarray) :
  Forall (in_range (Interp.xs ip)) l -> forallb (Interp.in_bounds ip) l = true.
Proof.
  induction 1 as [|v l Hv _ IH]; simpl; [reflexivity|].
  now rewrite in_bounds_true, IH.
Qed.

Lemma interp1d_ok (x y : ndarray) :
  length y = length x -> x <> [] ->
  Interp.interp1d x y = Some (Interp.mkInterpolator x y).
Proof.
  intros Hl Hne. unfold Interp.interp1d.
  rewrite Hl, Nat.eqb_refl. simpl.
  destruct x; [congruence | reflexivity].
Qed.

End Bounds.

(** With aligned arrays of bumps inside the grid the builder ends in its
    last step on the factor array of the specification. *)
Lemma get_BumpProfile_arrays (sim : Sim) (b : GaussianBumps)
    (locs amps widths : list R) :
  gas_GaussianBumps sim = Some b ->
  Location b = Array locs -> Amplitude b = Array amps -> Width b = Array widths ->
  length amps = length locs -> length widths = length locs ->
  length (gas_Hp sim) = length (grid_r sim) -> grid_r sim <> [] ->
  Forall (in_range (grid_r sim)) locs ->
  get_BumpProfile sim
  = bump_result (Type_ b) (factor_spec sim locs amps widths) sim.
Proof.
  intros Hb HL HA HW Hla Hlw HlH Hne Hin.
  unfold get_BumpProfile.
  unfold bind at 1. unfold bind at 1. unfold read at 1. rewrite Hb.
  cbn [attr]. unfold ret at 1.
  unfold bind at 1. unfold read at 1.
  unfold bind at 1. unfold read at 1.
  rewrite (interp1d_ok _ _ HlH Hne). cbn [np].
  unfold bind at 1. unfold ret at 1.
  rewrite HL, HA, HW. cbn [Interp.call].
  rewrite in_bounds_all by exact Hin. cbn [np].
  unfold bind at 1. unfold ret at 1.
  cbn [binop]. rewrite broadcast2_aligned by (rewrite length_map; exact Hlw).
  cbn [option_map np]. unfold bind at 1. unfold ret at 1.
  cbn [ufunc].
  unfold bind at 1.
  pose proof (bumps_loop_app (grid_r sim) sim locs amps
                (map (fun t => t / (2 * sqrt (2 * ln 2)))
                   (map2 Rmult widths
                      (map (Interp.linear
                              (Interp.mkInterpolator (grid_r sim) (gas_Hp sim)))
                         locs)))
                [] [] [] (ones_like (grid_r sim))) as Hloop.
  cbn [app length] in Hloop. rewrite Hloop; clear Hloop.
  - rewrite map2_ones.
    unfold bump_result, factor_spec, Hp_interp.
    erewrite map_ext; [reflexivity|].
    intros x. cbv beta. now rewrite gauss_sum_sigma.
  - reflexivity.
  - reflexivity.
  - exact Hla.
  - rewrite length_map, length_map2; [exact Hlw|].
    rewrite length_map. exact Hlw.
  - unfold ones_like. now rewrite length_map.
Qed.

(** The same for one bump given by three plain numbers. *)
Lemma get_BumpProfile_scalars (sim : Sim) (b : GaussianBumps) (r0 A w : R) :
  gas_GaussianBumps sim = Some b ->
  Location b = Scalar r0 -> Amplitude b = Scalar A -> Width b = Scalar w ->
  length (gas_Hp sim) = length (grid_r sim) -> grid_r sim <> [] ->
  in_range (grid_r sim) r0 ->
  get_BumpProfile sim
  = bump_result (Type_ b) (factor_spec sim [r0] [A] [w]) sim.
Proof.
  intros Hb HL HA HW HlH Hne Hin.
  unfold get_BumpProfile.
  unfold bind at 1. unfold bind at 1. unfold read at 1. rewrite Hb.
  cbn [attr]. unfold ret at 1.
  unfold bind at 1. unfold read at 1.
  unfold bind at 1. unfold read at 1.
  rewrite (interp1d_ok _ _ HlH Hne). cbn [np].
  unfold bind at 1. unfold ret at 1.
  rewrite HL, HA, HW. cbn [Interp.call].
  rewrite in_bounds_true by exact Hin. cbn [np].
  unfold bind at 1. unfold ret at 1.
  cbn [binop np]. unfold bind at 1. unfold ret at 1.
  cbn [ufunc].
  unfold bind at 1. unfold bind at 1.
  rewrite Gaussian_array. cbn [np]. unfold ret at 1.
  rewrite inplace_aligned
    by (unfold ones_like; now rewrite !length_map).
  cbn [np]. unfold ret at 1.
  rewrite map2_ones.
  unfold bump_result, factor_spec, Hp_interp.
  erewrite map_ext; [reflexivity|].
  intros x. cbv beta. simpl bump_sum. unfold fwhm_sigma.
  now rewrite Rplus_0_r.
Qed.

Lemma bump_lists_scalar_or_array (b : GaussianBumps) (locs amps widths : list R) :
  bump_lists b = Some (locs, amps, widths) ->
  (exists r0 A w,
      Location b = Scalar r0 /\ Amplitude b = Scalar A /\ Width b = Scalar w
      /\ locs = [r0] /\ amps = [A] /\ widths = [w])
  \/ (Location b = Array locs /\ Amplitude b = Array amps
      /\ Width b = Array widths
      /\ length amps = length locs /\ length widths = length locs).
Proof.
  unfold bump_lists.
  destruct (Location b) as [r0 | l], (Amplitude b) as [A | a],
           (Width b) as [w | ws]; try discriminate.
  - intros H. injection H as <- <- <-. left. now exists r0, A, w.
  - destruct (Nat.eqb (length a) (length l)) eqn:E1; [|discriminate].
    destruct (Nat.eqb (length ws) (length l)) eqn:E2; [|discriminate].
    simpl. intros H. injection H as <- <- <-. right.
    apply Nat.eqb_eq in E1, E2. tauto.
Qed.

(** A well-formed group of bumps inside the grid takes the builder to its
    last step, on the factor array of the specification. *)
Lemma get_BumpProfile_lists (sim : Sim) (b : GaussianBumps)
    (locs amps widths : list R) :
  gas_GaussianBumps sim = Some b ->
  bump_lists b = Some (locs, amps, widths) ->
  length (gas_Hp sim) = length (grid_r sim) -> grid_r sim <> [] ->
  Forall (in_range (grid_r sim)) locs ->
  get_BumpProfile sim
  = bump_result (Type_ b) (factor_spec sim locs amps widths) sim.
Proof.
  intros Hb Hl HlH Hne Hin.
  destruct (bump_lists_scalar_or_array b locs amps widths Hl)
    as [[r0 [A [w [HL [HA [HW [-> [-> ->]]]]]]]] | [HL [HA [HW [Hla Hlw]]]]].
  - apply get_BumpProfile_scalars; try assumption.
    now inversion Hin.
  - now apply get_BumpProfile_arrays.
Qed.

Lemma Alpha_Bump_ok (sim : Sim) (F : ndarray) :
  get_BumpProfile sim = (Ok F, sim) ->
  Alpha_Bump sim = (Ok (map (fun t => ini_gas_alpha sim * t) F), sim).
Proof.
  intros H. unfold Alpha_Bump, bind, read. now rewrite H.
Qed.

Lemma nonempty_of_length (x : ndarray) : (2 <= length x)%nat -> x <> [].
Proof. destruct x; simpl; [lia | discriminate]. Qed.

(** C1: for a radial grid with an aligned scale-height array and bumps whose
    locations lie inside the grid, the builder computes the factor
    F[j] = 1 + Sum_i A_i * exp(-0.5*((r[j]-r0_i)/sigma_i)^2) with
    sigma_i = width_i * Hp_interp(r0_i) / (2*sqrt(2*ln 2)), where Hp_interp
    runs along the chord between consecutive samples of Hp; for the kind GAP
    it returns F, for BUMP the reciprocal 1/F entry by entry, and the alpha
    profile is the base alpha times the returned profile. *)
Theorem bump_builder_formula (sim : Sim) (b : GaussianBumps)
    (locs amps widths : list R) :
  gas_GaussianBumps sim = Some b ->
  bump_lists b = Some (locs, amps, widths) ->
  increasing (grid_r sim) -> (2 <= length (grid_r sim))%nat ->
  length (gas_Hp sim) = length (grid_r sim) ->
  Forall (in_range (grid_r sim)) locs ->
  let r := grid_r sim in
  let F := factor_spec sim locs amps widths in
  length F = length r
  /\ (forall j, (j < length r)%nat ->
        nth j F 0 = 1 + bump_sum (Hp_interp sim) (nth j r 0) locs amps widths)
  /\ (forall w r0,
        fwhm_sigma (Hp_interp sim) w r0
        = w * Hp_interp sim r0 / (2 * sqrt (2 * ln 2)))
  /\ (forall k v, (S k < length r)%nat ->
        nth k r 0 <= v <= nth (S k) r 0 ->
        Hp_interp sim v
        = nth k (gas_Hp sim) 0
          + (nth (S k) (gas_Hp sim) 0 - nth k (gas_Hp sim) 0)
            / (nth (S k) r 0 - nth k r 0) * (v - nth k r 0))
  /\ (Type_ b = "GAP"%string ->
        get_BumpProfile sim = (Ok F, sim)
        /\ Alpha_Bump sim = (Ok (map (fun f => ini_gas_alpha sim * f) F), sim))
  /\ (Type_ b = "BUMP"%string ->
        get_BumpProfile sim = (Ok (map (fun f => 1 / f) F), sim)
        /\ Alpha_Bump sim
           = (Ok (map (fun f => ini_gas_alpha sim * (1 / f)) F), sim)).
Proof.
  intros Hb Hl Hinc Hlen HlH Hin r F.
  pose proof (get_BumpProfile_lists sim b locs amps widths Hb Hl HlH
                (nonempty_of_length _ Hlen) Hin) as Heval.
  split; [unfold F, factor_spec; now rewrite length_map|].
  split.
  { intros j Hj. unfold F, factor_spec.
    exact (nth_map_lt
             (fun rj => 1 + bump_sum (Hp_interp sim) rj locs amps widths)
             (grid_r sim) j 0 0 Hj). }
  split; [reflexivity|].
  split.
  { intros k v Hk Hv. unfold Hp_interp.
    now apply linear_on_segment. }
  split.
  - intros Hty. rewrite Hty in Heval. unfold bump_result in Heval.
    cbn [String.eqb Ascii.eqb Bool.eqb] in Heval. unfold ret in Heval.
    split; [exact Heval|]. now apply Alpha_Bump_ok.
  - intros Hty. rewrite Hty in Heval. unfold bump_result in Heval.
    cbn [String.eqb Ascii.eqb Bool.eqb] in Heval. unfold ret in Heval.
    split; [exact Heval|].
    rewrite (Alpha_Bump_ok _ _ Heval). now rewrite map_map.
Qed.

Lemma bump_builder_formula_witness :
  get_BumpProfile single_gap_sim
  = (Ok (factor_spec single_gap_sim [3] [4] [1]), single_gap_sim)
  /\ Hp_interp single_gap_sim 3 = 0.1.
Proof.
  destruct (bump_builder_formula single_gap_sim
              (mkGaussianBumps (Scalar 3) (Scalar 4) (Scalar 1) "GAP" [])
              [3] [4] [1])
    as [_ [_ [_ [Hchord [Hgap _]]]]].
  - reflexivity.
  - reflexivity.
  - simpl. lra.
  - simpl. lia.
  - reflexivity.
  - constructor; [unfold in_range; simpl; lra | constructor].
  - split; [apply Hgap; reflexivity|].
    rewrite (Hchord 1%nat 3); [simpl; field; lra | simpl; lia | simpl; lra].
Defined.

(** C4, as stated, fails: for a kind that is neither GAP nor BUMP the
    builder does not raise an exception, it prints a line and calls
    [exit(0)], which ends the interpreter with the status of success. *)
Lemma unknown_kind_counterexample :
  get_BumpProfile unknown_kind_sim
  = (SysExit 0, add_stdout MsgProfileTypeNotDefined unknown_kind_sim)
  /\ raises_exception (fst (get_BumpProfile unknown_kind_sim)) = false.
Proof.
  assert (H : get_BumpProfile unknown_kind_sim
              = (SysExit 0, add_stdout MsgProfileTypeNotDefined unknown_kind_sim)).
  { rewrite (get_BumpProfile_lists unknown_kind_sim
               (mkGaussianBumps (Scalar 3) (Scalar 4) (Scalar 1) "RING" [])
               [3] [4] [1]).
    - reflexivity.
    - reflexivity.
    - reflexivity.
    - reflexivity.
    - discriminate.
    - constructor; [unfold in_range; simpl; lra | constructor]. }
  split; [exact H | now rewrite H].
Qed.

(** C4 (amended): for a well-formed group of bumps inside the grid whose
    kind is neither GAP nor BUMP, the builder prints
    "PROFILE TYPE NOT DEFINED" and ends the process through [exit(0)]; this
    is not an exception.  Nothing but the output changes: the grid, the
    scale height, alpha and the densities are as before, also when the
    builder runs inside [setup_profile_bumps], whose only other effects are
    the registration of the group and of the updaters. *)
Theorem bump_builder_unknown_kind (sim : Sim) (b : GaussianBumps)
    (locs amps widths : list R) :
  gas_GaussianBumps sim = Some b ->
  bump_lists b = Some (locs, amps, widths) ->
  length (gas_Hp sim) = length (grid_r sim) -> grid_r sim <> [] ->
  Forall (in_range (grid_r sim)) locs ->
  Type_ b <> "GAP"%string -> Type_ b <> "BUMP"%string ->
  get_BumpProfile sim = (SysExit 0, add_stdout MsgProfileTypeNotDefined sim)
  /\ raises_exception (fst (get_BumpProfile sim)) = false
  /\ Alpha_Bump sim = (SysExit 0, add_stdout MsgProfileTypeNotDefined sim)
  /\ (forall apply_to_sigma correct_mass copy_alpha_to_delta,
        exists sim',
          setup_profile_bumps (Location b) (Amplitude b) (Width b) (Type_ b)
            apply_to_sigma correct_mass copy_alpha_to_delta sim
          = (SysExit 0, sim')
          /\ grid_r sim' = grid_r sim /\ grid_A sim' = grid_A sim
          /\ gas_Hp sim' = gas_Hp sim /\ gas_alpha sim' = gas_alpha sim
          /\ gas_Sigma sim' = gas_Sigma sim /\ dust_Sigma sim' = dust_Sigma sim
          /\ stdout sim' = stdout sim ++ [MsgProfileTypeNotDefined]
          /\ updates_requested sim' = updates_requested sim).
Proof.
  intros Hb Hl HlH Hne Hin Hgap Hbump.
  assert (Hres : forall s F, bump_result (Type_ b) F s
                 = (SysExit 0, add_stdout MsgProfileTypeNotDefined s)).
  { intros s F. unfold bump_result.
    destruct (String.eqb_spec (Type_ b) "GAP"); [contradiction|].
    destruct (String.eqb_spec (Type_ b) "BUMP"); [contradiction|].
    reflexivity. }
  assert (H : get_BumpProfile sim
              = (SysExit 0, add_stdout MsgProfileTypeNotDefined sim)).
  { rewrite (get_BumpProfile_lists sim b locs amps widths Hb Hl HlH Hne Hin).
    apply Hres. }
  split; [exact H|]. split; [now rewrite H|].
  split; [unfold Alpha_Bump, bind, read; now rewrite H|].
  intros ats cm cad.
  set (b' := mkGaussianBumps (Location b) (Amplitude b) (Width b) (Type_ b)
               ["Location"; "Amplitude"; "Width"]%string).
  set (sim2 := set_gas_alpha_updater UpdAlphaBump
                 (set_gas_updater bumps_gas_updater
                    (set_gas_GaussianBumps (Some b')
                       (set_gas_GaussianBumps
                          (Some (mkGaussianBumps (Location b) (Amplitude b)
                                   (Width b) (Type_ b) []))
                          sim)))).
  assert (H2 : get_BumpProfile sim2
               = (SysExit 0, add_stdout MsgProfileTypeNotDefined sim2)).
  { rewrite (get_BumpProfile_lists sim2 b' locs amps widths);
      [apply (Hres sim2) | reflexivity | exact Hl | exact HlH | exact Hne
      | exact Hin]. }
  exists (add_stdout MsgProfileTypeNotDefined sim2).
  split.
  - unfold setup_profile_bumps, group_update, gas_alpha_update.
    unfold bind, modify, read, ret. fold b'. fold sim2.
    cbn [gas_alpha_updater set_gas_alpha_updater sim2].
    unfold Alpha_Bump, bind, read. rewrite H2. reflexivity.
  - repeat split; reflexivity.
Qed.

Lemma bump_builder_unknown_kind_witness :
  Alpha_Bump unknown_kind_sim
  = (SysExit 0, add_stdout MsgProfileTypeNotDefined unknown_kind_sim).
Proof.
  destruct (bump_builder_unknown_kind unknown_kind_sim
              (mkGaussianBumps (Scalar 3) (Scalar 4) (Scalar 1) "RING" [])
              [3] [4] [1]) as [_ [_ [H _]]].
  - reflexivity.
  - reflexivity.
  - reflexivity.
  - discriminate.
  - constructor; [unfold in_range; simpl; lra | constructor].
  - discriminate.
  - discriminate.
  - exact H.
Defined.

(** C5: a single bump given by three plain numbers and the same bump given
    by three arrays of length one take the builder, and the alpha profile
    built on it, to the same outcome: the same array entry for entry, or
    the same failure, with the same output. *)
Theorem scalar_bump_equals_singleton (sim : Sim) (r0 A w : R) (ty : string)
    (u : list string) :
  let s1 := set_gas_GaussianBumps
              (Some (mkGaussianBumps (Scalar r0) (Scalar A) (Scalar w) ty u)) sim in
  let s2 := set_gas_GaussianBumps
              (Some (mkGaussianBumps (Array [r0]) (Array [A]) (Array [w]) ty u))
              sim in
  fst (get_BumpProfile s1) = fst (get_BumpProfile s2)
  /\ stdout (snd (get_BumpProfile s1)) = stdout (snd (get_BumpProfile s2))
  /\ fst (Alpha_Bump s1) = fst (Alpha_Bump s2)
  /\ stdout (snd (Alpha_Bump s1)) = stdout (snd (Alpha_Bump s2)).
Proof.
  intros s1 s2.
  assert (H : fst (get_BumpProfile s1) = fst (get_BumpProfile s2)
              /\ stdout (snd (get_BumpProfile s1))
                 = stdout (snd (get_BumpProfile s2))).
  { unfold get_BumpProfile, s1, s2.
    unfold bind, read, attr, np, print, modify, exit, ret, raise.
    cbn [gas_GaussianBumps set_gas_GaussianBumps grid_r gas_Hp
         Location Amplitude Width Type_].
    destruct (Interp.interp1d (grid_r sim) (gas_Hp sim)) as [ip|];
      [|split; reflexivity].
    cbn [Interp.call forallb].
    destruct (Interp.in_bounds ip r0); [|split; reflexivity].
    cbn [andb binop broadcast2 length Nat.eqb option_map map2 map ufunc
         seq bumps_loop].
    unfold bind, getitem, np, ret, raise.
    cbn [nth_error].
    rewrite Gaussian_array.
    destruct (inplace Rplus (ones_like (grid_r sim))
                (Array (map (fun ri => A * exp (-0.5 * ((ri - r0)
                   / (w * Interp.linear ip r0 / (2 * sqrt (2 * ln 2)))) ^ 2))
                   (grid_r sim)))) as [p|];
      [|split; reflexivity].
    destruct (String.eqb ty "GAP"); [split; reflexivity|].
    destruct (String.eqb ty "BUMP"); split; reflexivity. }
  destruct H as [H1 H2]. split; [exact H1|]. split; [exact H2|].
  unfold Alpha_Bump, bind, read.
  destruct (get_BumpProfile s1) as [[F1 | e1 | c1] t1];
    destruct (get_BumpProfile s2) as [[F2 | e2 | c2] t2];
    simpl in H1, H2; try discriminate; simpl.
  - injection H1 as ->. split; [reflexivity | exact H2].
  - split; [exact H1 | exact H2].
  - split; [exact H1 | exact H2].
Qed.

Section Amplitudes.

Lemma neg_part_sum_nonpos (amps : list R) : neg_part_sum amps <= 0.
Proof.
  induction amps as [|A amps IH]; simpl; [lra|].
  pose proof (Rmin_r A 0). lra.
Qed.

(** A kernel is at least the negative part of its amplitude. *)
Lemma kernel_ge_neg_part (A q : R) : Rmin A 0 <= A * exp (-0.5 * q ^ 2).
Proof.
  destruct (bell_range q) as [Hp H1].
  unfold Rmin. destruct (Rle_dec A 0); nra.
Qed.

Lemma bump_sum_ge_neg_part (H : R -> R) (x : R) :
  forall amps locs widths,
    neg_part_sum amps <= bump_sum H x locs amps widths.
Proof.
  induction amps as [|A amps IH]; intros locs widths.
  - destruct locs; simpl; lra.
  - destruct locs as [|r0 locs]; [simpl bump_sum; apply neg_part_sum_nonpos|].
    destruct widths as [|w widths];
      [simpl bump_sum; apply neg_part_sum_nonpos|].
    cbn [neg_part_sum bump_sum].
    pose proof (kernel_ge_neg_part A ((x - r0) / fwhm_sigma H w r0)).
    pose proof (IH locs widths). lra.
Qed.

Lemma fwhm_constant_pos : 0 < 2 * sqrt (2 * ln 2).
Proof.
  assert (0 < ln 2) by (pose proof ln_lt_2; lra).
  assert (0 < sqrt (2 * ln 2)) by (apply sqrt_lt_R0; lra).
  lra.
Qed.

Lemma fwhm_sigma_pos (H : R -> R) (w r0 : R) :
  0 < w -> 0 < H r0 -> 0 < fwhm_sigma H w r0.
Proof.
  intros Hw HH. unfold fwhm_sigma.
  apply Rdiv_lt_0_compat; [nra | apply fwhm_constant_pos].
Qed.

End Amplitudes.

(** C6, as stated, fails for more than one bump: two gaps of amplitude -1
    at the same location take the factor to -1 there. *)
Lemma double_gap_counterexample :
  Forall (fun A => -1 <= A) [-1; -1]
  /\ get_BumpProfile double_gap_sim
     = (Ok (factor_spec double_gap_sim [2; 2] [-1; -1] [1; 1]), double_gap_sim)
  /\ nth 1 (factor_spec double_gap_sim [2; 2] [-1; -1] [1; 1]) 0 = -1
  /\ nth 1 (factor_spec double_gap_sim [2; 2] [-1; -1] [1; 1]) 0 < 0.
Proof.
  assert (Hv : nth 1 (factor_spec double_gap_sim [2; 2] [-1; -1] [1; 1]) 0 = -1).
  { unfold factor_spec. cbn [double_gap_sim grid_r set_gas_GaussianBumps
                             example_sim map nth bump_sum].
    replace (2 - 2) with 0 by ring. rewrite bell_centre. ring. }
  split; [repeat constructor; lra|].
  split; [|split; [exact Hv | rewrite Hv; lra]].
  rewrite (get_BumpProfile_lists double_gap_sim
             (mkGaussianBumps (Array [2; 2]) (Array [-1; -1]) (Array [1; 1])
                "GAP" [])
             [2; 2] [-1; -1] [1; 1]).
  - reflexivity.
  - reflexivity.
  - reflexivity.
  - reflexivity.
  - discriminate.
  - repeat constructor; simpl; lra.
Qed.

(** C6 (amended): for bumps inside the grid, with positive widths over a
    positive scale height, whose amplitudes have negative parts that sum to
    at least -1 (a single bump of amplitude >= -1, or any number of bumps
    with amplitudes >= 0, among others), the factor array returned for the
    kind GAP is non-negative at every grid point. *)
Theorem gap_factor_nonnegative (sim : Sim) (b : GaussianBumps)
    (locs amps widths : list R) :
  gas_GaussianBumps sim = Some b ->
  bump_lists b = Some (locs, amps, widths) ->
  increasing (grid_r sim) -> (2 <= length (grid_r sim))%nat ->
  length (gas_Hp sim) = length (grid_r sim) ->
  Forall (in_range (grid_r sim)) locs ->
  Forall (fun h => 0 < h) (gas_Hp sim) ->
  Forall (fun w => 0 < w) widths ->
  Type_ b = "GAP"%string ->
  -1 <= neg_part_sum amps ->
  exists F,
    get_BumpProfile sim = (Ok F, sim)
    /\ length F = length (grid_r sim)
    /\ (forall i, (i < length locs)%nat ->
          0 < fwhm_sigma (Hp_interp sim) (nth i widths 0) (nth i locs 0))
    /\ (forall j, (j < length (grid_r sim))%nat -> 0 <= nth j F 0)
    /\ (forall A, -1 <= A -> -1 <= neg_part_sum [A]).
Proof.
  intros Hb Hl Hinc Hlen HlH Hin HHp Hw Hty Hamp.
  exists (factor_spec sim locs amps widths).
  split.
  { rewrite (get_BumpProfile_lists sim b locs amps widths Hb Hl HlH
               (nonempty_of_length _ Hlen) Hin).
    rewrite Hty. reflexivity. }
  split; [unfold factor_spec; now rewrite length_map|].
  split.
  { intros i Hi.
    assert (Hlw : length widths = length locs).
    { destruct (bump_lists_scalar_or_array b locs amps widths Hl)
        as [[r0 [A [w [_ [_ [_ [-> [_ ->]]]]]]]] | [_ [_ [_ [_ E]]]]];
        [reflexivity | exact E]. }
    apply fwhm_sigma_pos.
    - rewrite Forall_forall in Hw. apply Hw, nth_In. lia.
    - unfold Hp_interp. apply linear_positive; try assumption.
      rewrite Forall_forall in Hin. apply Hin, nth_In. exact Hi. }
  split.
  { intros j Hj. unfold factor_spec.
    rewrite (nth_map_lt
               (fun rj => 1 + bump_sum (Hp_interp sim) rj locs amps widths)
               (grid_r sim) j 0 0 Hj).
    pose proof (bump_sum_ge_neg_part (Hp_interp sim) (nth j (grid_r sim) 0)
                  amps locs widths).
    lra. }
  intros A HA. simpl. unfold Rmin. destruct (Rle_dec A 0); lra.
Qed.

Lemma gap_factor_nonnegative_witness :
  exists F,
    get_BumpProfile
      (set_gas_GaussianBumps
         (Some (mkGaussianBumps (Scalar 3) (Scalar (-1)) (Scalar 1) "GAP" []))
         example_sim)
    = (Ok F,
       set_gas_GaussianBumps
         (Some (mkGaussianBumps (Scalar 3) (Scalar (-1)) (Scalar 1) "GAP" []))
         example_sim)
    /\ 0 <= nth 2 F 0.
Proof.
  destruct (gap_factor_nonnegative
              (set_gas_GaussianBumps
                 (Some (mkGaussianBumps (Scalar 3) (Scalar (-1)) (Scalar 1)
                          "GAP" []))
                 example_sim)
              (mkGaussianBumps (Scalar 3) (Scalar (-1)) (Scalar 1) "GAP" [])
              [3] [-1] [1])
    as [F [HF [_ [_ [Hpos _]]]]].
  - reflexivity.
  - reflexivity.
  - simpl. lra.
  - simpl. lia.
  - reflexivity.
  - repeat constructor; simpl; lra.
  - simpl. repeat constructor; lra.
  - repeat constructor; lra.
  - reflexivity.
  - simpl. unfold Rmin. destruct (Rle_dec (-1) 0); lra.
  - exists F. split; [exact HF|]. apply Hpos. simpl. lia.
Defined.

(* ------------------------------------------------------------------ *)
(** * The setup functions *)
(* ------------------------------------------------------------------ *)

Section Setup.

Lemma map2_second (a b : ndarray) :
  length b = length a -> map2 (fun _ y => y) a b = b.
Proof.
  revert b. induction a as [|x a IH]; intros [|y b] H; simpl in *;
    try discriminate; [reflexivity|]. f_equal. apply IH. lia.
Qed.

Lemma assign_aligned (old v : ndarray) :
  length v = length old -> assign old v = Some v.
Proof.
  intros H. unfold assign. rewrite inplace_aligned by exact H.
  now rewrite map2_second.
Qed.

End Setup.

(** With the rescale switched off, the dead-zone setup runs to its end for
    every value of the four parameters. *)
Lemma setup_profile_deadzone_runs (sim : Sim) (aa ad ro w : R) (cm cad : bool) :
  length (gas_alpha sim) = length (grid_r sim) ->
  exists sim',
    setup_profile_deadzone aa ad ro w false cm cad sim = (Ok tt, sim')
    /\ gas_DeadZone sim'
       = Some (mkDeadZone aa ad ro w
                 ["alpha_active"; "alpha_dead"; "outer_radii";
                  "transition_width"]%string)
    /\ gas_alpha_updater sim' = UpdAlphaDeadZone
    /\ grid_r sim' = grid_r sim
    /\ gas_alpha sim'
       = map (fun s => ad + (aa - ad) * s)
           (map (fun ri => shape_spec w (ri - ro)) (grid_r sim)).
Proof.
  intros Hlen.
  unfold setup_profile_deadzone, group_update, gas_alpha_update,
    assign_Delta_updaters.
  unfold bind, modify, read, ret. sim_fields.
  erewrite Alpha_DeadZone_eq by reflexivity.
  sim_fields. cbn [alpha_active alpha_dead outer_radii transition_width].
  rewrite assign_aligned by (rewrite !length_map; auto).
  cbn [np]. unfold ret.
  destruct cad; eexists; (split; [reflexivity|]); sim_fields;
    repeat split; reflexivity.
Qed.

(** With the rescale and the copy to delta switched off, the bump setup runs
    to its end for every width of a single gap inside the grid. *)
Lemma setup_profile_bumps_runs (sim : Sim) (r0 A w : R) (cm : bool) :
  length (gas_alpha sim) = length (grid_r sim) ->
  length (gas_Hp sim) = length (grid_r sim) -> grid_r sim <> [] ->
  in_range (grid_r sim) r0 ->
  exists sim',
    setup_profile_bumps (Scalar r0) (Scalar A) (Scalar w) "GAP"
      false cm false sim = (Ok tt, sim')
    /\ gas_GaussianBumps sim'
       = Some (mkGaussianBumps (Scalar r0) (Scalar A) (Scalar w) "GAP"
                 ["Location"; "Amplitude"; "Width"]%string)
    /\ gas_alpha_updater sim' = UpdAlphaBump
    /\ grid_r sim' = grid_r sim /\ gas_Hp sim' = gas_Hp sim
    /\ ini_gas_alpha sim' = ini_gas_alpha sim
    /\ gas_alpha sim'
       = map (fun t => ini_gas_alpha sim * t) (factor_spec sim [r0] [A] [w]).
Proof.
  intros Hlen HlH Hne Hin.
  set (b := mkGaussianBumps (Scalar r0) (Scalar A) (Scalar w) "GAP"
              ["Location"; "Amplitude"; "Width"]%string).
  set (sim2 := set_gas_alpha_updater UpdAlphaBump
                 (set_gas_updater bumps_gas_updater
                    (set_gas_GaussianBumps (Some b)
                       (set_gas_GaussianBumps
                          (Some (mkGaussianBumps (Scalar r0) (Scalar A)
                                   (Scalar w) "GAP" []))
                          sim)))).
  assert (H2 : Alpha_Bump sim2
               = (Ok (map (fun t => ini_gas_alpha sim * t)
                        (factor_spec sim [r0] [A] [w])), sim2)).
  { apply (Alpha_Bump_ok sim2 (factor_spec sim [r0] [A] [w])).
    rewrite (get_BumpProfile_lists sim2 b [r0] [A] [w]);
      [reflexivity | reflexivity | reflexivity | exact HlH | exact Hne|].
    constructor; [exact Hin | constructor]. }
  unfold setup_profile_bumps, group_update, gas_alpha_update.
  unfold bind, modify, read, ret. fold b. fold sim2.
  cbn [gas_alpha_updater set_gas_alpha_updater sim2].
  rewrite H2.
  cbn [gas_alpha set_gas_alpha_updater set_gas_updater set_gas_GaussianBumps
       sim2].
  rewrite assign_aligned
    by (unfold factor_spec; rewrite !length_map; auto).
  cbn [np]. unfold ret.
  eexists. split; [reflexivity|]. repeat split; reflexivity.
Qed.

(** C7, as stated, fails: with a transition width of zero the dead-zone
    setup raises nothing; it stores the width, evaluates the builder with it
    and puts the result into alpha. *)
Lemma zero_width_counterexample :
  fst (setup_profile_deadzone 1e-3 1e-4 3 0 false true true example_sim) = Ok tt
  /\ raises_exception
       (fst (setup_profile_deadzone 1e-3 1e-4 3 0 false true true example_sim))
     = false
  /\ option_map transition_width
       (gas_DeadZone
          (snd (setup_profile_deadzone 1e-3 1e-4 3 0 false true true
                  example_sim)))
     = Some 0
  /\ fst (Alpha_DeadZone
            (snd (setup_profile_deadzone 1e-3 1e-4 3 0 false true true
                    example_sim)))
     = Ok (gas_alpha
             (snd (setup_profile_deadzone 1e-3 1e-4 3 0 false true true
                     example_sim))).
Proof.
  destruct (setup_profile_deadzone_runs example_sim 1e-3 1e-4 3 0 true true)
    as [sim' [H [Hdz [_ [Hr Ha]]]]]; [reflexivity|].
  rewrite H. cbn [fst snd raises_exception].
  split; [reflexivity|]. split; [reflexivity|].
  split; [now rewrite Hdz|].
  rewrite (Alpha_DeadZone_eq sim' _ Hdz). cbn [fst].
  rewrite Ha, Hr. reflexivity.
Qed.

(** C7 (amended): the setup functions do not check the widths.  For every
    transition width, positive or not, [setup_profile_deadzone] (rescale
    off) on a simulation whose alpha field is aligned with the grid stores
    the width as given, evaluates the dead-zone builder with it, puts the
    result into alpha and ends normally; the division by the width is not
    guarded.  In the same way [setup_profile_bumps] (rescale and copy off)
    accepts every width of a gap inside the grid. *)
Theorem setup_accepts_any_width (sim : Sim) :
  length (gas_alpha sim) = length (grid_r sim) ->
  (forall aa ad ro w cm cad,
      exists sim',
        setup_profile_deadzone aa ad ro w false cm cad sim = (Ok tt, sim')
        /\ option_map transition_width (gas_DeadZone sim') = Some w
        /\ gas_alpha_updater sim' = UpdAlphaDeadZone
        /\ Alpha_DeadZone sim' = (Ok (gas_alpha sim'), sim'))
  /\ (length (gas_Hp sim) = length (grid_r sim) -> grid_r sim <> [] ->
      forall r0 A w cm, in_range (grid_r sim) r0 ->
        exists sim',
          setup_profile_bumps (Scalar r0) (Scalar A) (Scalar w) "GAP"
            false cm false sim = (Ok tt, sim')
          /\ option_map Width (gas_GaussianBumps sim') = Some (Scalar w)
          /\ gas_alpha_updater sim' = UpdAlphaBump
          /\ Alpha_Bump sim' = (Ok (gas_alpha sim'), sim')).
Proof.
  intros Hlen. split.
  - intros aa ad ro w cm cad.
    destruct (setup_profile_deadzone_runs sim aa ad ro w cm cad Hlen)
      as [sim' [H [Hdz [Hu [Hr Ha]]]]].
    exists sim'. split; [exact H|]. split; [now rewrite Hdz|].
    split; [exact Hu|].
    rewrite (Alpha_DeadZone_eq sim' _ Hdz). rewrite Ha, Hr. reflexivity.
  - intros HlH Hne r0 A w cm Hin.
    destruct (setup_profile_bumps_runs sim r0 A w cm Hlen HlH Hne Hin)
      as [sim' [H [Hb [Hu [Hr [HHp [Hi Ha]]]]]]].
    exists sim'. split; [exact H|]. split; [now rewrite Hb|].
    split; [exact Hu|].
    assert (HF : factor_spec sim' [r0] [A] [w] = factor_spec sim [r0] [A] [w]).
    { unfold factor_spec, Hp_interp. now rewrite Hr, HHp. }
    rewrite Ha, <- Hi, <- HF.
    apply Alpha_Bump_ok.
    rewrite (get_BumpProfile_lists sim' _ [r0] [A] [w] Hb);
      [reflexivity | reflexivity | congruence | congruence|].
    constructor; [rewrite Hr; exact Hin | constructor].
Qed.

Lemma setup_accepts_any_width_witness :
  exists sim',
    setup_profile_deadzone 1e-3 1e-4 3 (-1) false true true example_sim
    = (Ok tt, sim')
    /\ option_map transition_width (gas_DeadZone sim') = Some (-1).
Proof.
  destruct (setup_accepts_any_width example_sim) as [Hdz _]; [reflexivity|].
  destruct (Hdz 1e-3 1e-4 3 (-1) true true) as [sim' [H [Hw _]]].
  exists sim'. split; [exact H | exact Hw].
Defined.

(* ------------------------------------------------------------------ *)
(** * The order of the update steps *)
(* ------------------------------------------------------------------ *)

Section UpdateList.

Lemma keeps_ret {A} (a : A) : keeps_updater (ret a).
Proof. intros s. reflexivity. Qed.

Lemma keeps_raise {A} (e : PyExn) : keeps_updater (@raise A e).
Proof. intros s. reflexivity. Qed.

Lemma keeps_exit {A} (c : Z) : keeps_updater (@exit A c).
Proof. intros s. reflexivity. Qed.

Lemma keeps_read {A} (f : Sim -> A) : keeps_updater (read f).
Proof. intros s. reflexivity. Qed.

Lemma keeps_np {A} (o : option A) : keeps_updater (np o).
Proof. destruct o; intros s; reflexivity. Qed.

Lemma keeps_attr {A} (o : option A) : keeps_updater (attr o).
Proof. destruct o; intros s; reflexivity. Qed.

Lemma keeps_modify (f : Sim -> Sim) :
  (forall s, gas_updater (f s) = gas_updater s) -> keeps_updater (modify f).
Proof. intros H s. apply H. Qed.

Lemma keeps_bind {A B} (m : M A) (k : A -> M B) :
  keeps_updater m -> (forall a, keeps_updater (k a)) -> keeps_updater (bind m k).
Proof.
  intros Hm Hk s. unfold bind. specialize (Hm s).
  destruct (m s) as [[a | e | c] s']; simpl in *; try exact Hm.
  now rewrite Hk.
Qed.

Lemma keeps_getitem (a : PyNum) (i : nat) : keeps_updater (getitem a i).
Proof.
  destruct a as [v | l]; [apply keeps_raise|].
  unfold getitem. destruct (nth_error l i); [apply keeps_ret | apply keeps_raise].
Qed.

End UpdateList.

(** Decomposes a computation into its steps. *)
Ltac keeps :=
  repeat first
    [ apply keeps_ret | apply keeps_raise | apply keeps_exit
    | apply keeps_read | apply keeps_np | apply keeps_attr
    | apply keeps_getitem
    | apply keeps_modify; intros ?; reflexivity
    | apply keeps_bind; [|intros ?] ].

Lemma keeps_bumps_loop (r r_bumps : ndarray) (A_bumps sigma_bumps : PyNum)
    (range : list nat) :
  forall acc, keeps_updater (bumps_loop r r_bumps A_bumps sigma_bumps range acc).
Proof.
  induction range as [|i range IH]; intros acc; cbn [bumps_loop]; keeps.
  apply IH.
Qed.

Lemma keeps_get_BumpProfile : keeps_updater get_BumpProfile.
Proof.
  unfold get_BumpProfile. keeps.
  - destruct (Location a); keeps. apply keeps_bumps_loop.
  - destruct (String.eqb (Type_ a) "GAP"); keeps.
    destruct (String.eqb (Type_ a) "BUMP"); unfold print; keeps.
Qed.

Lemma keeps_Alpha_Bump : keeps_updater Alpha_Bump.
Proof.
  unfold Alpha_Bump.
  apply keeps_bind; [apply keeps_read | intros alpha_0].
  apply keeps_bind; [apply keeps_get_BumpProfile | intros F; apply keeps_ret].
Qed.

Lemma keeps_Alpha_DeadZone : keeps_updater Alpha_DeadZone.
Proof. unfold Alpha_DeadZone. keeps. Qed.

Lemma keeps_gas_alpha_update : keeps_updater gas_alpha_update.
Proof.
  unfold gas_alpha_update.
  apply keeps_bind; [apply keeps_read | intros u].
  destruct u.
  - apply keeps_ret.
  - apply keeps_bind; [apply keeps_Alpha_Bump | intros v]. keeps.
  - apply keeps_bind; [apply keeps_Alpha_DeadZone | intros v]. keeps.
Qed.

Lemma keeps_get_DiskMass : keeps_updater get_DiskMass.
Proof. unfold get_DiskMass. keeps. Qed.

Lemma keeps_rescale (alpha_0 : R) (correct_mass : bool) :
  keeps_updater (rescale_Sigma_with_Alpha alpha_0 correct_mass).
Proof.
  unfold rescale_Sigma_with_Alpha, print.
  apply keeps_bind; [apply keeps_get_DiskMass | intros M0].
  do 8 (apply keeps_bind; [keeps | intros ?]).
  apply keeps_bind; [apply keeps_get_DiskMass | intros M1].
  apply keeps_bind; [keeps | intros ?].
  destruct correct_mass; keeps.
Qed.

Lemma keeps_setup_tail (ats cad : bool) (rescale tail : M unit) :
  keeps_updater rescale -> keeps_updater tail ->
  keeps_updater
    (group_update ;;;
     gas_alpha_update ;;;
     (if ats then rescale else ret tt) ;;;
     (if cad then tail else ret tt) ;;;
     modify request_update).
Proof.
  intros Hr Ht. unfold group_update.
  apply keeps_bind; [apply keeps_ret | intros _].
  apply keeps_bind; [apply keeps_gas_alpha_update | intros _].
  apply keeps_bind; [destruct ats; [exact Hr | apply keeps_ret] | intros _].
  apply keeps_bind; [destruct cad; [exact Ht | apply keeps_ret] | intros _].
  keeps.
Qed.

(** Whatever its arguments and its outcome, a setup function leaves its own
    list of steps installed. *)
Lemma setup_profile_bumps_updater (Location Amplitude Width : PyNum)
    (ty : string) (ats cm cad : bool) (sim : Sim) :
  gas_updater
    (snd (setup_profile_bumps Location Amplitude Width ty ats cm cad sim))
  = bumps_gas_updater.
Proof.
  unfold setup_profile_bumps.
  do 4 (unfold bind at 1, modify at 1).
  rewrite (keeps_setup_tail ats cad
             (alpha_0 <- read ini_gas_alpha ;;
              rescale_Sigma_with_Alpha alpha_0 cm)
             (raise NameError)).
  - reflexivity.
  - apply keeps_bind; [apply keeps_read | intros a; apply keeps_rescale].
  - apply keeps_raise.
Qed.

Lemma setup_profile_deadzone_updater (aa ad ro w : R) (ats cm cad : bool)
    (sim : Sim) :
  gas_updater (snd (setup_profile_deadzone aa ad ro w ats cm cad sim))
  = deadzone_gas_updater.
Proof.
  unfold setup_profile_deadzone.
  do 4 (unfold bind at 1, modify at 1).
  rewrite (keeps_setup_tail ats cad (rescale_Sigma_with_Alpha aa cm)
             assign_Delta_updaters).
  - reflexivity.
  - apply keeps_rescale.
  - unfold assign_Delta_updaters. keeps.
Qed.

(** C9: in the list of update steps that each setup function installs, the
    alpha step comes strictly after the scale height "Hp" and after the
    parameter group, and strictly before "nu", "rho", "P" and every other
    later step. *)
Theorem alpha_step_order :
  (forall Location Amplitude Width ty ats cm cad sim,
      gas_updater
        (snd (setup_profile_bumps Location Amplitude Width ty ats cm cad sim))
      = bumps_gas_updater)
  /\ (forall aa ad ro w ats cm cad sim,
        gas_updater (snd (setup_profile_deadzone aa ad ro w ats cm cad sim))
        = deadzone_gas_updater)
  /\ (forall l group,
        (l = bumps_gas_updater /\ group = "GaussianBumps"%string)
        \/ (l = deadzone_gas_updater /\ group = "DeadZone"%string) ->
        index_of "Hp" l = Some 4%nat
        /\ index_of group l = Some 5%nat
        /\ index_of "alpha" l = Some 6%nat
        /\ firstn 6 l = ["gamma"; "mu"; "T"; "cs"; "Hp"; group]%string
        /\ skipn 7 l = ["nu"; "rho"; "n"; "mfp"; "P"; "eta"; "S"]%string
        /\ (forall name k, index_of name (skipn 7 l) = Some k ->
              index_of name l = Some (7 + k)%nat)
        /\ index_of "nu" l = Some 7%nat
        /\ index_of "rho" l = Some 8%nat
        /\ index_of "P" l = Some 11%nat).
Proof.
  split; [intros; apply setup_profile_bumps_updater|].
  split; [intros; apply setup_profile_deadzone_updater|].
  intros l group [[-> ->] | [-> ->]].
  - repeat (split; [reflexivity|]).
    split; [|repeat split; reflexivity].
    intros name k H. cbn [bumps_gas_updater skipn index_of] in H.
    repeat match type of H with
           | context [String.eqb ?s name] =>
               destruct (String.eqb_spec s name) as [<- | _];
               [cbn in H; injection H as <-; reflexivity|]
           end.
    cbn in H. discriminate.
  - repeat (split; [reflexivity|]).
    split; [|repeat split; reflexivity].
    intros name k H. cbn [deadzone_gas_updater skipn index_of] in H.
    repeat match type of H with
           | context [String.eqb ?s name] =>
               destruct (String.eqb_spec s name) as [<- | _];
               [cbn in H; injection H as <-; reflexivity|]
           end.
    cbn in H. discriminate.
Qed.

(* ------------------------------------------------------------------ *)
(** * Further properties: what the builders read and return *)
(* ------------------------------------------------------------------ *)

Section ReadsOnly.

Lemma reads_only_ret {A} (a : A) : reads_only (ret a).
Proof. intros s. reflexivity. Qed.

Lemma reads_only_raise {A} (e : PyExn) : reads_only (@raise A e).
Proof. intros s. reflexivity. Qed.

Lemma reads_only_exit {A} (c : Z) : reads_only (@exit A c).
Proof. intros s. reflexivity. Qed.

Lemma reads_only_read {A} (f : Sim -> A) : reads_only (read f).
Proof. intros s. reflexivity. Qed.

Lemma reads_only_np {A} (o : option A) : reads_only (np o).
Proof. destruct o; intros s; reflexivity. Qed.

Lemma reads_only_attr {A} (o : option A) : reads_only (attr o).
Proof. destruct o; intros s; reflexivity. Qed.

Lemma reads_only_getitem (a : PyNum) (i : nat) : reads_only (getitem a i).
Proof.
  destruct a as [v | l]; [apply reads_only_raise|].
  unfold getitem.
  destruct (nth_error l i); [apply reads_only_ret | apply reads_only_raise].
Qed.

Lemma reads_only_bind {A B} (m : M A) (k : A -> M B) :
  reads_only m -> (forall a, reads_only (k a)) -> reads_only (bind m k).
Proof.
  intros Hm Hk s. unfold bind. specialize (Hm s).
  destruct (m s) as [[a | e | c] s']; simpl in *; try exact Hm.
  rewrite Hk. exact Hm.
Qed.

Lemma reads_or_exits_of_reads {A} (m : M A) : reads_only m -> reads_or_exits m.
Proof. intros H s. left. apply H. Qed.

Lemma reads_or_exits_bind {A B} (m : M A) (k : A -> M B) :
  reads_only m -> (forall a, reads_or_exits (k a)) -> reads_or_exits (bind m k).
Proof.
  intros Hm Hk s. unfold bind. specialize (Hm s).
  destruct (m s) as [[a | e | c] s']; simpl in *; subst s'; try (now left).
  apply Hk.
Qed.

Lemma reads_or_exits_then {A B} (m : M A) (k : A -> M B) :
  reads_or_exits m -> (forall a, reads_only (k a)) -> reads_or_exits (bind m k).
Proof.
  intros Hm Hk s. unfold bind. specialize (Hm s).
  destruct (m s) as [[a | e | c] s']; simpl in *.
  - destruct Hm as [-> | [Hf _]]; [left; apply Hk | discriminate].
  - destruct Hm as [-> | [Hf _]]; [now left | discriminate].
  - destruct Hm as [-> | [Hf ->]]; [now left|].
    right. injection Hf as ->. split; reflexivity.
Qed.

End ReadsOnly.

(** Decomposes a reading computation into its steps. *)
Ltac reads :=
  repeat first
    [ apply reads_only_ret | apply reads_only_raise | apply reads_only_exit
    | apply reads_only_read | apply reads_only_np | apply reads_only_attr
    | apply reads_only_getitem
    | apply reads_only_bind; [|intros ?] ].

Lemma reads_only_bumps_loop (r r_bumps : ndarray) (A_bumps sigma_bumps : PyNum)
    (range : list nat) :
  forall acc, reads_only (bumps_loop r r_bumps A_bumps sigma_bumps range acc).
Proof.
  induction range as [|i range IH]; intros acc; cbn [bumps_loop]; reads.
  apply IH.
Qed.

Lemma reads_or_exits_get_BumpProfile : reads_or_exits get_BumpProfile.
Proof.
  unfold get_BumpProfile.
  apply reads_or_exits_bind; [reads | intros bumps].
  apply reads_or_exits_bind; [reads | intros r].
  apply reads_or_exits_bind; [reads | intros Hp].
  apply reads_or_exits_bind; [reads | intros ip].
  apply reads_or_exits_bind; [reads | intros Hp_at].
  apply reads_or_exits_bind; [reads | intros wH].
  apply reads_or_exits_bind.
  - destruct (Location bumps); reads. apply reads_only_bumps_loop.
  - intros F.
    destruct (String.eqb (Type_ bumps) "GAP");
      [apply reads_or_exits_of_reads, reads_only_ret|].
    destruct (String.eqb (Type_ bumps) "BUMP");
      [apply reads_or_exits_of_reads, reads_only_ret|].
    intros s. right. split; reflexivity.
Qed.

Lemma reads_only_Alpha_DeadZone : reads_only Alpha_DeadZone.
Proof. unfold Alpha_DeadZone. reads. Qed.

Lemma reads_only_get_DiskMass : reads_only get_DiskMass.
Proof. unfold get_DiskMass. reads. Qed.

(** X1: the profile builders only read the simulation.  Whatever the
    simulation holds and whatever the outcome, [Alpha_DeadZone],
    [get_DiskMass] and [get_Alpha] leave it exactly as it was, and
    [get_BumpProfile] and [Alpha_Bump] do so too unless they end the process
    with [exit(0)], when the one line of output is the only change. *)
Theorem builders_only_read (sim : Sim) :
  snd (Alpha_DeadZone sim) = sim
  /\ snd (get_DiskMass sim) = sim
  /\ snd (get_Alpha sim) = sim
  /\ (snd (get_BumpProfile sim) = sim
      \/ (fst (get_BumpProfile sim) = SysExit 0
          /\ snd (get_BumpProfile sim)
             = add_stdout MsgProfileTypeNotDefined sim))
  /\ (snd (Alpha_Bump sim) = sim
      \/ (fst (Alpha_Bump sim) = SysExit 0
          /\ snd (Alpha_Bump sim) = add_stdout MsgProfileTypeNotDefined sim)).
Proof.
  split; [apply reads_only_Alpha_DeadZone|].
  split; [apply reads_only_get_DiskMass|].
  split; [reflexivity|].
  split; [apply reads_or_exits_get_BumpProfile|].
  unfold Alpha_Bump.
  apply (reads_or_exits_bind (read ini_gas_alpha)); [reads | intros alpha_0].
  apply reads_or_exits_then; [apply reads_or_exits_get_BumpProfile|].
  intros F. apply reads_only_ret.
Qed.

Section ResultLength.

Lemma inplace_length (f : R -> R -> R) (a c : ndarray) (b : PyNum) :
  inplace f a b = Some c -> length c = length a.
Proof.
  unfold inplace. destruct b as [y | b'].
  - intros H. injection H as <-. apply length_map.
  - destruct (Nat.eqb (length b') (length a)) eqn:E.
    + apply Nat.eqb_eq in E. intros H. injection H as <-.
      apply length_map2. congruence.
    + destruct b' as [|y [|z b'']]; try discriminate.
      intros H. injection H as <-. apply length_map.
Qed.

Lemma returns_length_bind {A} (n : nat) (m : M A) (k : A -> M ndarray) :
  (forall a, returns_length n (k a)) -> returns_length n (bind m k).
Proof.
  intros Hk s F. unfold bind.
  destruct (m s) as [[a | e | c] s']; simpl; try discriminate.
  apply Hk.
Qed.

Lemma returns_length_then (n : nat) (m : M ndarray) (k : ndarray -> M ndarray) :
  returns_length n m ->
  (forall a, length a = n -> returns_length n (k a)) ->
  returns_length n (bind m k).
Proof.
  intros Hm Hk s F. unfold bind. specialize (Hm s).
  destruct (m s) as [[a | e | c] s']; simpl in *; try discriminate.
  apply Hk. now apply Hm.
Qed.

Lemma returns_length_ret (a : ndarray) : returns_length (length a) (ret a).
Proof. intros s F H. injection H as <-. reflexivity. Qed.

Lemma returns_length_inplace (f : R -> R -> R) (a : ndarray) (b : PyNum) :
  returns_length (length a) (np (inplace f a b)).
Proof.
  intros s F. destruct (inplace f a b) as [c|] eqn:E; simpl; [|discriminate].
  intros H. injection H as <-. now apply inplace_length in E.
Qed.

Lemma returns_length_bumps_loop (r r_bumps : ndarray)
    (A_bumps sigma_bumps : PyNum) (n : nat) (range : list nat) :
  forall acc, length acc = n ->
    returns_length n (bumps_loop r r_bumps A_bumps sigma_bumps range acc).
Proof.
  induction range as [|i range IH]; intros acc Hacc; cbn [bumps_loop].
  - rewrite <- Hacc. apply returns_length_ret.
  - do 4 (apply returns_length_bind; intros ?).
    intros s F. unfold bind.
    destruct (inplace Rplus acc a2) as [c|] eqn:E; simpl; [|discriminate].
    apply IH. apply inplace_length in E. congruence.
Qed.

End ResultLength.

(** X2: whatever the parameter group holds (numbers, arrays, of any
    lengths), an array returned by the bump builder, and the alpha profile
    built on it, has exactly one entry per grid cell. *)
Theorem bump_profile_length (sim : Sim) (F : ndarray) :
  fst (get_BumpProfile sim) = Ok F \/ fst (Alpha_Bump sim) = Ok F ->
  length F = length (grid_r sim).
Proof.
  assert (Hg : forall s G, fst (get_BumpProfile s) = Ok G ->
                           length G = length (grid_r s)).
  { intros s G. unfold get_BumpProfile.
    unfold bind at 1.
    destruct (bind (read gas_GaussianBumps) attr s) as [[bumps | e | c] s1] eqn:E1;
      simpl; try discriminate.
    assert (s1 = s) as ->.
    { pose proof (reads_only_bind (read gas_GaussianBumps) attr
                    (reads_only_read _) (@reads_only_attr _) s) as H.
      rewrite E1 in H. exact H. }
    unfold bind at 1, read at 1. cbv beta iota.
    revert G. apply (returns_length_bind (length (grid_r s))); intros Hp.
    apply returns_length_bind; intros ip.
    apply returns_length_bind; intros Hp_at.
    apply returns_length_bind; intros wH.
    apply returns_length_then.
    - destruct (Location bumps).
      + apply returns_length_bind; intros g.
        rewrite <- (length_map (fun _ => 1) (grid_r s)).
        apply returns_length_inplace.
      + apply returns_length_bumps_loop. apply length_map.
    - intros a Ha.
      destruct (String.eqb (Type_ bumps) "GAP").
      { rewrite <- Ha. apply returns_length_ret. }
      destruct (String.eqb (Type_ bumps) "BUMP").
      { rewrite <- Ha, <- (length_map (fun t => 1 / t) a).
        apply returns_length_ret. }
      intros s' F' H. discriminate. }
  intros [H | H]; [now apply Hg|].
  unfold Alpha_Bump, bind, read in H.
  destruct (get_BumpProfile sim) as [[G | e | c] s'] eqn:E; simpl in H;
    try discriminate.
  injection H as <-. rewrite length_map. apply Hg. now rewrite E.
Qed.

Lemma bump_profile_length_witness :
  length (factor_spec single_gap_sim [3] [4] [1]) = 5%nat.
Proof.
  rewrite (bump_profile_length single_gap_sim
             (factor_spec single_gap_sim [3] [4] [1])); [reflexivity|].
  left.
  rewrite (get_BumpProfile_lists single_gap_sim
             (mkGaussianBumps (Scalar 3) (Scalar 4) (Scalar 1) "GAP" [])
             [3] [4] [1]).
  - reflexivity.
  - reflexivity.
  - reflexivity.
  - reflexivity.
  - discriminate.
  - constructor; [unfold in_range; simpl; lra | constructor].
Defined.

(* ------------------------------------------------------------------ *)
(** * Further properties: malformed bump groups *)
(* ------------------------------------------------------------------ *)

(** The builder once the group is found and the interpolator is built. *)
Lemma get_BumpProfile_interpolated (sim : Sim) (b : GaussianBumps) :
  gas_GaussianBumps sim = Some b ->
  length (gas_Hp sim) = length (grid_r sim) -> grid_r sim <> [] ->
  get_BumpProfile sim
  = (Hp_at <- np (Interp.call
                    (Interp.mkInterpolator (grid_r sim) (gas_Hp sim))
                    (Location b)) ;;
     wH <- np (binop Rmult (Width b) Hp_at) ;;
     let sigma_bumps := ufunc (fun t => t / (2 * sqrt (2 * ln 2))) wH in
     bump_profile <-
       match Location b with
       | Scalar _ =>
           g <- np (Gaussian (Array (grid_r sim)) (Location b) (Amplitude b)
                      sigma_bumps) ;;
           np (inplace Rplus (ones_like (grid_r sim)) g)
       | Array l =>
           bumps_loop (grid_r sim) l (Amplitude b) sigma_bumps
             (seq 0 (length l)) (ones_like (grid_r sim))
       end ;;
     bump_result (Type_ b) bump_profile) sim.
Proof.
  intros Hb HlH Hne. unfold get_BumpProfile.
  unfold bind at 1. unfold bind at 1. unfold read at 1. rewrite Hb.
  cbn [attr]. unfold ret at 1.
  unfold bind at 1. unfold read at 1.
  unfold bind at 1. unfold read at 1.
  rewrite (interp1d_ok _ _ HlH Hne). cbn [np].
  unfold bind at 1. unfold ret at 1.
  reflexivity.
Qed.

Section OutOfRange.

Lemma in_bounds_false (ip : Interp.Interpolator) (v : R) :
  v < hd 0 (Interp.xs ip) \/ last (Interp.xs ip) 0 < v ->
  Interp.in_bounds ip v = false.
Proof.
  intros H. unfold Interp.in_bounds, Rltb.
  destruct (Rlt_dec v (hd 0 (Interp.xs ip))); [reflexivity|].
  destruct (Rlt_dec (last (Interp.xs ip) 0) v); [reflexivity | lra].
Qed.

Lemma in_bounds_some_false (ip : Interp.Interpolator) (l : ndarray) :
  Exists (fun v => v < hd 0 (Interp.xs ip) \/ last (Interp.xs ip) 0 < v) l ->
  forallb (Interp.in_bounds ip) l = false.
Proof.
  induction 1 as [v l Hv | v l _ IH]; simpl.
  - now rewrite in_bounds_false.
  - rewrite IH. apply andb_false_r.
Qed.

Lemma call_out_of_range (ip : Interp.Interpolator) (loc : PyNum) :
  Exists (fun v => v < hd 0 (Interp.xs ip) \/ last (Interp.xs ip) 0 < v)
    (location_list loc) ->
  Interp.call ip loc = None.
Proof.
  destruct loc as [v | l]; simpl; intros H.
  - inversion H as [? ? Hv | ? ? Hn]; subst; [|inversion Hn].
    now rewrite in_bounds_false.
  - now rewrite in_bounds_some_false.
Qed.

End OutOfRange.

(** X3: a bump located outside the radial grid is rejected.  With the
    scale height aligned on a grid that is not empty, if one location lies
    below the first or above the last radius, the bump builder and the
    alpha profile built on it raise [ValueError] (the interpolator does not
    extrapolate), whatever the amplitudes, the widths and the kind, and the
    simulation is left as it was. *)
Theorem bump_outside_grid_rejected (sim : Sim) (b : GaussianBumps) :
  gas_GaussianBumps sim = Some b ->
  length (gas_Hp sim) = length (grid_r sim) -> grid_r sim <> [] ->
  Exists (fun v => v < hd 0 (grid_r sim) \/ last (grid_r sim) 0 < v)
    (location_list (Location b)) ->
  get_BumpProfile sim = (Raise ValueError, sim)
  /\ Alpha_Bump sim = (Raise ValueError, sim).
Proof.
  intros Hb HlH Hne Hout.
  assert (H : get_BumpProfile sim = (Raise ValueError, sim)).
  { rewrite (get_BumpProfile_interpolated sim b Hb HlH Hne).
    unfold bind at 1. rewrite call_out_of_range by exact Hout. reflexivity. }
  split; [exact H|]. unfold Alpha_Bump, bind, read. now rewrite H.
Qed.

Lemma bump_outside_grid_rejected_witness :
  get_BumpProfile
    (set_gas_GaussianBumps
       (Some (mkGaussianBumps (Array [3; 7]) (Array [4; 4]) (Array [1; 1])
                "GAP" []))
       example_sim)
  = (Raise ValueError,
     set_gas_GaussianBumps
       (Some (mkGaussianBumps (Array [3; 7]) (Array [4; 4]) (Array [1; 1])
                "GAP" []))
       example_sim).
Proof.
  apply (bump_outside_grid_rejected
           (set_gas_GaussianBumps
              (Some (mkGaussianBumps (Array [3; 7]) (Array [4; 4])
                       (Array [1; 1]) "GAP" []))
              example_sim)
           (mkGaussianBumps (Array [3; 7]) (Array [4; 4]) (Array [1; 1])
              "GAP" [])).
  - reflexivity.
  - reflexivity.
  - discriminate.
  - simpl. apply Exists_cons_tl, Exists_cons_hd. right. lra.
Defined.

Section ShortArrays.

Lemma getitem_past_end (l : ndarray) (i : nat) (sim : Sim) :
  (length l <= i)%nat -> getitem (Array l) i sim = (Raise IndexError, sim).
Proof.
  intros H. unfold getitem.
  now rewrite (proj2 (nth_error_None l i) H).
Qed.

(** The loop stops with [IndexError] at the first bump that has no
    amplitude. *)
Lemma bumps_loop_short (r : ndarray) (sim : Sim) :
  forall sufA suf sufS pre preA preS acc,
    length preA = length pre -> length preS = length pre ->
    (length sufA < length suf)%nat -> length sufS = length suf ->
    length acc = length r ->
    bumps_loop r (pre ++ suf) (Array (preA ++ sufA)) (Array (preS ++ sufS))
      (seq (length pre) (length suf)) acc sim
    = (Raise IndexError, sim).
Proof.
  induction sufA as [|A sufA IH];
    intros [|r0 suf] [|s sufS] pre preA preS acc HA HS HsA HsS Hacc;
    simpl in HsA, HsS; try discriminate; try lia.
  - cbn [length seq bumps_loop].
    rewrite (bind_ok _ _ _ _ _ (getitem_app pre suf r0 sim)).
    unfold bind at 1.
    rewrite getitem_past_end by (rewrite app_nil_r; lia). reflexivity.
  - cbn [length seq bumps_loop].
    rewrite (bind_ok _ _ _ _ _ (getitem_app pre suf r0 sim)).
    rewrite <- HA at 1.
    rewrite (bind_ok _ _ _ _ _ (getitem_app preA sufA A sim)).
    rewrite <- HS at 1.
    rewrite (bind_ok _ _ _ _ _ (getitem_app preS sufS s sim)).
    rewrite Gaussian_array. cbn [np]. unfold ret at 1. unfold bind at 1.
    rewrite inplace_aligned by (rewrite length_map; lia).
    cbn [np]. unfold ret at 1. unfold bind at 1.
    replace (pre ++ r0 :: suf) with ((pre ++ [r0]) ++ suf)
      by (now rewrite <- app_assoc).
    replace (preA ++ A :: sufA) with ((preA ++ [A]) ++ sufA)
      by (now rewrite <- app_assoc).
    replace (preS ++ s :: sufS) with ((preS ++ [s]) ++ sufS)
      by (now rewrite <- app_assoc).
    replace (S (length pre)) with (length (pre ++ [r0]))
      by (rewrite length_app; simpl; lia).
    apply IH.
    + rewrite !length_app. simpl. lia.
    + rewrite !length_app. simpl. lia.
    + lia.
    + lia.
    + rewrite length_map2; [exact Hacc|]. rewrite length_map. exact Hacc.
Qed.

End ShortArrays.

(** X4: fewer amplitudes than locations is an error.  For arrays of bumps
    inside the grid, with as many widths as locations but fewer amplitudes,
    the loop over the bumps runs out of amplitudes: the builder and the
    alpha profile raise [IndexError] and the simulation is left as it was. *)
Theorem too_few_amplitudes_rejected (sim : Sim) (b : GaussianBumps)
    (locs amps widths : list R) :
  gas_GaussianBumps sim = Some b ->
  Location b = Array locs -> Amplitude b = Array amps -> Width b = Array widths ->
  (length amps < length locs)%nat -> length widths = length locs ->
  length (gas_Hp sim) = length (grid_r sim) -> grid_r sim <> [] ->
  Forall (in_range (grid_r sim)) locs ->
  get_BumpProfile sim = (Raise IndexError, sim)
  /\ Alpha_Bump sim = (Raise IndexError, sim).
Proof.
  intros Hb HL HA HW Hla Hlw HlH Hne Hin.
  assert (H : get_BumpProfile sim = (Raise IndexError, sim)).
  { rewrite (get_BumpProfile_interpolated sim b Hb HlH Hne).
    rewrite HL, HA, HW. cbn [Interp.call].
    rewrite in_bounds_all by exact Hin. cbn [np].
    unfold bind at 1. unfold ret at 1.
    cbn [binop]. rewrite broadcast2_aligned by (rewrite length_map; exact Hlw).
    cbn [option_map np]. unfold bind at 1. unfold ret at 1.
    cbn [ufunc]. unfold bind at 1.
    pose proof (bumps_loop_short (grid_r sim) sim amps locs
                  (map (fun t => t / (2 * sqrt (2 * ln 2)))
                     (map2 Rmult widths
                        (map (Interp.linear
                                (Interp.mkInterpolator (grid_r sim) (gas_Hp sim)))
                           locs)))
                  [] [] [] (ones_like (grid_r sim))) as Hloop.
    cbn [app length] in Hloop. rewrite Hloop; clear Hloop.
    - reflexivity.
    - reflexivity.
    - reflexivity.
    - exact Hla.
    - rewrite length_map, length_map2; [exact Hlw|].
      rewrite length_map. exact Hlw.
    - unfold ones_like. now rewrite length_map. }
  split; [exact H|]. unfold Alpha_Bump, bind, read. now rewrite H.
Qed.

Lemma too_few_amplitudes_rejected_witness :
  get_BumpProfile
    (set_gas_GaussianBumps
       (Some (mkGaussianBumps (Array [2; 4]) (Array [4]) (Array [1; 1])
                "GAP" []))
       example_sim)
  = (Raise IndexError,
     set_gas_GaussianBumps
       (Some (mkGaussianBumps (Array [2; 4]) (Array [4]) (Array [1; 1])
                "GAP" []))
       example_sim).
Proof.
  apply (too_few_amplitudes_rejected
           (set_gas_GaussianBumps
              (Some (mkGaussianBumps (Array [2; 4]) (Array [4])
                       (Array [1; 1]) "GAP" []))
              example_sim)
           (mkGaussianBumps (Array [2; 4]) (Array [4]) (Array [1; 1]) "GAP" [])
           [2; 4] [4] [1; 1]).
  - reflexivity.
  - reflexivity.
  - reflexivity.
  - reflexivity.
  - simpl. lia.
  - reflexivity.
  - reflexivity.
  - discriminate.
  - repeat constructor; simpl; lra.
Defined.



Section LenientArrays.

Lemma bind_ext {A B} (m : M A) (k k' : A -> M B) (s : Sim) :
  (forall a s', k a s' = k' a s') -> bind m k s = bind m k' s.
Proof.
  intros H. unfold bind. destruct (m s) as [[a | e | c] s']; [apply H | | ];
    reflexivity.
Qed.

(** The loop reads the amplitudes only at the indices it visits. *)
Lemma bumps_loop_amplitudes (r r_bumps Ab Ab' : ndarray) (sigma_bumps : PyNum) :
  forall range acc sim,
    (forall i, In i range -> nth_error Ab i = nth_error Ab' i) ->
    bumps_loop r r_bumps (Array Ab) sigma_bumps range acc sim
    = bumps_loop r r_bumps (Array Ab') sigma_bumps range acc sim.
Proof.
  induction range as [|i range IH]; intros acc sim H; [reflexivity|].
  cbn [bumps_loop].
  apply bind_ext. intros r0 s1.
  assert (E : getitem (Array Ab) i = getitem (Array Ab') i).
  { unfold getitem. now rewrite (H i (or_introl eq_refl)). }
  rewrite E.
  apply bind_ext. intros A s2.
  apply bind_ext. intros sg s3.
  apply bind_ext. intros g s4.
  apply bind_ext. intros acc' s5.
  apply IH. intros j Hj. apply H. now right.
Qed.

Lemma map2_repeat (w : R) (H : ndarray) :
  map2 Rmult (repeat w (length H)) H = map (Rmult w) H.
Proof. induction H as [|h H IH]; simpl; [reflexivity | now rewrite IH]. Qed.

End LenientArrays.

(** Arrays of bumps inside the grid, with surplus amplitudes allowed and
    the widths given through the product the builder forms with them. *)
Lemma get_BumpProfile_lenient (sim : Sim) (b : GaussianBumps)
    (locs amps extra widths : list R) :
  gas_GaussianBumps sim = Some b ->
  Location b = Array locs -> Amplitude b = Array (amps ++ extra) ->
  length amps = length locs -> length widths = length locs ->
  binop Rmult (Width b)
    (Array (map (Interp.linear
                   (Interp.mkInterpolator (grid_r sim) (gas_Hp sim))) locs))
  = Some (Array (map2 Rmult widths
                   (map (Interp.linear
                           (Interp.mkInterpolator (grid_r sim) (gas_Hp sim)))
                      locs))) ->
  length (gas_Hp sim) = length (grid_r sim) -> grid_r sim <> [] ->
  Forall (in_range (grid_r sim)) locs ->
  get_BumpProfile sim
  = bump_result (Type_ b) (factor_spec sim locs amps widths) sim.
Proof.
  intros Hb HL HA Hla Hlw Hprod HlH Hne Hin.
  rewrite (get_BumpProfile_interpolated sim b Hb HlH Hne).
  rewrite HL, HA. cbn [Interp.call].
  rewrite in_bounds_all by exact Hin. cbn [np].
  unfold bind at 1. unfold ret at 1.
  rewrite Hprod. cbn [np]. unfold bind at 1. unfold ret at 1.
  cbn [ufunc]. unfold bind at 1.
  rewrite (bumps_loop_amplitudes _ _ (amps ++ extra) amps).
  2:{ intros i Hi. apply in_seq in Hi.
      apply nth_error_app1. lia. }
  pose proof (bumps_loop_app (grid_r sim) sim locs amps
                (map (fun t => t / (2 * sqrt (2 * ln 2)))
                   (map2 Rmult widths
                      (map (Interp.linear
                              (Interp.mkInterpolator (grid_r sim) (gas_Hp sim)))
                         locs)))
                [] [] [] (ones_like (grid_r sim))) as Hloop.
  cbn [app length] in Hloop. rewrite Hloop; clear Hloop.
  - rewrite map2_ones.
    unfold factor_spec, Hp_interp.
    erewrite map_ext; [reflexivity|].
    intros x. cbv beta. now rewrite gauss_sum_sigma.
  - reflexivity.
  - reflexivity.
  - exact Hla.
  - rewrite length_map, length_map2; [exact Hlw|].
    rewrite length_map. exact Hlw.
  - unfold ones_like. now rewrite length_map.
Qed.

(** X6: surplus amplitudes are ignored without a word.  For arrays of
    bumps inside the grid with as many widths as locations, amplitudes
    beyond the number of locations play no part: the builder returns the
    factor of the first amplitudes alone (or its reciprocal for BUMP). *)
Theorem surplus_amplitudes_ignored (sim : Sim) (b : GaussianBumps)
    (locs amps extra widths : list R) :
  gas_GaussianBumps sim = Some b ->
  Location b = Array locs -> Amplitude b = Array (amps ++ extra) ->
  Width b = Array widths ->
  length amps = length locs -> length widths = length locs ->
  length (gas_Hp sim) = length (grid_r sim) -> grid_r sim <> [] ->
  Forall (in_range (grid_r sim)) locs ->
  (Type_ b = "GAP"%string ->
     get_BumpProfile sim = (Ok (factor_spec sim locs amps widths), sim))
  /\ (Type_ b = "BUMP"%string ->
        get_BumpProfile sim
        = (Ok (map (fun f => 1 / f) (factor_spec sim locs amps widths)), sim)).
Proof.
  intros Hb HL HA HW Hla Hlw HlH Hne Hin.
  assert (H : get_BumpProfile sim
              = bump_result (Type_ b) (factor_spec sim locs amps widths) sim).
  { apply (get_BumpProfile_lenient sim b locs amps extra widths);
      try assumption.
    rewrite HW. cbn [binop].
    now rewrite broadcast2_aligned by (rewrite length_map; exact Hlw). }
  split; intros Hty; rewrite H, Hty; reflexivity.
Qed.

Lemma surplus_amplitudes_ignored_witness :
  get_BumpProfile
    (set_gas_GaussianBumps
       (Some (mkGaussianBumps (Array [3]) (Array [4; 9; 9]) (Array [1])
                "GAP" []))
       example_sim)
  = (Ok (factor_spec example_sim [3] [4] [1]),
     set_gas_GaussianBumps
       (Some (mkGaussianBumps (Array [3]) (Array [4; 9; 9]) (Array [1])
                "GAP" []))
       example_sim).
Proof.
  destruct (surplus_amplitudes_ignored
              (set_gas_GaussianBumps
                 (Some (mkGaussianBumps (Array [3]) (Array [4; 9; 9])
                          (Array [1]) "GAP" []))
                 example_sim)
              (mkGaussianBumps (Array [3]) (Array [4; 9; 9]) (Array [1])
                 "GAP" [])
              [3] [4] [9; 9] [1]) as [Hgap _].
  - reflexivity.
  - reflexivity.
  - reflexivity.
  - reflexivity.
  - reflexivity.
  - reflexivity.
  - reflexivity.
  - discriminate.
  - repeat constructor; simpl; lra.
  - apply Hgap. reflexivity.
Defined.

(** X7: one width serves all bumps.  For arrays of locations and
    amplitudes of one length inside the grid, a width given as a plain
    number, or as an array of one entry, is shared by all the bumps: the
    builder returns the factor it returns for that width repeated once per
    bump. *)
Theorem single_width_shared (sim : Sim) (b : GaussianBumps)
    (locs amps : list R) (w : R) :
  gas_GaussianBumps sim = Some b ->
  Location b = Array locs -> Amplitude b = Array amps ->
  Width b = Scalar w \/ Width b = Array [w] ->
  length amps = length locs ->
  length (gas_Hp sim) = length (grid_r sim) -> grid_r sim <> [] ->
  Forall (in_range (grid_r sim)) locs ->
  (Type_ b = "GAP"%string ->
     get_BumpProfile sim
     = (Ok (factor_spec sim locs amps (repeat w (length locs))), sim))
  /\ (Type_ b = "BUMP"%string ->
        get_BumpProfile sim
        = (Ok (map (fun f => 1 / f)
                 (factor_spec sim locs amps (repeat w (length locs)))), sim)).
Proof.
  intros Hb HL HA HW Hla HlH Hne Hin.
  assert (H : get_BumpProfile sim
              = bump_result (Type_ b)
                  (factor_spec sim locs amps (repeat w (length locs))) sim).
  { apply (get_BumpProfile_lenient sim b locs amps [] (repeat w (length locs)));
      try assumption.
    - now rewrite app_nil_r.
    - apply repeat_length.
    - set (H := map (Interp.linear
                       (Interp.mkInterpolator (grid_r sim) (gas_Hp sim))) locs).
      assert (Hlen : length locs = length H) by (unfold H; now rewrite length_map).
      rewrite Hlen, map2_repeat.
      destruct HW as [-> | ->]; cbn [binop]; [reflexivity|].
      unfold broadcast2.
      destruct (Nat.eqb (length [w]) (length H)) eqn:E; [|reflexivity].
      apply Nat.eqb_eq in E.
      destruct H as [|h [|h' H']]; simpl in E; try discriminate.
      reflexivity. }
  split; intros Hty; rewrite H, Hty; reflexivity.
Qed.

Lemma single_width_shared_witness :
  get_BumpProfile
    (set_gas_GaussianBumps
       (Some (mkGaussianBumps (Array [2; 4]) (Array [4; 2]) (Array [1])
                "GAP" []))
       example_sim)
  = (Ok (factor_spec example_sim [2; 4] [4; 2] [1; 1]),
     set_gas_GaussianBumps
       (Some (mkGaussianBumps (Array [2; 4]) (Array [4; 2]) (Array [1])
                "GAP" []))
       example_sim).
Proof.
  destruct (single_width_shared
              (set_gas_GaussianBumps
                 (Some (mkGaussianBumps (Array [2; 4]) (Array [4; 2])
                          (Array [1]) "GAP" []))
                 example_sim)
              (mkGaussianBumps (Array [2; 4]) (Array [4; 2]) (Array [1])
                 "GAP" [])
              [2; 4] [4; 2] 1) as [Hgap _].
  - reflexivity.
  - reflexivity.
  - reflexivity.
  - right. reflexivity.
  - reflexivity.
  - reflexivity.
  - discriminate.
  - repeat constructor; simpl; lra.
  - apply Hgap. reflexivity.
Defined.

(* ------------------------------------------------------------------ *)
(** * Further properties: the shape of the bumps *)
(* ------------------------------------------------------------------ *)

Section HalfMaximum.

Lemma exp_minus_ln2 : exp (- ln 2) = / 2.
Proof. rewrite exp_Ropp, exp_ln by lra. reflexivity. Qed.

(** At half the full width from the centre the bell is one half. *)
Lemma bell_half_maximum (s d : R) :
  0 < s -> d = s / 2 \/ d = - (s / 2) ->
  exp (-0.5 * (d / (s / (2 * sqrt (2 * ln 2)))) ^ 2) = / 2.
Proof.
  intros Hs Hd.
  assert (Hl : 0 < 2 * ln 2) by (pose proof ln_lt_2; lra).
  assert (Hq : 0 < sqrt (2 * ln 2)) by (apply sqrt_lt_R0; exact Hl).
  assert (Hsq : sqrt (2 * ln 2) ^ 2 = 2 * ln 2) by (apply pow2_sqrt; lra).
  rewrite <- exp_minus_ln2. f_equal.
  assert (E : (d / (s / (2 * sqrt (2 * ln 2)))) ^ 2 = sqrt (2 * ln 2) ^ 2).
  { destruct Hd as [-> | ->].
    - f_equal. field. split; lra.
    - replace (- (s / 2) / (s / (2 * sqrt (2 * ln 2))))
        with (- sqrt (2 * ln 2)) by (field; split; lra).
      simpl. ring. }
  rewrite E, Hsq. lra.
Qed.

End HalfMaximum.

(** X8: the width is the full width at half maximum.  For one bump of
    positive width inside an increasing grid with a positive scale height,
    the GAP factor is 1 + A in a cell at the centre and 1 + A/2 in a cell
    half the width times the interpolated scale height away from it, on
    either side; the BUMP profile is the reciprocal. *)
Theorem single_bump_peak_and_half_width (sim : Sim) (b : GaussianBumps)
    (r0 A w : R) :
  gas_GaussianBumps sim = Some b ->
  bump_lists b = Some ([r0], [A], [w]) ->
  increasing (grid_r sim) -> (2 <= length (grid_r sim))%nat ->
  length (gas_Hp sim) = length (grid_r sim) ->
  in_range (grid_r sim) r0 ->
  Forall (fun h => 0 < h) (gas_Hp sim) -> 0 < w ->
  exists F,
    (Type_ b = "GAP"%string -> get_BumpProfile sim = (Ok F, sim))
    /\ (Type_ b = "BUMP"%string ->
          get_BumpProfile sim = (Ok (map (fun f => 1 / f) F), sim))
    /\ 0 < Hp_interp sim r0
    /\ (forall j, (j < length (grid_r sim))%nat ->
          nth j (grid_r sim) 0 = r0 -> nth j F 0 = 1 + A)
    /\ (forall j, (j < length (grid_r sim))%nat ->
          nth j (grid_r sim) 0 = r0 + w * Hp_interp sim r0 / 2
          \/ nth j (grid_r sim) 0 = r0 - w * Hp_interp sim r0 / 2 ->
          nth j F 0 = 1 + A / 2).
Proof.
  intros Hb Hl Hinc Hlen HlH Hin HHp Hw.
  assert (Hins : Forall (in_range (grid_r sim)) [r0])
    by (constructor; [exact Hin | constructor]).
  pose proof (get_BumpProfile_lists sim b [r0] [A] [w] Hb Hl HlH
                (nonempty_of_length _ Hlen) Hins) as Heval.
  assert (HH : 0 < Hp_interp sim r0)
    by (unfold Hp_interp; now apply linear_positive).
  assert (Hnth : forall j, (j < length (grid_r sim))%nat ->
            nth j (factor_spec sim [r0] [A] [w]) 0
            = 1 + (A * exp (-0.5 * ((nth j (grid_r sim) 0 - r0)
                                     / fwhm_sigma (Hp_interp sim) w r0) ^ 2) + 0)).
  { intros j Hj. unfold factor_spec.
    exact (nth_map_lt
             (fun rj => 1 + bump_sum (Hp_interp sim) rj [r0] [A] [w])
             (grid_r sim) j 0 0 Hj). }
  exists (factor_spec sim [r0] [A] [w]).
  split; [intros Hty; rewrite Heval, Hty; reflexivity|].
  split; [intros Hty; rewrite Heval, Hty; reflexivity|].
  split; [exact HH|].
  split.
  - intros j Hj Hr. rewrite (Hnth j Hj), Hr.
    replace (r0 - r0) with 0 by ring. rewrite bell_centre. ring.
  - intros j Hj Hr. rewrite (Hnth j Hj). unfold fwhm_sigma.
    rewrite (bell_half_maximum (w * Hp_interp sim r0)
               (nth j (grid_r sim) 0 - r0)).
    + field.
    + nra.
    + destruct Hr as [-> | ->]; [left | right]; ring.
Qed.

Lemma single_bump_peak_and_half_width_witness :
  exists F,
    get_BumpProfile single_gap_sim = (Ok F, single_gap_sim)
    /\ nth 2 F 0 = 1 + 4.
Proof.
  destruct (single_bump_peak_and_half_width single_gap_sim
              (mkGaussianBumps (Scalar 3) (Scalar 4) (Scalar 1) "GAP" [])
              3 4 1)
    as [F [Hgap [_ [_ [Hpeak _]]]]].
  - reflexivity.
  - reflexivity.
  - simpl. lra.
  - simpl. lia.
  - reflexivity.
  - unfold in_range. simpl. lra.
  - simpl. repeat constructor; lra.
  - lra.
  - exists F. split; [apply Hgap; reflexivity|].
    apply Hpeak; [simpl; lia | reflexivity].
Defined.

Section FactorBounds.

Lemma pos_part_sum_nonneg (amps : list R) : 0 <= pos_part_sum amps.
Proof.
  induction amps as [|A amps IH]; simpl; [lra|].
  pose proof (Rmax_r A 0). lra.
Qed.

Lemma kernel_le_pos_part (A q : R) : A * exp (-0.5 * q ^ 2) <= Rmax A 0.
Proof.
  destruct (bell_range q) as [Hp H1].
  unfold Rmax. destruct (Rle_dec A 0); nra.
Qed.

Lemma bump_sum_le_pos_part (H : R -> R) (x : R) :
  forall amps locs widths,
    bump_sum H x locs amps widths <= pos_part_sum amps.
Proof.
  induction amps as [|A amps IH]; intros locs widths.
  - destruct locs; simpl; lra.
  - destruct locs as [|r0 locs]; [simpl bump_sum; apply pos_part_sum_nonneg|].
    destruct widths as [|w widths];
      [simpl bump_sum; apply pos_part_sum_nonneg|].
    cbn [pos_part_sum bump_sum].
    pose proof (kernel_le_pos_part A ((x - r0) / fwhm_sigma H w r0)).
    pose proof (IH locs widths). lra.
Qed.

Lemma neg_part_sum_zero (amps : list R) :
  Forall (fun A => 0 <= A) amps -> neg_part_sum amps = 0.
Proof.
  induction 1 as [|A amps HA _ IH]; simpl; [reflexivity|].
  rewrite IH. unfold Rmin. destruct (Rle_dec A 0); lra.
Qed.

End FactorBounds.

(** X9: the factor stays between 1 plus the negative parts and 1 plus the
    positive parts of the amplitudes.  For a well-formed group of bumps of
    positive widths inside an increasing grid with a positive scale height,
    every entry of the GAP factor F satisfies
    1 + Sum_i min(A_i, 0) <= F[j] <= 1 + Sum_i max(A_i, 0); with amplitudes
    that are all >= 0 the factor is at least 1, so the BUMP profile 1/F lies
    in (0, 1]. *)
Theorem factor_bounds (sim : Sim) (b : GaussianBumps)
    (locs amps widths : list R) :
  gas_GaussianBumps sim = Some b ->
  bump_lists b = Some (locs, amps, widths) ->
  increasing (grid_r sim) -> (2 <= length (grid_r sim))%nat ->
  length (gas_Hp sim) = length (grid_r sim) ->
  Forall (in_range (grid_r sim)) locs ->
  Forall (fun h => 0 < h) (gas_Hp sim) ->
  Forall (fun w => 0 < w) widths ->
  exists F,
    (Type_ b = "GAP"%string -> get_BumpProfile sim = (Ok F, sim))
    /\ (Type_ b = "BUMP"%string ->
          get_BumpProfile sim = (Ok (map (fun f => 1 / f) F), sim))
    /\ (forall j, (j < length (grid_r sim))%nat ->
          1 + neg_part_sum amps <= nth j F 0 <= 1 + pos_part_sum amps)
    /\ (Forall (fun A => 0 <= A) amps ->
          forall j, (j < length (grid_r sim))%nat ->
            1 <= nth j F 0
            /\ 0 < nth j (map (fun f => 1 / f) F) 0 <= 1).
Proof.
  intros Hb Hl Hinc Hlen HlH Hin HHp Hw.
  pose proof (get_BumpProfile_lists sim b locs amps widths Hb Hl HlH
                (nonempty_of_length _ Hlen) Hin) as Heval.
  assert (Hnth : forall j, (j < length (grid_r sim))%nat ->
            nth j (factor_spec sim locs amps widths) 0
            = 1 + bump_sum (Hp_interp sim) (nth j (grid_r sim) 0)
                    locs amps widths).
  { intros j Hj. unfold factor_spec.
    exact (nth_map_lt
             (fun rj => 1 + bump_sum (Hp_interp sim) rj locs amps widths)
             (grid_r sim) j 0 0 Hj). }
  assert (Hb2 : forall j, (j < length (grid_r sim))%nat ->
            1 + neg_part_sum amps <= nth j (factor_spec sim locs amps widths) 0
            <= 1 + pos_part_sum amps).
  { intros j Hj. rewrite (Hnth j Hj).
    pose proof (bump_sum_ge_neg_part (Hp_interp sim) (nth j (grid_r sim) 0)
                  amps locs widths).
    pose proof (bump_sum_le_pos_part (Hp_interp sim) (nth j (grid_r sim) 0)
                  amps locs widths).
    lra. }
  exists (factor_spec sim locs amps widths).
  split; [intros Hty; rewrite Heval, Hty; reflexivity|].
  split; [intros Hty; rewrite Heval, Hty; reflexivity|].
  split; [exact Hb2|].
  intros Hpos j Hj.
  assert (H1 : 1 <= nth j (factor_spec sim locs amps widths) 0).
  { destruct (Hb2 j Hj) as [Hlo _].
    rewrite (neg_part_sum_zero amps Hpos) in Hlo. lra. }
  split; [exact H1|].
  rewrite (nth_map_lt (fun f => 1 / f) (factor_spec sim locs amps widths) j 0 0)
    by (unfold factor_spec; now rewrite length_map).
  split.
  - apply Rdiv_lt_0_compat; lra.
  - apply Rmult_le_reg_r with (nth j (factor_spec sim locs amps widths) 0);
      [lra|].
    unfold Rdiv. rewrite Rmult_assoc, Rinv_l by lra. lra.
Qed.

Lemma factor_bounds_witness :
  exists F,
    get_BumpProfile single_gap_sim = (Ok F, single_gap_sim)
    /\ 1 <= nth 0 F 0 <= 1 + (Rmax 4 0 + 0).
Proof.
  destruct (factor_bounds single_gap_sim
              (mkGaussianBumps (Scalar 3) (Scalar 4) (Scalar 1) "GAP" [])
              [3] [4] [1])
    as [F [Hgap [_ [Hb Hpos]]]].
  - reflexivity.
  - reflexivity.
  - simpl. lra.
  - simpl. lia.
  - reflexivity.
  - repeat constructor; simpl; lra.
  - simpl. repeat constructor; lra.
  - repeat constructor; lra.
  - exists F. split; [apply Hgap; reflexivity|].
    split.
    + apply Hpos; [repeat constructor; lra | simpl; lia].
    + apply (Hb 0%nat). simpl. lia.
Defined.

(** X10: bumps superpose.  For two aligned arrays of bumps of positive
    widths inside an increasing grid with a positive scale height, the GAP
    factor of the two arrays put one after the other is the sum of the two
    factors less 1 in every cell: a bump adds its own kernel and leaves the
    others as they are. *)
Theorem bumps_superpose (sim : Sim)
    (locs1 amps1 widths1 locs2 amps2 widths2 : list R) (u : list string) :
  length amps1 = length locs1 -> length widths1 = length locs1 ->
  length amps2 = length locs2 -> length widths2 = length locs2 ->
  length (gas_Hp sim) = length (grid_r sim) ->
  increasing (grid_r sim) -> (2 <= length (grid_r sim))%nat ->
  Forall (fun h => 0 < h) (gas_Hp sim) ->
  Forall (fun w => 0 < w) widths1 -> Forall (fun w => 0 < w) widths2 ->
  Forall (in_range (grid_r sim)) locs1 ->
  Forall (in_range (grid_r sim)) locs2 ->
  let group l a w :=
    set_gas_GaussianBumps
      (Some (mkGaussianBumps (Array l) (Array a) (Array w) "GAP" u)) sim in
  exists F1 F2 F12,
    get_BumpProfile (group locs1 amps1 widths1)
    = (Ok F1, group locs1 amps1 widths1)
    /\ get_BumpProfile (group locs2 amps2 widths2)
       = (Ok F2, group locs2 amps2 widths2)
    /\ get_BumpProfile
         (group (locs1 ++ locs2) (amps1 ++ amps2) (widths1 ++ widths2))
       = (Ok F12,
          group (locs1 ++ locs2) (amps1 ++ amps2) (widths1 ++ widths2))
    /\ (forall j, (j < length (grid_r sim))%nat ->
          nth j F12 0 = nth j F1 0 + nth j F2 0 - 1).
Proof.
  intros Ha1 Hw1 Ha2 Hw2 HlH Hinc Hlen HHp Hwp1 Hwp2 Hin1 Hin2 group.
  pose proof (nonempty_of_length _ Hlen) as Hne.
  assert (Heval : forall l a w,
            length a = length l -> length w = length l ->
            Forall (in_range (grid_r sim)) l ->
            get_BumpProfile (group l a w)
            = (Ok (factor_spec sim l a w), group l a w)).
  { intros l a w Hla Hlw Hin.
    rewrite (get_BumpProfile_arrays (group l a w)
               (mkGaussianBumps (Array l) (Array a) (Array w) "GAP" u) l a w);
      try reflexivity; assumption. }
  assert (Happ : forall H x l1 a1 w1,
            length a1 = length l1 -> length w1 = length l1 ->
            bump_sum H x (l1 ++ locs2) (a1 ++ amps2) (w1 ++ widths2)
            = bump_sum H x l1 a1 w1 + bump_sum H x locs2 amps2 widths2).
  { intros H x. induction l1 as [|r0 l1 IH]; intros [|A a1] [|w w1] E1 E2;
      simpl in E1, E2; try discriminate.
    - simpl. ring.
    - cbn [app bump_sum]. rewrite IH by lia. ring. }
  exists (factor_spec sim locs1 amps1 widths1),
         (factor_spec sim locs2 amps2 widths2),
         (factor_spec sim (locs1 ++ locs2) (amps1 ++ amps2) (widths1 ++ widths2)).
  split; [now apply Heval|]. split; [now apply Heval|].
  split.
  { apply Heval.
    - rewrite !length_app. lia.
    - rewrite !length_app. lia.
    - apply Forall_app. split; assumption. }
  intros j Hj. unfold factor_spec.
  rewrite !(fun f => nth_map_lt f (grid_r sim) j 0 0 Hj).
  rewrite Happ by assumption. ring.
Qed.

Lemma bumps_superpose_witness :
  exists F1 F2 F12,
    get_BumpProfile
      (set_gas_GaussianBumps
         (Some (mkGaussianBumps (Array [2]) (Array [4]) (Array [1]) "GAP" []))
         example_sim)
    = (Ok F1,
       set_gas_GaussianBumps
         (Some (mkGaussianBumps (Array [2]) (Array [4]) (Array [1]) "GAP" []))
         example_sim)
    /\ get_BumpProfile
         (set_gas_GaussianBumps
            (Some (mkGaussianBumps (Array [4]) (Array [2]) (Array [3]) "GAP" []))
            example_sim)
       = (Ok F2,
          set_gas_GaussianBumps
            (Some (mkGaussianBumps (Array [4]) (Array [2]) (Array [3]) "GAP" []))
            example_sim)
    /\ get_BumpProfile
         (set_gas_GaussianBumps
            (Some (mkGaussianBumps (Array [2; 4]) (Array [4; 2]) (Array [1; 3])
                     "GAP" []))
            example_sim)
       = (Ok F12,
          set_gas_GaussianBumps
            (Some (mkGaussianBumps (Array [2; 4]) (Array [4; 2]) (Array [1; 3])
                     "GAP" []))
            example_sim)
    /\ nth 0 F12 0 = nth 0 F1 0 + nth 0 F2 0 - 1.
Proof.
  destruct (bumps_superpose example_sim [2] [4] [1] [4] [2] [3] [])
    as [F1 [F2 [F12 [H1 [H2 [H12 Hsum]]]]]].
  - reflexivity.
  - reflexivity.
  - reflexivity.
  - reflexivity.
  - reflexivity.
  - simpl. lra.
  - simpl. lia.
  - simpl. repeat constructor; lra.
  - repeat constructor; lra.
  - repeat constructor; lra.
  - repeat constructor; simpl; lra.
  - repeat constructor; simpl; lra.
  - exists F1, F2, F12.
    split; [exact H1|]. split; [exact H2|]. split; [exact H12|].
    apply Hsum. simpl. lia.
Defined.

(* ------------------------------------------------------------------ *)
(** * Further properties: the shape of the dead zone *)
(* ------------------------------------------------------------------ *)

Section DeadZoneCurve.

(** The shape rises strictly with the radius. *)
Lemma shape_spec_increasing (w x y : R) :
  0 < w -> x < y -> shape_spec w x < shape_spec w y.
Proof.
  intros Hw Hxy.
  pose proof (Rinv_0_lt_compat w Hw) as Hi.
  unfold shape_spec.
  destruct (Rlt_dec x 0) as [Hx | Hx]; destruct (Rlt_dec y 0) as [Hy | Hy].
  - assert (exp (x / w) < exp (y / w))
      by (apply exp_increasing; unfold Rdiv; nra).
    lra.
  - assert (exp (x / w) < 1) by (apply exp_lt_1; unfold Rdiv; nra).
    assert (exp (- y / w) <= 1) by (apply exp_le_1; unfold Rdiv; nra).
    lra.
  - lra.
  - assert (exp (- y / w) < exp (- x / w))
      by (apply exp_increasing; unfold Rdiv; nra).
    lra.
Qed.

(** The shape is symmetric about the point (0, 1/2). *)
Lemma shape_spec_point_symmetry (w x : R) :
  shape_spec w x + shape_spec w (- x) = 1.
Proof.
  unfold shape_spec.
  destruct (Rlt_dec x 0) as [Hx | Hx]; destruct (Rlt_dec (- x) 0) as [Hy | Hy];
    try lra.
  - rewrite Ropp_involutive. lra.
  - assert (x = 0) as -> by lra.
    replace (- - 0) with 0 by ring. replace (- 0) with 0 by ring.
    replace (0 / w) with 0 by (unfold Rdiv; ring). rewrite exp_0. lra.
Qed.

(** Far outside the transition the shape is as close to its plateau as one
    likes. *)
Lemma shape_spec_far (w q x : R) :
  0 < w -> 0 < q ->
  (- w * ln q < x -> 0 <= x -> 1 - shape_spec w x < 0.5 * q)
  /\ (x < w * ln q -> x < 0 -> shape_spec w x < 0.5 * q).
Proof.
  intros Hw Hq.
  pose proof (Rinv_0_lt_compat w Hw) as Hi.
  split; intros Hx Hs; unfold shape_spec;
    destruct (Rlt_dec x 0) as [Hn | Hn]; try lra.
  - assert (H : exp (- x / w) < exp (ln q)).
    { apply exp_increasing.
      apply Rmult_lt_reg_r with w; [exact Hw|].
      unfold Rdiv. rewrite Rmult_assoc, Rinv_l by lra. lra. }
    rewrite exp_ln in H by exact Hq. lra.
  - assert (H : exp (x / w) < exp (ln q)).
    { apply exp_increasing.
      apply Rmult_lt_reg_r with w; [exact Hw|].
      unfold Rdiv. rewrite Rmult_assoc, Rinv_l by lra. lra. }
    rewrite exp_ln in H by exact Hq. lra.
Qed.

End DeadZoneCurve.

(** The entries of the dead-zone profile, by index. *)
Lemma Alpha_DeadZone_nth (sim : Sim) (dz : DeadZone) :
  gas_DeadZone sim = Some dz ->
  exists alpha,
    Alpha_DeadZone sim = (Ok alpha, sim)
    /\ length alpha = length (grid_r sim)
    /\ forall i, (i < length (grid_r sim))%nat ->
         nth i alpha 0
         = alpha_dead dz + (alpha_active dz - alpha_dead dz)
             * shape_spec (transition_width dz)
                 (nth i (grid_r sim) 0 - outer_radii dz).
Proof.
  intros Hdz.
  exists (map (fun s => alpha_dead dz + (alpha_active dz - alpha_dead dz) * s)
            (map (fun ri => shape_spec (transition_width dz)
                              (ri - outer_radii dz))
               (grid_r sim))).
  split; [exact (Alpha_DeadZone_eq sim dz Hdz)|].
  split; [now rewrite !length_map|].
  intros i Hi. rewrite map_map.
  exact (nth_map_lt
           (fun ri => alpha_dead dz + (alpha_active dz - alpha_dead dz)
                        * shape_spec (transition_width dz) (ri - outer_radii dz))
           (grid_r sim) i 0 0 Hi).
Qed.

(** X11: the dead-zone profile is monotone in the radius.  For a positive
    transition width, of two cells the one at the larger radius has the
    larger alpha when alpha_active > alpha_dead and the smaller alpha when
    alpha_active < alpha_dead; so along an increasing grid the profile
    rises, or falls, strictly from cell to cell. *)
Theorem dead_zone_monotone (sim : Sim) (dz : DeadZone) :
  gas_DeadZone sim = Some dz ->
  0 < transition_width dz ->
  exists alpha,
    Alpha_DeadZone sim = (Ok alpha, sim)
    /\ (forall i j, (i < length (grid_r sim))%nat ->
          (j < length (grid_r sim))%nat ->
          nth i (grid_r sim) 0 < nth j (grid_r sim) 0 ->
          (alpha_dead dz < alpha_active dz -> nth i alpha 0 < nth j alpha 0)
          /\ (alpha_active dz < alpha_dead dz -> nth j alpha 0 < nth i alpha 0))
    /\ (increasing (grid_r sim) ->
        forall i j, (i < j)%nat -> (j < length (grid_r sim))%nat ->
          (alpha_dead dz < alpha_active dz -> nth i alpha 0 < nth j alpha 0)
          /\ (alpha_active dz < alpha_dead dz -> nth j alpha 0 < nth i alpha 0)).
Proof.
  intros Hdz Hw.
  destruct (Alpha_DeadZone_nth sim dz Hdz) as [alpha [H [_ Hnth]]].
  assert (Hmono : forall i j, (i < length (grid_r sim))%nat ->
            (j < length (grid_r sim))%nat ->
            nth i (grid_r sim) 0 < nth j (grid_r sim) 0 ->
            (alpha_dead dz < alpha_active dz -> nth i alpha 0 < nth j alpha 0)
            /\ (alpha_active dz < alpha_dead dz -> nth j alpha 0 < nth i alpha 0)).
  { intros i j Hi Hj Hr. rewrite (Hnth i Hi), (Hnth j Hj).
    pose proof (shape_spec_increasing (transition_width dz)
                  (nth i (grid_r sim) 0 - outer_radii dz)
                  (nth j (grid_r sim) 0 - outer_radii dz) Hw) as Hs.
    assert (Hs' := Hs ltac:(lra)).
    split; intros Hlt; nra. }
  exists alpha. split; [exact H|]. split; [exact Hmono|].
  intros Hinc i j Hij Hj. apply Hmono; [lia | exact Hj|].
  now apply increasing_nth.
Qed.

Lemma dead_zone_monotone_witness :
  exists alpha,
    Alpha_DeadZone (set_gas_DeadZone (Some example_deadzone) example_sim)
    = (Ok alpha, set_gas_DeadZone (Some example_deadzone) example_sim)
    /\ nth 0 alpha 0 < nth 4 alpha 0.
Proof.
  destruct (dead_zone_monotone
              (set_gas_DeadZone (Some example_deadzone) example_sim)
              example_deadzone) as [alpha [H [Hm _]]].
  - reflexivity.
  - simpl. lra.
  - exists alpha. split; [exact H|].
    apply (Hm 0%nat 4%nat); simpl; try lia; lra.
Defined.

(** X12: the dead-zone profile is point-symmetric about the outer radius.
    Two cells at the same distance on either side of outer_radii have
    alphas that add up to alpha_dead + alpha_active, and a cell at the outer
    radius itself has the mean of the two plateaus. *)
Theorem dead_zone_point_symmetry (sim : Sim) (dz : DeadZone) :
  gas_DeadZone sim = Some dz ->
  0 < transition_width dz ->
  exists alpha,
    Alpha_DeadZone sim = (Ok alpha, sim)
    /\ (forall i j, (i < length (grid_r sim))%nat ->
          (j < length (grid_r sim))%nat ->
          nth i (grid_r sim) 0 - outer_radii dz
          = outer_radii dz - nth j (grid_r sim) 0 ->
          nth i alpha 0 + nth j alpha 0 = alpha_dead dz + alpha_active dz)
    /\ (forall i, (i < length (grid_r sim))%nat ->
          nth i (grid_r sim) 0 = outer_radii dz ->
          nth i alpha 0 = (alpha_dead dz + alpha_active dz) / 2).
Proof.
  intros Hdz Hw.
  destruct (Alpha_DeadZone_nth sim dz Hdz) as [alpha [H [_ Hnth]]].
  exists alpha. split; [exact H|]. split.
  - intros i j Hi Hj Hd. rewrite (Hnth i Hi), (Hnth j Hj).
    replace (nth j (grid_r sim) 0 - outer_radii dz)
      with (- (nth i (grid_r sim) 0 - outer_radii dz)) by lra.
    pose proof (shape_spec_point_symmetry (transition_width dz)
                  (nth i (grid_r sim) 0 - outer_radii dz)).
    nra.
  - intros i Hi Hr. rewrite (Hnth i Hi), Hr.
    replace (outer_radii dz - outer_radii dz) with 0 by ring.
    rewrite shape_spec_0. lra.
Qed.

Lemma dead_zone_point_symmetry_witness :
  exists alpha,
    Alpha_DeadZone (set_gas_DeadZone (Some example_deadzone) example_sim)
    = (Ok alpha, set_gas_DeadZone (Some example_deadzone) example_sim)
    /\ nth 1 alpha 0 + nth 3 alpha 0 = 1e-4 + 1e-3.
Proof.
  destruct (dead_zone_point_symmetry
              (set_gas_DeadZone (Some example_deadzone) example_sim)
              example_deadzone) as [alpha [H [Hs _]]].
  - reflexivity.
  - simpl. lra.
  - exists alpha. split; [exact H|].
    apply (Hs 1%nat 3%nat); simpl; try lia; lra.
Defined.

(** X13: far from the outer radius the profile reaches its plateaus.  For a
    positive transition width and every tolerance eps > 0 there is a
    distance D, which does not depend on the grid, such that every cell
    more than D outside outer_radii has alpha within eps of alpha_active
    and every cell more than D inside has alpha within eps of alpha_dead. *)
Theorem dead_zone_plateaus (dz : DeadZone) (eps : R) :
  0 < transition_width dz -> 0 < eps ->
  exists D, 0 < D /\
    forall sim, gas_DeadZone sim = Some dz ->
      exists alpha,
        Alpha_DeadZone sim = (Ok alpha, sim)
        /\ forall i, (i < length (grid_r sim))%nat ->
             (outer_radii dz + D < nth i (grid_r sim) 0 ->
                Rabs (nth i alpha 0 - alpha_active dz) < eps)
             /\ (nth i (grid_r sim) 0 < outer_radii dz - D ->
                   Rabs (nth i alpha 0 - alpha_dead dz) < eps).
Proof.
  intros Hw Heps.
  set (w := transition_width dz) in *.
  remember (Rabs (alpha_active dz - alpha_dead dz) + 1) as K eqn:EK.
  assert (HK : 0 < K).
  { rewrite EK. pose proof (Rabs_pos (alpha_active dz - alpha_dead dz)). lra. }
  remember (2 * eps / K) as q eqn:Eq.
  assert (Hq : 0 < q) by (rewrite Eq; apply Rdiv_lt_0_compat; lra).
  exists (Rmax 1 (- w * ln q)).
  split; [pose proof (Rmax_l 1 (- w * ln q)); lra|].
  intros sim Hdz.
  destruct (Alpha_DeadZone_nth sim dz Hdz) as [alpha [H [_ Hnth]]].
  exists alpha. split; [exact H|].
  intros i Hi. rewrite (Hnth i Hi). fold w.
  set (x := nth i (grid_r sim) 0 - outer_radii dz).
  pose proof (Rmax_l 1 (- w * ln q)) as HD1.
  pose proof (Rmax_r 1 (- w * ln q)) as HD2.
  destruct (shape_spec_far w q x Hw Hq) as [Hout Hin].
  pose proof (shape_spec_range w x Hw) as [Hs0 Hs1].
  assert (Hbound : forall t, 0 <= t < 0.5 * q ->
            Rabs (alpha_active dz - alpha_dead dz) * t < eps).
  { intros t [Ht0 Ht1].
    apply Rle_lt_trans with (K * t).
    - rewrite EK. nra.
    - apply Rlt_le_trans with (K * (0.5 * q)); [nra|].
      assert (E : K * q = 2 * eps) by (rewrite Eq; field; lra).
      nra. }
  split; intros Hfar.
  - replace (alpha_dead dz + (alpha_active dz - alpha_dead dz) * shape_spec w x
             - alpha_active dz)
      with ((alpha_active dz - alpha_dead dz) * - (1 - shape_spec w x)) by ring.
    rewrite Rabs_mult, Rabs_Ropp, (Rabs_pos_eq (1 - shape_spec w x)) by lra.
    apply Hbound. split; [lra|]. apply Hout; unfold x; lra.
  - replace (alpha_dead dz + (alpha_active dz - alpha_dead dz) * shape_spec w x
             - alpha_dead dz)
      with ((alpha_active dz - alpha_dead dz) * shape_spec w x) by ring.
    rewrite Rabs_mult, (Rabs_pos_eq (shape_spec w x)) by lra.
    apply Hbound. split; [lra|]. apply Hin; unfold x; lra.
Qed.

Lemma dead_zone_plateaus_witness :
  exists D, 0 < D /\
    exists alpha,
      Alpha_DeadZone (set_gas_DeadZone (Some example_deadzone) example_sim)
      = (Ok alpha, set_gas_DeadZone (Some example_deadzone) example_sim).
Proof.
  destruct (dead_zone_plateaus example_deadzone 1e-5) as [D [HD Hall]].
  - simpl. lra.
  - lra.
  - exists D. split; [exact HD|].
    destruct (Hall (set_gas_DeadZone (Some example_deadzone) example_sim)
                eq_refl) as [alpha [H _]].
    exists alpha. exact H.
Defined.

(* ------------------------------------------------------------------ *)
(** * Further properties: the rescale of the densities *)
(* ------------------------------------------------------------------ *)

Section Rescale.

Lemma same_but_Sigma_refl (s : Sim) : same_but_Sigma s s.
Proof. repeat split. Qed.

Lemma same_but_Sigma_trans (s1 s2 s3 : Sim) :
  same_but_Sigma s1 s2 -> same_but_Sigma s2 s3 -> same_but_Sigma s1 s3.
Proof.
  unfold same_but_Sigma. intros H1 H2.
  repeat match goal with H : _ /\ _ |- _ => destruct H end.
  repeat split; congruence.
Qed.

(** A computation all of whose steps leave everything but the densities and
    the output alone. *)
Lemma same_but_Sigma_bind {A B} (m : M A) (k : A -> M B) :
  (forall s, same_but_Sigma s (snd (m s))) ->
  (forall a s, same_but_Sigma s (snd (k a s))) ->
  forall s, same_but_Sigma s (snd (bind m k s)).
Proof.
  intros Hm Hk s. unfold bind. specialize (Hm s).
  destruct (m s) as [[a | e | c] s']; simpl in *; try exact Hm.
  eapply same_but_Sigma_trans; [exact Hm | apply Hk].
Qed.

Lemma same_but_Sigma_reads {A} (m : M A) :
  reads_only m -> forall s, same_but_Sigma s (snd (m s)).
Proof. intros H s. rewrite H. apply same_but_Sigma_refl. Qed.

Lemma nth_scaled_dust (alpha_0 : R) (sim : Sim) (i : nat) :
  length (dust_Sigma sim) = length (gas_alpha sim) ->
  (i < length (gas_alpha sim))%nat ->
  nth i (scaled_dust alpha_0 sim) []
  = map (fun x => x * (alpha_0 / nth i (gas_alpha sim) 0))
      (nth i (dust_Sigma sim) []).
Proof.
  unfold scaled_dust.
  generalize (dust_Sigma sim) (gas_alpha sim). clear sim.
  intros d a. revert d i.
  induction a as [|y a IH]; intros [|row d] [|i] Hl Hi; simpl in *;
    try discriminate; try lia.
  - reflexivity.
  - apply IH; lia.
Qed.

Lemma nth_scaled_Sigma (alpha_0 : R) (sim : Sim) (i : nat) :
  length (gas_alpha sim) = length (gas_Sigma sim) ->
  (i < length (gas_Sigma sim))%nat ->
  nth i (scaled_Sigma alpha_0 sim) 0
  = nth i (gas_Sigma sim) 0 * (alpha_0 / nth i (gas_alpha sim) 0).
Proof.
  intros Hl Hi. unfold scaled_Sigma.
  rewrite nth_map2 by (rewrite ?length_map; congruence).
  f_equal.
  apply (nth_map_lt (fun a => alpha_0 / a)). congruence.
Qed.

End Rescale.

(** On aligned arrays the rescale runs to its end; this is the state it
    leaves. *)
Lemma rescale_runs (sim : Sim) (alpha_0 : R) (cm : bool) :
  length (grid_A sim) = length (gas_Sigma sim) ->
  length (gas_alpha sim) = length (gas_Sigma sim) ->
  length (dust_Sigma sim) = length (gas_Sigma sim) ->
  exists sim',
    rescale_Sigma_with_Alpha alpha_0 cm sim = (Ok tt, sim')
    /\ same_but_Sigma sim sim'
    /\ gas_Sigma sim'
       = (if cm
          then map (fun x => x / mass_ratio alpha_0 sim) (scaled_Sigma alpha_0 sim)
          else scaled_Sigma alpha_0 sim)
    /\ dust_Sigma sim'
       = (if cm
          then map (map (fun x => x / mass_ratio alpha_0 sim))
                 (scaled_dust alpha_0 sim)
          else scaled_dust alpha_0 sim)
    /\ stdout sim'
       = stdout sim
         ++ [MsgAlphaApplied;
             if cm then MsgMassCorrected (1 / mass_ratio alpha_0 sim)
             else MsgMassModified (mass_ratio alpha_0 sim)].
Proof.
  intros HlA Hla Hld.
  destruct sim as [r A ini Hp a upd S gu gb dz dS u1 u2 u3 out n].
  cbn [grid_A gas_Sigma gas_alpha dust_Sigma] in *.
  assert (HlS1 : length (map2 Rmult S (map (fun t => alpha_0 / t) a)) = length S).
  { apply length_map2. now rewrite length_map. }
  assert (Hrun : forall cm', exists sim',
            rescale_Sigma_with_Alpha alpha_0 cm'
              (mkSim r A ini Hp a upd S gu gb dz dS u1 u2 u3 out n)
            = (Ok tt, sim')
            /\ sim'
               = (let s1 := add_stdout MsgAlphaApplied
                              (set_dust_Sigma
                                 (scaled_dust alpha_0
                                    (mkSim r A ini Hp a upd S gu gb dz dS u1 u2
                                       u3 out n))
                                 (set_gas_Sigma
                                    (scaled_Sigma alpha_0
                                       (mkSim r A ini Hp a upd S gu gb dz dS u1
                                          u2 u3 out n))
                                    (mkSim r A ini Hp a upd S gu gb dz dS u1 u2
                                       u3 out n))) in
                  let q := mass_ratio alpha_0
                             (mkSim r A ini Hp a upd S gu gb dz dS u1 u2 u3 out
                                n) in
                  if cm'
                  then add_stdout (MsgMassCorrected (1 / q))
                         (set_dust_Sigma
                            (map (map (fun x => x / q)) (dust_Sigma s1))
                            (set_gas_Sigma
                               (map (fun x => x / q) (gas_Sigma s1)) s1))
                  else add_stdout (MsgMassModified q) s1)).
  { intros cm'. eexists. split; [|reflexivity].
    unfold rescale_Sigma_with_Alpha, get_DiskMass, bind, read, modify, print,
      modify, np, ret.
    sim_fields.
    rewrite (broadcast2_aligned Rmult A S HlA).
    sim_fields.
    rewrite (inplace_aligned Rmult S (map (fun t => alpha_0 / t) a))
      by (now rewrite length_map).
    sim_fields.
    rewrite (inplace_rows_aligned Rmult dS (map (fun t => alpha_0 / t) a))
      by (rewrite length_map; congruence).
    sim_fields.
    rewrite (broadcast2_aligned Rmult A (map2 Rmult S (map (fun t => alpha_0 / t) a)))
      by congruence.
    sim_fields.
    destruct cm'; reflexivity. }
  destruct (Hrun cm) as [sim' [H ->]].
  eexists. split; [exact H|].
  destruct cm; sim_fields;
    (split; [repeat split|]);
    (split; [reflexivity|]); (split; [reflexivity|]);
    rewrite <- app_assoc; reflexivity.
Qed.

(** X14: the rescale touches nothing but the densities and the output.
    Whatever the simulation holds, whatever the arguments and whatever the
    outcome (also when it fails half way), [rescale_Sigma_with_Alpha]
    leaves the grid, the cell areas, the scale height, alpha, the parameter
    groups, all updaters and the count of engine updates as they were. *)
Theorem rescale_changes_only_Sigma (alpha_0 : R) (correct_mass : bool)
    (sim : Sim) :
  same_but_Sigma sim (snd (rescale_Sigma_with_Alpha alpha_0 correct_mass sim)).
Proof.
  revert sim. unfold rescale_Sigma_with_Alpha, print.
  assert (Hmod : forall f,
            (forall s, same_but_Sigma s (f s)) ->
            forall s, same_but_Sigma s (snd (modify f s))).
  { intros f Hf s. apply Hf. }
  assert (HS : forall v s, same_but_Sigma s (set_gas_Sigma v s))
    by (intros; repeat split).
  assert (HD : forall v s, same_but_Sigma s (set_dust_Sigma v s))
    by (intros; repeat split).
  assert (HO : forall m s, same_but_Sigma s (add_stdout m s))
    by (intros; repeat split).
  apply same_but_Sigma_bind;
    [apply same_but_Sigma_reads, reads_only_get_DiskMass | intros M0].
  apply same_but_Sigma_bind;
    [apply same_but_Sigma_reads, reads_only_read | intros alpha].
  apply same_but_Sigma_bind;
    [apply same_but_Sigma_reads, reads_only_read | intros Sigma].
  apply same_but_Sigma_bind;
    [apply same_but_Sigma_reads, reads_only_np | intros Sigma'].
  apply same_but_Sigma_bind; [apply Hmod, HS | intros _].
  apply same_but_Sigma_bind;
    [apply same_but_Sigma_reads, reads_only_read | intros alpha2].
  apply same_but_Sigma_bind;
    [apply same_but_Sigma_reads, reads_only_read | intros dSigma].
  apply same_but_Sigma_bind;
    [apply same_but_Sigma_reads, reads_only_np | intros dSigma'].
  apply same_but_Sigma_bind; [apply Hmod, HD | intros _].
  apply same_but_Sigma_bind;
    [apply same_but_Sigma_reads, reads_only_get_DiskMass | intros M1].
  apply same_but_Sigma_bind; [apply Hmod, HO | intros _].
  destruct correct_mass.
  - apply same_but_Sigma_bind;
      [apply same_but_Sigma_reads, reads_only_read | intros Sigma2].
    apply same_but_Sigma_bind; [apply Hmod, HS | intros _].
    apply same_but_Sigma_bind;
      [apply same_but_Sigma_reads, reads_only_read | intros dSigma2].
    apply same_but_Sigma_bind; [apply Hmod, HD | intros _].
    apply Hmod, HO.
  - apply Hmod, HO.
Qed.

(** X15: the rescale keeps the dust-to-gas ratio.  On aligned arrays with
    positive gas densities, alpha and cell areas and a positive base alpha,
    with or without the correction of the mass, every dust density of a
    cell is multiplied by the factor its gas density is multiplied by:
    dust_new[i][k] * Sigma[i] = dust[i][k] * Sigma_new[i], and the number of
    size bins of the cell stays as it was. *)
Theorem rescale_keeps_dust_to_gas (sim : Sim) (alpha_0 : R) (cm : bool) :
  length (grid_A sim) = length (gas_Sigma sim) ->
  length (gas_alpha sim) = length (gas_Sigma sim) ->
  length (dust_Sigma sim) = length (gas_Sigma sim) ->
  Forall (fun x => 0 < x) (gas_Sigma sim) ->
  Forall (fun x => 0 < x) (gas_alpha sim) ->
  Forall (fun x => 0 < x) (grid_A sim) ->
  0 < alpha_0 ->
  exists sim',
    rescale_Sigma_with_Alpha alpha_0 cm sim = (Ok tt, sim')
    /\ length (gas_Sigma sim') = length (gas_Sigma sim)
    /\ forall i, (i < length (gas_Sigma sim))%nat ->
         length (nth i (dust_Sigma sim') []) = length (nth i (dust_Sigma sim) [])
         /\ forall k,
              nth k (nth i (dust_Sigma sim') []) 0 * nth i (gas_Sigma sim) 0
              = nth k (nth i (dust_Sigma sim) []) 0 * nth i (gas_Sigma sim') 0.
Proof.
  intros HlA Hla Hld HSp Hap HAp H0.
  destruct (rescale_runs sim alpha_0 cm HlA Hla Hld)
    as [sim' [H [_ [HS [HD _]]]]].
  exists sim'. split; [exact H|].
  assert (HlS : length (scaled_Sigma alpha_0 sim) = length (gas_Sigma sim)).
  { unfold scaled_Sigma. apply length_map2. now rewrite length_map. }
  assert (HlD : length (scaled_dust alpha_0 sim) = length (gas_Sigma sim)).
  { unfold scaled_dust.
    rewrite length_map, length_combine, length_map. lia. }
  split; [rewrite HS; destruct cm; cbv iota; rewrite ?length_map; exact HlS|].
  intros i Hi.
  assert (Hrow : nth i (scaled_dust alpha_0 sim) []
                 = map (fun x => x * (alpha_0 / nth i (gas_alpha sim) 0))
                     (nth i (dust_Sigma sim) []))
    by (apply nth_scaled_dust; lia).
  assert (Hgas : nth i (scaled_Sigma alpha_0 sim) 0
                 = nth i (gas_Sigma sim) 0 * (alpha_0 / nth i (gas_alpha sim) 0))
    by (now apply nth_scaled_Sigma).
  assert (Hk : forall (f : R -> R) (row : ndarray) k,
            f 0 = 0 -> nth k (map f row) 0 = f (nth k row 0)).
  { intros f row k Hf. rewrite <- Hf at 1. apply map_nth. }
  destruct cm; cbv iota in HS, HD; rewrite HS, HD.
  - rewrite (nth_map_lt (A:=ndarray) (B:=ndarray) _ _ i [] []) by lia.
    rewrite (nth_map_lt (fun x => x / mass_ratio alpha_0 sim)
               (scaled_Sigma alpha_0 sim) i 0 0) by lia.
    rewrite Hrow, Hgas. split; [now rewrite !length_map|].
    intros k.
    rewrite (Hk (fun x => x / mass_ratio alpha_0 sim))
      by (unfold Rdiv; ring).
    rewrite (Hk (fun x => x * (alpha_0 / nth i (gas_alpha sim) 0))) by ring.
    unfold Rdiv. ring.
  - rewrite Hrow, Hgas. split; [now rewrite length_map|].
    intros k.
    rewrite (Hk (fun x => x * (alpha_0 / nth i (gas_alpha sim) 0))) by ring.
    ring.
Qed.

Lemma rescale_keeps_dust_to_gas_witness :
  exists sim',
    rescale_Sigma_with_Alpha 2e-3 true example_sim = (Ok tt, sim')
    /\ nth 1 (nth 0 (dust_Sigma sim') []) 0 * 10
       = 2 * nth 0 (gas_Sigma sim') 0.
Proof.
  destruct (rescale_keeps_dust_to_gas example_sim 2e-3 true)
    as [sim' [H [_ Hall]]];
    try reflexivity;
    try (simpl; repeat constructor; lra);
    try lra.
  exists sim'. split; [exact H|].
  destruct (Hall 0%nat) as [_ Hk]; [simpl; lia|].
  exact (Hk 1%nat).
Defined.

(** X16: the rescale puts the disk in the steady state of the new alpha.
    On aligned arrays with alpha different from zero in every cell, without
    the correction of the mass alpha[i] * Sigma_new[i] = alpha_0 * Sigma[i]
    in every cell; with the correction, for positive densities, alpha, cell
    areas and base alpha, the products alpha[i] * Sigma_new[i] are still in
    the proportion of the old densities, cell against cell. *)
Theorem rescale_steady_state (sim : Sim) (alpha_0 : R) :
  length (grid_A sim) = length (gas_Sigma sim) ->
  length (gas_alpha sim) = length (gas_Sigma sim) ->
  length (dust_Sigma sim) = length (gas_Sigma sim) ->
  Forall (fun a => a <> 0) (gas_alpha sim) ->
  (exists sim',
     rescale_Sigma_with_Alpha alpha_0 false sim = (Ok tt, sim')
     /\ gas_alpha sim' = gas_alpha sim
     /\ forall i, (i < length (gas_Sigma sim))%nat ->
          nth i (gas_alpha sim') 0 * nth i (gas_Sigma sim') 0
          = alpha_0 * nth i (gas_Sigma sim) 0)
  /\ (Forall (fun x => 0 < x) (gas_Sigma sim) ->
      Forall (fun x => 0 < x) (gas_alpha sim) ->
      Forall (fun x => 0 < x) (grid_A sim) ->
      0 < alpha_0 ->
      exists sim',
        rescale_Sigma_with_Alpha alpha_0 true sim = (Ok tt, sim')
        /\ gas_alpha sim' = gas_alpha sim
        /\ forall i j, (i < length (gas_Sigma sim))%nat ->
             (j < length (gas_Sigma sim))%nat ->
             nth i (gas_alpha sim') 0 * nth i (gas_Sigma sim') 0
               * nth j (gas_Sigma sim) 0
             = nth j (gas_alpha sim') 0 * nth j (gas_Sigma sim') 0
               * nth i (gas_Sigma sim) 0).
Proof.
  intros HlA Hla Hld Hnz.
  assert (HlS : length (scaled_Sigma alpha_0 sim) = length (gas_Sigma sim)).
  { unfold scaled_Sigma. apply length_map2. now rewrite length_map. }
  assert (Hcell : forall i, (i < length (gas_Sigma sim))%nat ->
            nth i (gas_alpha sim) 0 * nth i (scaled_Sigma alpha_0 sim) 0
            = alpha_0 * nth i (gas_Sigma sim) 0).
  { intros i Hi. rewrite nth_scaled_Sigma by assumption.
    assert (nth i (gas_alpha sim) 0 <> 0).
    { rewrite Forall_forall in Hnz. apply Hnz, nth_In. lia. }
    field. assumption. }
  split.
  - destruct (rescale_runs sim alpha_0 false HlA Hla Hld)
      as [sim' [H [Hsame [HS _]]]].
    exists sim'. split; [exact H|].
    assert (Ha : gas_alpha sim' = gas_alpha sim) by apply Hsame.
    split; [exact Ha|].
    intros i Hi. rewrite Ha, HS. now apply Hcell.
  - intros HSp Hap HAp H0.
    destruct (rescale_runs sim alpha_0 true HlA Hla Hld)
      as [sim' [H [Hsame [HS _]]]].
    exists sim'. split; [exact H|].
    assert (Ha : gas_alpha sim' = gas_alpha sim) by apply Hsame.
    split; [exact Ha|].
    intros i j Hi Hj. rewrite Ha, HS.
    rewrite !(nth_map_lt (fun x => x / mass_ratio alpha_0 sim)
                (scaled_Sigma alpha_0 sim) _ 0 0) by lia.
    pose proof (Hcell i Hi) as Ei. pose proof (Hcell j Hj) as Ej.
    unfold Rdiv.
    replace (nth i (gas_alpha sim) 0
             * (nth i (scaled_Sigma alpha_0 sim) 0 * / mass_ratio alpha_0 sim)
             * nth j (gas_Sigma sim) 0)
      with (nth i (gas_alpha sim) 0 * nth i (scaled_Sigma alpha_0 sim) 0
            * (/ mass_ratio alpha_0 sim * nth j (gas_Sigma sim) 0)) by ring.
    replace (nth j (gas_alpha sim) 0
             * (nth j (scaled_Sigma alpha_0 sim) 0 * / mass_ratio alpha_0 sim)
             * nth i (gas_Sigma sim) 0)
      with (nth j (gas_alpha sim) 0 * nth j (scaled_Sigma alpha_0 sim) 0
            * (/ mass_ratio alpha_0 sim * nth i (gas_Sigma sim) 0)) by ring.
    rewrite Ei, Ej. ring.
Qed.

Lemma rescale_steady_state_witness :
  exists sim',
    rescale_Sigma_with_Alpha 2e-3 false example_sim = (Ok tt, sim')
    /\ nth 0 (gas_alpha sim') 0 * nth 0 (gas_Sigma sim') 0 = 2e-3 * 10.
Proof.
  destruct (rescale_steady_state example_sim 2e-3)
    as [[sim' [H [_ Hall]]] _]; try reflexivity.
  - simpl. repeat constructor; lra.
  - exists sim'. split; [exact H|]. apply (Hall 0%nat). simpl. lia.
Defined.

Section BaseAlpha.

Lemma map2_scaled_right (c : R) (S a : ndarray) :
  map2 Rmult S (map (fun t => c / t) a)
  = map (fun x => c * x) (map2 Rmult S (map (fun t => 1 / t) a)).
Proof.
  revert a. induction S as [|s S IH]; intros [|t a]; simpl; try reflexivity.
  rewrite IH. f_equal. unfold Rdiv. ring.
Qed.

Lemma sum_scaled_left (c : R) (A X : ndarray) :
  Np.sum (map2 Rmult A (map (fun x => c * x) X)) = c * Np.sum (map2 Rmult A X).
Proof.
  revert X. induction A as [|a A IH]; intros [|x X]; simpl; try ring.
  rewrite IH. ring.
Qed.

Lemma divide_scaled_one (c q x : R) :
  c <> 0 -> c * x / (c * q) = x / q.
Proof.
  intros Hc. unfold Rdiv. rewrite Rinv_mult.
  replace (c * x * (/ c * / q)) with (x * / q * (c * / c)) by ring.
  rewrite Rinv_r by exact Hc. ring.
Qed.

Lemma divide_scaled (c q : R) (X : ndarray) :
  c <> 0 ->
  map (fun x => x / (c * q)) (map (fun x => c * x) X) = map (fun x => x / q) X.
Proof.
  intros Hc. rewrite map_map. apply map_ext. intros x.
  now apply divide_scaled_one.
Qed.

End BaseAlpha.

(** X17: with the correction of the mass the base alpha does not matter.
    For positive, aligned densities, alpha and cell areas, the rescale with
    correct_mass = true leaves the same gas and dust densities for every
    base value alpha_0 different from zero: the correction cancels it. *)
Theorem corrected_rescale_ignores_alpha_0 (sim : Sim) (alpha_0 alpha_0' : R) :
  length (grid_A sim) = length (gas_Sigma sim) ->
  length (gas_alpha sim) = length (gas_Sigma sim) ->
  length (dust_Sigma sim) = length (gas_Sigma sim) ->
  Forall (fun x => 0 < x) (gas_Sigma sim) ->
  Forall (fun x => 0 < x) (gas_alpha sim) ->
  Forall (fun x => 0 < x) (grid_A sim) ->
  alpha_0 <> 0 -> alpha_0' <> 0 ->
  exists sim1 sim2,
    rescale_Sigma_with_Alpha alpha_0 true sim = (Ok tt, sim1)
    /\ rescale_Sigma_with_Alpha alpha_0' true sim = (Ok tt, sim2)
    /\ gas_Sigma sim1 = gas_Sigma sim2
    /\ dust_Sigma sim1 = dust_Sigma sim2.
Proof.
  intros HlA Hla Hld HS Ha HA H0 H0'.
  set (X := map2 Rmult (gas_Sigma sim) (map (fun t => 1 / t) (gas_alpha sim))).
  set (q := mass (grid_A sim) X / mass (grid_A sim) (gas_Sigma sim)).
  assert (Hratio : forall c, mass_ratio c sim = c * q).
  { intros c. unfold mass_ratio, mass, scaled_Sigma, q, mass, X.
    rewrite (map2_scaled_right c), sum_scaled_left.
    unfold Rdiv. ring. }
  assert (Hgas : forall c, c <> 0 ->
            map (fun x => x / mass_ratio c sim) (scaled_Sigma c sim)
            = map (fun x => x / q) X).
  { intros c Hc. rewrite (Hratio c). unfold scaled_Sigma.
    rewrite (map2_scaled_right c). fold X.
    now apply divide_scaled. }
  assert (Hdust : forall c, c <> 0 ->
            map (map (fun x => x / mass_ratio c sim)) (scaled_dust c sim)
            = map (map (fun x => x / q)) (scaled_dust 1 sim)).
  { intros c Hc. rewrite (Hratio c). unfold scaled_dust.
    generalize (dust_Sigma sim) (gas_alpha sim) q.
    intros d a q'. revert a.
    induction d as [|row d IH]; intros [|t a]; simpl; try reflexivity.
    rewrite IH. f_equal.
    rewrite !map_map. apply map_ext. intros x.
    replace (x * (c / t)) with (c * (x * (1 / t))) by (unfold Rdiv; ring).
    now apply divide_scaled_one. }
  destruct (rescale_runs sim alpha_0 true HlA Hla Hld)
    as [sim1 [H1 [_ [HS1 [HD1 _]]]]].
  destruct (rescale_runs sim alpha_0' true HlA Hla Hld)
    as [sim2 [H2 [_ [HS2 [HD2 _]]]]].
  exists sim1, sim2. split; [exact H1|]. split; [exact H2|].
  split.
  - rewrite HS1, HS2, (Hgas alpha_0 H0), (Hgas alpha_0' H0'). reflexivity.
  - rewrite HD1, HD2, (Hdust alpha_0 H0), (Hdust alpha_0' H0'). reflexivity.
Qed.

Lemma corrected_rescale_ignores_alpha_0_witness :
  exists sim1 sim2,
    rescale_Sigma_with_Alpha 1e-3 true example_sim = (Ok tt, sim1)
    /\ rescale_Sigma_with_Alpha 1e-2 true example_sim = (Ok tt, sim2)
    /\ gas_Sigma sim1 = gas_Sigma sim2.
Proof.
  destruct (corrected_rescale_ignores_alpha_0 example_sim 1e-3 1e-2)
    as [sim1 [sim2 [H1 [H2 [HS _]]]]];
    try reflexivity;
    try (simpl; repeat constructor; lra);
    try lra.
  exists sim1, sim2. split; [exact H1|]. split; [exact H2 | exact HS].
Defined.

Section FlatAlpha.

Lemma scaled_by_one (c : R) (S a : ndarray) :
  c <> 0 -> Forall (fun t => t = c) a -> length a = length S ->
  map2 Rmult S (map (fun t => c / t) a) = S.
Proof.
  intros Hc Ha. revert S. induction Ha as [|t a Ht _ IH]; intros [|s S] Hl;
    simpl in *; try discriminate; [reflexivity|].
  rewrite IH by lia. f_equal. subst t. field. exact Hc.
Qed.

Lemma rows_scaled_by_one (c : R) (d : list ndarray) (a : ndarray) :
  c <> 0 -> Forall (fun t => t = c) a -> length d = length a ->
  map (fun p => map (fun x => x * snd p) (fst p))
    (combine d (map (fun t => c / t) a)) = d.
Proof.
  intros Hc Ha. revert d. induction Ha as [|t a Ht _ IH]; intros [|row d] Hl;
    simpl in *; try discriminate; [reflexivity|].
  rewrite IH by lia. f_equal. subst t.
  rewrite <- (map_id row) at 2. apply map_ext. intros x. field. exact Hc.
Qed.

Lemma divide_by_one (X : ndarray) : map (fun x => x / 1) X = X.
Proof.
  rewrite <- (map_id X) at 2. apply map_ext. intros x. field.
Qed.

End FlatAlpha.

(** X18: a flat alpha changes nothing.  On aligned arrays of a disk whose
    mass is not zero, if alpha equals the base value alpha_0 (not zero) in
    every cell, the rescale leaves the gas and the dust densities exactly
    as they were, with or without the correction of the mass. *)
Theorem flat_alpha_keeps_densities (sim : Sim) (alpha_0 : R) (cm : bool) :
  length (grid_A sim) = length (gas_Sigma sim) ->
  length (gas_alpha sim) = length (gas_Sigma sim) ->
  length (dust_Sigma sim) = length (gas_Sigma sim) ->
  alpha_0 <> 0 ->
  Forall (fun a => a = alpha_0) (gas_alpha sim) ->
  mass (grid_A sim) (gas_Sigma sim) <> 0 ->
  exists sim',
    rescale_Sigma_with_Alpha alpha_0 cm sim = (Ok tt, sim')
    /\ gas_Sigma sim' = gas_Sigma sim
    /\ dust_Sigma sim' = dust_Sigma sim.
Proof.
  intros HlA Hla Hld H0 Hflat Hm.
  destruct (rescale_runs sim alpha_0 cm HlA Hla Hld)
    as [sim' [H [_ [HS [HD _]]]]].
  assert (ES : scaled_Sigma alpha_0 sim = gas_Sigma sim)
    by (unfold scaled_Sigma; now apply scaled_by_one).
  assert (ED : scaled_dust alpha_0 sim = dust_Sigma sim)
    by (unfold scaled_dust; apply rows_scaled_by_one; [assumption.. | lia]).
  assert (Eq : mass_ratio alpha_0 sim = 1).
  { unfold mass_ratio. rewrite ES. now apply Rdiv_diag. }
  exists sim'. split; [exact H|].
  rewrite HS, HD, ES, ED, Eq.
  destruct cm; [|split; reflexivity].
  split; [apply divide_by_one|].
  rewrite <- (map_id (dust_Sigma sim)) at 2. apply map_ext.
  intros row. apply divide_by_one.
Qed.

Lemma flat_alpha_keeps_densities_witness :
  exists sim',
    rescale_Sigma_with_Alpha 1e-3 true example_sim = (Ok tt, sim')
    /\ gas_Sigma sim' = [10; 10; 10; 10; 10].
Proof.
  destruct (flat_alpha_keeps_densities example_sim 1e-3 true)
    as [sim' [H [HS _]]]; try reflexivity.
  - lra.
  - simpl. repeat constructor.
  - unfold mass. simpl. lra.
  - exists sim'. split; [exact H | exact HS].
Defined.

(* ------------------------------------------------------------------ *)
(** * Further properties: the setup functions from end to end *)
(* ------------------------------------------------------------------ *)

(** The dead-zone setup up to the new alpha, on a simulation whose alpha
    field is aligned with the grid. *)
Lemma setup_profile_deadzone_steps (sim : Sim) (aa ad ro w : R)
    (ats cm cad : bool) :
  length (gas_alpha sim) = length (grid_r sim) ->
  setup_profile_deadzone aa ad ro w ats cm cad sim
  = setup_tail (rescale_Sigma_with_Alpha aa cm) assign_Delta_updaters ats cad
      (registered_deadzone aa ad ro w
         (deadzone_profile aa ad ro w (grid_r sim)) sim).
Proof.
  intros Hlen.
  unfold setup_profile_deadzone, group_update, gas_alpha_update.
  do 4 (unfold bind at 1, modify at 1).
  unfold bind at 1, ret at 1.
  unfold bind at 1. unfold bind at 1, read at 1.
  cbn [gas_alpha_updater set_gas_alpha_updater].
  unfold bind at 1.
  erewrite Alpha_DeadZone_eq by reflexivity.
  cbn [alpha_active alpha_dead outer_radii transition_width].
  unfold bind at 1, read at 1. unfold bind at 1.
  sim_fields.
  rewrite assign_aligned by (rewrite !length_map; auto).
  cbn [np]. unfold ret at 1. unfold modify at 1.
  reflexivity.
Qed.

(** The bump setup up to the new alpha, for a well-formed group of bumps
    inside the grid and a known kind. *)
Lemma setup_profile_bumps_steps (sim : Sim) (L A W : PyNum) (ty : string)
    (locs amps widths : list R) (ats cm cad : bool) :
  bump_lists (mkGaussianBumps L A W ty []) = Some (locs, amps, widths) ->
  ty = "GAP"%string \/ ty = "BUMP"%string ->
  length (gas_alpha sim) = length (grid_r sim) ->
  length (gas_Hp sim) = length (grid_r sim) -> grid_r sim <> [] ->
  Forall (in_range (grid_r sim)) locs ->
  setup_profile_bumps L A W ty ats cm cad sim
  = setup_tail (alpha_0 <- read ini_gas_alpha ;;
                rescale_Sigma_with_Alpha alpha_0 cm)
      (raise NameError) ats cad
      (registered_bumps L A W ty
         (map (fun t => ini_gas_alpha sim * t)
            (if String.eqb ty "GAP"
             then factor_spec sim locs amps widths
             else map (fun f => 1 / f) (factor_spec sim locs amps widths)))
         sim).
Proof.
  intros Hl Hty Hlen HlH Hne Hin.
  set (b := mkGaussianBumps L A W ty ["Location"; "Amplitude"; "Width"]%string).
  set (sim2 := set_gas_alpha_updater UpdAlphaBump
                 (set_gas_updater bumps_gas_updater
                    (set_gas_GaussianBumps (Some b)
                       (set_gas_GaussianBumps
                          (Some (mkGaussianBumps L A W ty [])) sim)))).
  set (P := if String.eqb ty "GAP"
            then factor_spec sim locs amps widths
            else map (fun f => 1 / f) (factor_spec sim locs amps widths)).
  assert (H2 : Alpha_Bump sim2
               = (Ok (map (fun t => ini_gas_alpha sim * t) P), sim2)).
  { apply (Alpha_Bump_ok sim2 P).
    rewrite (get_BumpProfile_lists sim2 b locs amps widths);
      [| reflexivity | exact Hl | exact HlH | exact Hne | exact Hin].
    unfold bump_result, P. cbn [Type_ b].
    destruct Hty as [-> | ->]; reflexivity. }
  unfold setup_profile_bumps, group_update, gas_alpha_update.
  do 4 (unfold bind at 1, modify at 1).
  fold b. fold sim2.
  unfold bind at 1, ret at 1.
  unfold bind at 1. unfold bind at 1, read at 1.
  cbn [gas_alpha_updater set_gas_alpha_updater sim2].
  unfold bind at 1. rewrite H2.
  unfold bind at 1, read at 1. unfold bind at 1.
  cbn [gas_alpha set_gas_alpha_updater set_gas_updater set_gas_GaussianBumps
       sim2].
  rewrite assign_aligned
    by (unfold P, factor_spec; destruct (String.eqb ty "GAP");
        rewrite !length_map; auto).
  cbn [np]. unfold ret at 1. unfold modify at 1.
  reflexivity.
Qed.

Section Keeps.

Context {X : Type} (part : Sim -> X).
Hypothesis part_alpha : forall v s, part (set_gas_alpha v s) = part s.
Hypothesis part_Sigma : forall v s, part (set_gas_Sigma v s) = part s.
Hypothesis part_dust : forall v s, part (set_dust_Sigma v s) = part s.
Hypothesis part_out : forall m s, part (add_stdout m s) = part s.

Lemma keeps_part_reads {A} (m : M A) : reads_only m -> keeps part m.
Proof. intros H s. now rewrite H. Qed.

Lemma keeps_part_bind {A B} (m : M A) (k : A -> M B) :
  keeps part m -> (forall a, keeps part (k a)) -> keeps part (bind m k).
Proof.
  intros Hm Hk s. unfold bind. specialize (Hm s).
  destruct (m s) as [[a | e | c] s']; simpl in *; try exact Hm.
  now rewrite Hk.
Qed.

Lemma keeps_part_bind_failed {A B} (m : M A) (k : A -> M B) :
  keeps part m -> never_ok m -> keeps part (bind m k).
Proof.
  intros Hm Hn s. unfold bind. specialize (Hm s). specialize (Hn s).
  destruct (m s) as [[a | e | c] s']; simpl in *; try exact Hm.
  exfalso. now apply (Hn a).
Qed.

Lemma keeps_part_modify (f : Sim -> Sim) :
  (forall s, part (f s) = part s) -> keeps part (modify f).
Proof. intros H s. apply H. Qed.

Lemma keeps_part_reads_or_exits {A} (m : M A) :
  reads_or_exits m -> keeps part m.
Proof.
  intros H s. destruct (H s) as [-> | [_ ->]]; [reflexivity | apply part_out].
Qed.

Lemma keeps_part_Alpha_Bump : keeps part Alpha_Bump.
Proof.
  apply keeps_part_reads_or_exits. unfold Alpha_Bump.
  apply (reads_or_exits_bind (read ini_gas_alpha)); [reads | intros alpha_0].
  apply reads_or_exits_then; [apply reads_or_exits_get_BumpProfile|].
  intros F. apply reads_only_ret.
Qed.

Lemma keeps_part_gas_alpha_update : keeps part gas_alpha_update.
Proof.
  unfold gas_alpha_update.
  apply keeps_part_bind; [apply keeps_part_reads, reads_only_read | intros u].
  destruct u.
  - apply keeps_part_reads, reads_only_ret.
  - apply keeps_part_bind; [apply keeps_part_Alpha_Bump | intros v].
    apply keeps_part_bind; [apply keeps_part_reads, reads_only_read | intros old].
    apply keeps_part_bind; [apply keeps_part_reads, reads_only_np | intros new].
    apply keeps_part_modify. intros s. apply part_alpha.
  - apply keeps_part_bind;
      [apply keeps_part_reads, reads_only_Alpha_DeadZone | intros v].
    apply keeps_part_bind; [apply keeps_part_reads, reads_only_read | intros old].
    apply keeps_part_bind; [apply keeps_part_reads, reads_only_np | intros new].
    apply keeps_part_modify. intros s. apply part_alpha.
Qed.

Lemma keeps_part_rescale (alpha_0 : R) (cm : bool) :
  keeps part (rescale_Sigma_with_Alpha alpha_0 cm).
Proof.
  unfold rescale_Sigma_with_Alpha, print.
  apply keeps_part_bind;
    [apply keeps_part_reads, reads_only_get_DiskMass | intros M0].
  apply keeps_part_bind; [apply keeps_part_reads, reads_only_read | intros ?].
  apply keeps_part_bind; [apply keeps_part_reads, reads_only_read | intros ?].
  apply keeps_part_bind; [apply keeps_part_reads, reads_only_np | intros ?].
  apply keeps_part_bind;
    [apply keeps_part_modify; intros s; apply part_Sigma | intros _].
  apply keeps_part_bind; [apply keeps_part_reads, reads_only_read | intros ?].
  apply keeps_part_bind; [apply keeps_part_reads, reads_only_read | intros ?].
  apply keeps_part_bind; [apply keeps_part_reads, reads_only_np | intros ?].
  apply keeps_part_bind;
    [apply keeps_part_modify; intros s; apply part_dust | intros _].
  apply keeps_part_bind;
    [apply keeps_part_reads, reads_only_get_DiskMass | intros M1].
  apply keeps_part_bind;
    [apply keeps_part_modify; intros s; apply part_out | intros _].
  destruct cm.
  - apply keeps_part_bind; [apply keeps_part_reads, reads_only_read | intros ?].
    apply keeps_part_bind;
      [apply keeps_part_modify; intros s; apply part_Sigma | intros _].
    apply keeps_part_bind; [apply keeps_part_reads, reads_only_read | intros ?].
    apply keeps_part_bind;
      [apply keeps_part_modify; intros s; apply part_dust | intros _].
    apply keeps_part_modify; intros s; apply part_out.
  - apply keeps_part_modify; intros s; apply part_out.
Qed.

(** The bump setup with the copy to the dust switched on, as far as this
    part of the simulation goes. *)
Lemma keeps_part_bumps_copy (L A W : PyNum) (ty : string) (ats cm : bool) :
  (forall g s, part (set_gas_GaussianBumps g s) = part s) ->
  (forall u s, part (set_gas_updater u s) = part s) ->
  (forall u s, part (set_gas_alpha_updater u s) = part s) ->
  keeps part (setup_profile_bumps L A W ty ats cm true).
Proof.
  intros Hg Hu Ha. unfold setup_profile_bumps, group_update.
  apply keeps_part_bind; [apply keeps_part_modify; intros s; apply Hg | intros _].
  apply keeps_part_bind; [apply keeps_part_modify; intros s; apply Hg | intros _].
  apply keeps_part_bind; [apply keeps_part_modify; intros s; apply Hu | intros _].
  apply keeps_part_bind; [apply keeps_part_modify; intros s; apply Ha | intros _].
  apply keeps_part_bind; [apply keeps_part_reads, reads_only_ret | intros _].
  apply keeps_part_bind; [apply keeps_part_gas_alpha_update | intros _].
  apply keeps_part_bind.
  - destruct ats; [|apply keeps_part_reads, reads_only_ret].
    apply keeps_part_bind; [apply keeps_part_reads, reads_only_read | intros a0].
    apply keeps_part_rescale.
  - intros _. apply keeps_part_bind_failed.
    + apply keeps_part_reads, reads_only_raise.
    + intros s a H. discriminate.
Qed.

End Keeps.

Section NeverOk.

Lemma never_ok_raise {A} (e : PyExn) : never_ok (@raise A e).
Proof. intros s a H. discriminate. Qed.

Lemma never_ok_bind_l {A B} (m : M A) (k : A -> M B) :
  never_ok m -> never_ok (bind m k).
Proof.
  intros Hm s b. unfold bind. specialize (Hm s).
  destruct (m s) as [[a | e | c] s']; simpl in *; try discriminate.
  exfalso. now apply (Hm a).
Qed.

Lemma never_ok_bind_r {A B} (m : M A) (k : A -> M B) :
  (forall a, never_ok (k a)) -> never_ok (bind m k).
Proof.
  intros Hk s b. unfold bind.
  destruct (m s) as [[a | e | c] s']; simpl; try discriminate.
  apply Hk.
Qed.

End NeverOk.

(** X19: the bump setup cannot copy alpha to the dust.  With
    copy_alpha_to_delta = True, [setup_profile_bumps] calls a name the module
    does not define ([assign_delta_updaters]; the function is
    [assign_Delta_updaters]): whatever the other arguments and the
    simulation, the call never ends normally, the updaters of the dust
    delta are left as they were and the engine's update is never asked for.
    For a well-formed group of bumps inside the grid and no rescale, the
    call ends in [NameError] after alpha has already been replaced. *)
Theorem bumps_copy_to_delta_fails :
  (forall L A W ty ats cm sim,
      fst (setup_profile_bumps L A W ty ats cm true sim) <> Ok tt
      /\ updates_requested (snd (setup_profile_bumps L A W ty ats cm true sim))
         = updates_requested sim
      /\ dust_delta_rad_updater
           (snd (setup_profile_bumps L A W ty ats cm true sim))
         = dust_delta_rad_updater sim
      /\ dust_delta_turb_updater
           (snd (setup_profile_bumps L A W ty ats cm true sim))
         = dust_delta_turb_updater sim
      /\ dust_delta_vert_updater
           (snd (setup_profile_bumps L A W ty ats cm true sim))
         = dust_delta_vert_updater sim)
  /\ (forall L A W ty locs amps widths cm sim,
        bump_lists (mkGaussianBumps L A W ty []) = Some (locs, amps, widths) ->
        ty = "GAP"%string \/ ty = "BUMP"%string ->
        length (gas_alpha sim) = length (grid_r sim) ->
        length (gas_Hp sim) = length (grid_r sim) -> grid_r sim <> [] ->
        Forall (in_range (grid_r sim)) locs ->
        exists sim',
          setup_profile_bumps L A W ty false cm true sim = (Raise NameError, sim')
          /\ gas_alpha sim'
             = map (fun t => ini_gas_alpha sim * t)
                 (if String.eqb ty "GAP"
                  then factor_spec sim locs amps widths
                  else map (fun f => 1 / f) (factor_spec sim locs amps widths))
          /\ gas_alpha_updater sim' = UpdAlphaBump).
Proof.
  split.
  - intros L A W ty ats cm sim. split.
    { unfold setup_profile_bumps.
      do 7 (apply never_ok_bind_r; intros ?).
      apply never_ok_bind_l, never_ok_raise. }
    split; [|split; [|split]];
      apply keeps_part_bumps_copy; intros; reflexivity.
  - intros L A W ty locs amps widths cm sim Hl Hty Hlen HlH Hne Hin.
    rewrite (setup_profile_bumps_steps sim L A W ty locs amps widths
               false cm true Hl Hty Hlen HlH Hne Hin).
    eexists. split; [reflexivity|]. split; reflexivity.
Qed.

(** X20: what the dead-zone setup does without the rescale.  On a
    simulation whose alpha field is aligned with the grid, for every value
    of the plateaus and of the outer radius and every transition width
    other than zero, [setup_profile_deadzone] with apply_to_sigma = False
    ends normally; it puts the dead-zone profile into
    alpha, leaves the gas and dust densities, the grid and the output as
    they were, asks for exactly one update of the engine, and makes the
    three dust delta updaters return alpha exactly when copy_alpha_to_delta
    is set. *)
Theorem deadzone_setup_effects (sim : Sim) (aa ad ro w : R) (cm cad : bool) :
  length (gas_alpha sim) = length (grid_r sim) ->
  w <> 0 ->
  exists sim',
    setup_profile_deadzone aa ad ro w false cm cad sim = (Ok tt, sim')
    /\ gas_alpha sim' = deadzone_profile aa ad ro w (grid_r sim)
    /\ Alpha_DeadZone sim' = (Ok (gas_alpha sim'), sim')
    /\ get_Alpha sim' = (Ok (gas_alpha sim'), sim')
    /\ gas_Sigma sim' = gas_Sigma sim /\ dust_Sigma sim' = dust_Sigma sim
    /\ grid_r sim' = grid_r sim /\ grid_A sim' = grid_A sim
    /\ stdout sim' = stdout sim
    /\ updates_requested sim' = S (updates_requested sim)
    /\ (cad = true ->
          dust_delta_rad_updater sim' = DeltaGetAlpha
          /\ dust_delta_turb_updater sim' = DeltaGetAlpha
          /\ dust_delta_vert_updater sim' = DeltaGetAlpha)
    /\ (cad = false ->
          dust_delta_rad_updater sim' = dust_delta_rad_updater sim
          /\ dust_delta_turb_updater sim' = dust_delta_turb_updater sim
          /\ dust_delta_vert_updater sim' = dust_delta_vert_updater sim).
Proof.
  intros Hlen Hw.
  rewrite (setup_profile_deadzone_steps sim aa ad ro w false cm cad Hlen).
  destruct cad.
  - eexists. split; [reflexivity|].
    split; [reflexivity|].
    split; [erewrite Alpha_DeadZone_eq by reflexivity; reflexivity|].
    repeat (split; [reflexivity|]).
    split; [intros _; repeat split | discriminate].
  - eexists. split; [reflexivity|].
    split; [reflexivity|].
    split; [erewrite Alpha_DeadZone_eq by reflexivity; reflexivity|].
    repeat (split; [reflexivity|]).
    split; [discriminate | intros _; repeat split].
Qed.

Lemma deadzone_setup_effects_witness :
  exists sim',
    setup_profile_deadzone 1e-3 1e-4 3 1 false true true example_sim
    = (Ok tt, sim')
    /\ dust_delta_turb_updater sim' = DeltaGetAlpha
    /\ updates_requested sim' = 1%nat.
Proof.
  destruct (deadzone_setup_effects example_sim 1e-3 1e-4 3 1 true true)
    as [sim' [H [_ [_ [_ [_ [_ [_ [_ [_ [Hu [Hd _]]]]]]]]]]]];
    [reflexivity | lra|].
  exists sim'. split; [exact H|].
  split; [now apply Hd | exact Hu].
Defined.

Section EndToEnd.

(** After the correction the mass is the mass before the scaling. *)
Lemma corrected_mass (A S a : ndarray) (alpha_0 : R) :
  length A = length S -> length a = length S ->
  Forall (fun x => 0 < x) S -> Forall (fun x => 0 < x) a ->
  Forall (fun x => 0 < x) A -> 0 < alpha_0 ->
  Np.sum
    (map2 Rmult A
       (map (fun x =>
               x / (Np.sum (map2 Rmult A
                              (map2 Rmult S (map (fun t => alpha_0 / t) a)))
                    / Np.sum (map2 Rmult A S)))
          (map2 Rmult S (map (fun t => alpha_0 / t) a))))
  = Np.sum (map2 Rmult A S).
Proof.
  intros HlA Hla HS Ha HA H0.
  rewrite sum_scaled.
  destruct A as [|a0 A'].
  - simpl. unfold Rdiv. ring.
  - assert (HM0 : 0 < Np.sum (map2 Rmult (a0 :: A') S))
      by (apply sum_positive; [exact HlA | discriminate | exact HA | exact HS]).
    assert (HM1 : 0 < Np.sum (map2 Rmult (a0 :: A')
                                (map2 Rmult S (map (fun t => alpha_0 / t) a)))).
    { apply sum_positive; [| discriminate | exact HA|].
      - rewrite length_map2; [exact HlA|]. now rewrite length_map.
      - now apply scaled_positive. }
    field. split; lra.
Qed.

Lemma deadzone_profile_positive (aa ad ro w : R) (r : ndarray) :
  0 < w -> 0 < aa -> 0 < ad ->
  Forall (fun x => 0 < x) (deadzone_profile aa ad ro w r).
Proof.
  intros Hw Haa Had. unfold deadzone_profile. rewrite map_map.
  apply Forall_forall. intros x Hx. apply in_map_iff in Hx.
  destruct Hx as [ri [<- _]].
  pose proof (shape_spec_range w (ri - ro) Hw). nra.
Qed.

Lemma Forall_pos_divided (q : R) (X : ndarray) :
  0 < q -> Forall (fun x => 0 < x) X ->
  Forall (fun x => 0 < x) (map (fun x => x / q) X).
Proof.
  intros Hq H. induction H as [|x X Hx _ IH]; simpl; constructor;
    [now apply Rdiv_lt_0_compat | exact IH].
Qed.

End EndToEnd.

(** X21: the dead-zone setup with rescale and correction conserves the
    mass.  On a grid with positive cell areas and positive gas densities,
    all arrays aligned, for positive plateaus and a positive transition
    width, [setup_profile_deadzone] with apply_to_sigma = True and
    correct_mass = True ends normally, puts the dead-zone profile into
    alpha, and leaves densities that are still positive and whose
    integrated mass sum(area * Sigma) is the mass before the call. *)
Theorem deadzone_setup_conserves_mass (sim : Sim) (aa ad ro w : R) (cad : bool) :
  length (gas_alpha sim) = length (grid_r sim) ->
  length (gas_Sigma sim) = length (grid_r sim) ->
  length (grid_A sim) = length (grid_r sim) ->
  length (dust_Sigma sim) = length (grid_r sim) ->
  Forall (fun x => 0 < x) (gas_Sigma sim) ->
  Forall (fun x => 0 < x) (grid_A sim) ->
  grid_r sim <> [] ->
  0 < w -> 0 < aa -> 0 < ad ->
  exists sim',
    setup_profile_deadzone aa ad ro w true true cad sim = (Ok tt, sim')
    /\ gas_alpha sim' = deadzone_profile aa ad ro w (grid_r sim)
    /\ grid_A sim' = grid_A sim
    /\ length (gas_Sigma sim') = length (gas_Sigma sim)
    /\ Forall (fun x => 0 < x) (gas_Sigma sim')
    /\ mass (grid_A sim') (gas_Sigma sim') = mass (grid_A sim) (gas_Sigma sim)
    /\ updates_requested sim' = S (updates_requested sim).
Proof.
  intros Hla HlS HlA Hld HS HA Hne Hw Haa Had.
  rewrite (setup_profile_deadzone_steps sim aa ad ro w true true cad Hla).
  set (prof := deadzone_profile aa ad ro w (grid_r sim)).
  set (sim3 := registered_deadzone aa ad ro w prof sim).
  assert (Hlp : length prof = length (grid_r sim))
    by (unfold prof, deadzone_profile; now rewrite !length_map).
  assert (Hpp : Forall (fun x => 0 < x) prof)
    by (now apply deadzone_profile_positive).
  destruct (rescale_runs sim3 aa true) as [sim4 [H4 [Hsame [HS4 _]]]].
  { unfold sim3, registered_deadzone. sim_fields. congruence. }
  { unfold sim3, registered_deadzone. sim_fields. congruence. }
  { unfold sim3, registered_deadzone. sim_fields. congruence. }
  assert (HA4 : grid_A sim4 = grid_A sim) by apply Hsame.
  assert (Ha4 : gas_alpha sim4 = prof) by apply Hsame.
  assert (Hu4 : updates_requested sim4 = updates_requested sim) by apply Hsame.
  cbv iota in HS4.
  assert (HS4' : gas_Sigma sim4
                 = map (fun x =>
                          x / (Np.sum (map2 Rmult (grid_A sim)
                                         (map2 Rmult (gas_Sigma sim)
                                            (map (fun t => aa / t) prof)))
                               / Np.sum (map2 Rmult (grid_A sim) (gas_Sigma sim))))
                     (map2 Rmult (gas_Sigma sim) (map (fun t => aa / t) prof)))
    by exact HS4.
  assert (HM0 : 0 < Np.sum (map2 Rmult (grid_A sim) (gas_Sigma sim))).
  { apply sum_positive; [congruence | | exact HA | exact HS].
    destruct (grid_A sim); [|discriminate].
    destruct (grid_r sim); [congruence | discriminate]. }
  assert (HM1 : 0 < Np.sum (map2 Rmult (grid_A sim)
                              (map2 Rmult (gas_Sigma sim)
                                 (map (fun t => aa / t) prof)))).
  { apply sum_positive; [| | exact HA | now apply scaled_positive].
    - rewrite length_map2; [congruence|]. rewrite length_map. congruence.
    - destruct (grid_A sim); [|discriminate].
      destruct (grid_r sim); [congruence | discriminate]. }
  exists (request_update
            ((if cad then set_delta_updaters DeltaGetAlpha else fun s => s) sim4)).
  split.
  { unfold setup_tail. rewrite (bind_ok _ _ _ _ _ H4).
    unfold assign_Delta_updaters. destruct cad; reflexivity. }
  assert (Hproj : forall s,
            gas_Sigma (request_update
                         ((if cad then set_delta_updaters DeltaGetAlpha
                           else fun s => s) s)) = gas_Sigma s
            /\ grid_A (request_update
                         ((if cad then set_delta_updaters DeltaGetAlpha
                           else fun s => s) s)) = grid_A s
            /\ gas_alpha (request_update
                            ((if cad then set_delta_updaters DeltaGetAlpha
                              else fun s => s) s)) = gas_alpha s
            /\ updates_requested
                 (request_update
                    ((if cad then set_delta_updaters DeltaGetAlpha
                      else fun s => s) s)) = S (updates_requested s)).
  { intros s. destruct cad; repeat split. }
  destruct (Hproj sim4) as [-> [-> [-> ->]]].
  split; [exact Ha4|]. split; [exact HA4|].
  split.
  { rewrite HS4', length_map, length_map2; [reflexivity|].
    rewrite length_map. congruence. }
  split.
  { rewrite HS4'. apply Forall_pos_divided.
    - now apply Rdiv_lt_0_compat.
    - now apply scaled_positive. }
  split; [|now rewrite Hu4].
  unfold mass. rewrite HA4, HS4'.
  apply corrected_mass; try assumption; congruence.
Qed.

Lemma deadzone_setup_conserves_mass_witness :
  exists sim',
    setup_profile_deadzone 1e-3 1e-4 3 1 true true true example_sim
    = (Ok tt, sim')
    /\ mass (grid_A sim') (gas_Sigma sim') = 50.
Proof.
  destruct (deadzone_setup_conserves_mass example_sim 1e-3 1e-4 3 1 true)
    as [sim' [H [_ [_ [_ [_ [Hm _]]]]]]];
    try reflexivity;
    try (simpl; repeat constructor; lra);
    try discriminate;
    try lra.
  exists sim'. split; [exact H|].
  rewrite Hm. unfold mass. simpl. lra.
Defined.

(** X22: the bump setup carves the gap, or raises the bump, in the density.
    For a well-formed group of bumps of positive widths inside an increasing
    grid with a positive scale height, all arrays aligned, a base alpha
    different from zero and amplitudes whose negative parts sum to more than
    -1, [setup_profile_bumps] with the rescale on and the two other options
    off ends normally; the factor F is positive in every cell, and for the
    kind GAP alpha = alpha_0 * F and Sigma_new * F = Sigma, while for the
    kind BUMP alpha * F = alpha_0 and Sigma_new = Sigma * F. *)
Theorem bumps_setup_carves_density (sim : Sim) (L A W : PyNum) (ty : string)
    (locs amps widths : list R) :
  bump_lists (mkGaussianBumps L A W ty []) = Some (locs, amps, widths) ->
  ty = "GAP"%string \/ ty = "BUMP"%string ->
  increasing (grid_r sim) -> (2 <= length (grid_r sim))%nat ->
  length (gas_alpha sim) = length (grid_r sim) ->
  length (gas_Hp sim) = length (grid_r sim) ->
  length (gas_Sigma sim) = length (grid_r sim) ->
  length (grid_A sim) = length (grid_r sim) ->
  length (dust_Sigma sim) = length (grid_r sim) ->
  Forall (in_range (grid_r sim)) locs ->
  Forall (fun h => 0 < h) (gas_Hp sim) ->
  Forall (fun w => 0 < w) widths ->
  ini_gas_alpha sim <> 0 ->
  -1 < neg_part_sum amps ->
  exists sim',
    setup_profile_bumps L A W ty true false false sim = (Ok tt, sim')
    /\ length (gas_alpha sim') = length (grid_r sim)
    /\ length (gas_Sigma sim') = length (grid_r sim)
    /\ updates_requested sim' = S (updates_requested sim)
    /\ forall i, (i < length (grid_r sim))%nat ->
         let F := nth i (factor_spec sim locs amps widths) 0 in
         0 < F
         /\ (ty = "GAP"%string ->
               nth i (gas_alpha sim') 0 = ini_gas_alpha sim * F
               /\ nth i (gas_Sigma sim') 0 * F = nth i (gas_Sigma sim) 0)
         /\ (ty = "BUMP"%string ->
               nth i (gas_alpha sim') 0 * F = ini_gas_alpha sim
               /\ nth i (gas_Sigma sim') 0 = nth i (gas_Sigma sim) 0 * F).
Proof.
  intros Hl Hty Hinc Hlen Hla HlH HlS HlA Hld Hin HHp Hw H0 Hamp.
  rewrite (setup_profile_bumps_steps sim L A W ty locs amps widths
             true false false Hl Hty Hla HlH (nonempty_of_length _ Hlen) Hin).
  set (F := factor_spec sim locs amps widths).
  set (P := if String.eqb ty "GAP" then F else map (fun f => 1 / f) F).
  set (alpha3 := map (fun t => ini_gas_alpha sim * t) P).
  set (sim3 := registered_bumps L A W ty alpha3 sim).
  assert (HlF : length F = length (grid_r sim))
    by (unfold F, factor_spec; now rewrite length_map).
  assert (HlP : length P = length (grid_r sim))
    by (unfold P; destruct (String.eqb ty "GAP"); rewrite ?length_map; exact HlF).
  assert (Hl3 : length alpha3 = length (grid_r sim))
    by (unfold alpha3; now rewrite length_map).
  assert (HFpos : forall i, (i < length (grid_r sim))%nat -> 0 < nth i F 0).
  { intros i Hi. unfold F, factor_spec.
    rewrite (nth_map_lt
               (fun rj => 1 + bump_sum (Hp_interp sim) rj locs amps widths)
               (grid_r sim) i 0 0 Hi).
    pose proof (bump_sum_ge_neg_part (Hp_interp sim) (nth i (grid_r sim) 0)
                  amps locs widths).
    lra. }
  destruct (rescale_runs sim3 (ini_gas_alpha sim) false)
    as [sim4 [H4 [Hsame [HS4 _]]]].
  { unfold sim3, registered_bumps. sim_fields. congruence. }
  { unfold sim3, registered_bumps. sim_fields. congruence. }
  { unfold sim3, registered_bumps. sim_fields. congruence. }
  assert (Ha4 : gas_alpha sim4 = alpha3) by apply Hsame.
  assert (Hu4 : updates_requested sim4 = updates_requested sim) by apply Hsame.
  cbv iota in HS4.
  exists (request_update sim4).
  split.
  { unfold setup_tail.
    unfold bind at 1. unfold bind at 1, read at 1.
    cbv beta.
    change (registered_bumps L A W ty
              (map (fun t => ini_gas_alpha sim * t)
                 (if String.eqb ty "GAP" then F else map (fun f => 1 / f) F))
              sim) with sim3.
    change (ini_gas_alpha sim3) with (ini_gas_alpha sim).
    rewrite H4. reflexivity. }
  change (gas_alpha (request_update sim4)) with (gas_alpha sim4).
  change (gas_Sigma (request_update sim4)) with (gas_Sigma sim4).
  change (updates_requested (request_update sim4))
    with (S (updates_requested sim4)).
  assert (HlS4 : length (gas_Sigma sim4) = length (grid_r sim)).
  { rewrite HS4. unfold scaled_Sigma.
    rewrite length_map2;
      unfold sim3, registered_bumps; sim_fields; [exact HlS|].
    rewrite length_map. congruence. }
  split; [rewrite Ha4; exact Hl3|].
  split; [exact HlS4|].
  split; [now rewrite Hu4|].
  intros i Hi. cbv zeta.
  pose proof (HFpos i Hi) as HF.
  assert (Hcell : nth i (gas_Sigma sim4) 0
                  = nth i (gas_Sigma sim) 0
                    * (ini_gas_alpha sim / (ini_gas_alpha sim * nth i P 0))).
  { rewrite HS4, nth_scaled_Sigma.
    - change (gas_Sigma sim3) with (gas_Sigma sim).
      change (gas_alpha sim3) with alpha3.
      unfold alpha3.
      now rewrite (nth_map_lt (fun t => ini_gas_alpha sim * t) P i 0 0)
        by lia.
    - unfold sim3, registered_bumps. sim_fields. congruence.
    - unfold sim3, registered_bumps. sim_fields. lia. }
  assert (Halpha : nth i (gas_alpha sim4) 0 = ini_gas_alpha sim * nth i P 0).
  { rewrite Ha4. unfold alpha3.
    apply (nth_map_lt (fun t => ini_gas_alpha sim * t)). lia. }
  split; [exact HF|].
  split; intros E.
  - assert (HP : nth i P 0 = nth i F 0) by (unfold P; now rewrite E).
    rewrite Halpha, Hcell, HP. split; [reflexivity|].
    field. split; lra.
  - assert (HP : nth i P 0 = 1 / nth i F 0).
    { unfold P. rewrite E. cbn [String.eqb Ascii.eqb Bool.eqb].
      apply (nth_map_lt (fun f => 1 / f)). lia. }
    rewrite Halpha, Hcell, HP. split; field; try split; lra.
Qed.

Lemma bumps_setup_carves_density_witness :
  exists sim',
    setup_profile_bumps (Scalar 3) (Scalar 4) (Scalar 1) "GAP"
      true false false example_sim = (Ok tt, sim')
    /\ nth 2 (gas_Sigma sim') 0 * nth 2 (factor_spec example_sim [3] [4] [1]) 0
       = 10.
Proof.
  destruct (bumps_setup_carves_density example_sim
              (Scalar 3) (Scalar 4) (Scalar 1) "GAP" [3] [4] [1])
    as [sim' [H [_ [_ [_ Hall]]]]].
  - reflexivity.
  - left. reflexivity.
  - simpl. lra.
  - simpl. lia.
  - reflexivity.
  - reflexivity.
  - reflexivity.
  - reflexivity.
  - reflexivity.
  - repeat constructor; simpl; lra.
  - simpl. repeat constructor; lra.
  - repeat constructor; lra.
  - simpl. lra.
  - simpl. unfold Rmin. destruct (Rle_dec 4 0); lra.
  - exists sim'. split; [exact H|].
    destruct (Hall 2%nat) as [_ [Hgap _]]; [simpl; lia|].
    apply Hgap. reflexivity.
Defined.
